(** * WalletConnect v2 client: relayer, pairing, client facade, subscription store

    A shallow embedding of the controllers of [packages/client] and proofs
    about them.  An asynchronous method is a function on the state of its
    controller; a promise that rejects is an error result; a call that is
    started and not awaited is put on a queue and runs later; the time
    [Date.now()] is an argument. *)

From Stdlib Require Import ZArith String Ascii List Bool Lia.
From stdpp Require Import base option list gmap strings.

Set Warnings "-register-all".

Local Open Scope string_scope.
Local Open Scope Z_scope.

(** ** Values shared by the controllers *)

(** JSON values, as carried in [any]-typed fields. *)
Inductive JsValue : Type :=
  | JUndefined
  | JNull
  | JBool (b : bool)
  | JNum (n : Z)
  | JStr (s : string)
  | JArr (items : list JsValue)
  | JObj (fields : list (string * JsValue)).

(** A JavaScript object whose fields are spread or overwritten by name. *)
Abbreviation JsObject := (gmap string JsValue).

(** The entries of [ERROR] (package utils) that the controllers format,
    with the arguments given to [format]; [Thrown] is an error raised by a
    collaborator (transport, storage, crypto). *)
Inductive Error : Type :=
  | NO_MATCHING_TOPIC (context topic : string)
  | NO_MATCHING_RESPONSE (context : string)
  | EXPIRED (context : string)
  | RESTORE_WILL_OVERRIDE (context : string)
  | UNAUTHORIZED_MATCHING_CONTROLLER (controller : bool)
  | MISSING_OR_INVALID (name : string)
  | MISSING_RESPONSE (context : string)
  | RELAY_PROTOCOL_NOT_SUPPORTED (protocol : string)
  | Thrown (message : string).

(** [Reason] of package types: what [ERROR.X.format] returns, or a reason
    received from the peer. *)
Abbreviation Reason := Error.

Inductive Result (A : Type) : Type :=
  | Ok (a : A)
  | Err (e : Error).
Arguments Ok {A} a.
Arguments Err {A} e.

(** [a || b] on strings and on numbers: the empty string, [0] and
    [undefined] are falsy. *)
Definition or_string (a : option string) (b : string) : string :=
  match a with
  | Some s => if String.eqb s "" then b else s
  | None => b
  end.

Definition or_number (a : option Z) (b : Z) : Z :=
  match a with
  | Some n => if Z.eqb n 0 then b else n
  | None => b
  end.

(** ** Relayer (class [Relayer], second part of controllers/subscription.ts) *)

Module RelayerTypes.
Record ProtocolOptions : Type :=
  { protocol : string; params : option JsValue }.

Record PublishOptions : Type :=
  { publish_relay : ProtocolOptions; ttl : option Z }.

Record SubscribeOptions : Type :=
  { subscribe_relay : ProtocolOptions }.

Record UnsubscribeOptions : Type :=
  { unsubscribe_relay : ProtocolOptions; id : option string }.
End RelayerTypes.

Module RelayJsonRpc.
Record Methods : Type :=
  { publish : string; subscribe : string;
    subscription : string; unsubscribe : string }.

Inductive Params : Type :=
  | PublishParams (topic message : string) (ttl : Z)
  | SubscribeParams (topic : string)
  | UnsubscribeParams (id : string).

(** [RequestArguments<Params>] *)
Record Request : Type := { method : string; params : Params }.
End RelayJsonRpc.

(** What the relayer reaches through [this.client] and [this.provider], and
    the constants it takes from other files. *)
Class RelayerEnv (Payload : Type) : Type :=
  { safeJsonStringify : Payload -> string;
    (** [client.crypto.hasKeys(topic)] *)
    hasKeys : string -> bool;
    (** [client.crypto.encrypt(topic, msg)] *)
    encrypt : string -> string -> Result string;
    (** [provider.request(request)] *)
    provider_request : RelayJsonRpc.Request -> Result JsValue;
    (** the protocols that have an entry in [RELAY_JSONRPC] *)
    relay_protocol_supported : string -> bool;
    (** constants/time.ts *)
    SIX_HOURS : Z }.

Module Relayer.
Import RelayerTypes.

Definition RELAYER_DEFAULT_PROTOCOL : string := "waku".

Definition RELAYER_DEFAULT_PUBLISH_TTL {Payload : Type} {RE : RelayerEnv Payload} : Z := SIX_HOURS.

(** Modelled from the spec: the table [RELAY_JSONRPC] of package
    relay-provider is missing; a protocol [p] that it supports has the
    methods [p_publish], [p_subscribe], [p_unsubscribe] and the push
    [p_subscription]. *)
Definition RELAY_JSONRPC {Payload : Type} {RE : RelayerEnv Payload} (protocol : string)
  : option RelayJsonRpc.Methods :=
  if relay_protocol_supported protocol then
    Some {| RelayJsonRpc.publish := protocol ++ "_publish";
            RelayJsonRpc.subscribe := protocol ++ "_subscribe";
            RelayJsonRpc.subscription := protocol ++ "_subscription";
            RelayJsonRpc.unsubscribe := protocol ++ "_unsubscribe" |}
  else None.

Definition getRelayProtocolJsonRpc {Payload : Type} {RE : RelayerEnv Payload} (protocol : string)
  : Result RelayJsonRpc.Methods :=
  match RELAY_JSONRPC protocol with
  | Some jsonrpc => Ok jsonrpc
  | None => Err (RELAY_PROTOCOL_NOT_SUPPORTED protocol)
  end.

(** Modelled from the spec: [utf8ToHex] of package enc-utils is missing;
    the hex encoding of the UTF-8 bytes, two lower-case digits a byte. *)
Definition hex_digit (n : N) : ascii :=
  match n with
  | 0%N => "0" | 1%N => "1" | 2%N => "2" | 3%N => "3"
  | 4%N => "4" | 5%N => "5" | 6%N => "6" | 7%N => "7"
  | 8%N => "8" | 9%N => "9" | 10%N => "a" | 11%N => "b"
  | 12%N => "c" | 13%N => "d" | 14%N => "e" | _ => "f"
  end%char.

Fixpoint utf8ToHex (utf8 : string) : string :=
  match utf8 with
  | EmptyString => EmptyString
  | String c rest =>
      let n := N_of_ascii c in
      String (hex_digit (N.div n 16)) (String (hex_digit (N.modulo n 16)) (utf8ToHex rest))
  end.

(** The relayer: its map of subscription ids, the ids with a listener on
    [this.events], and the requests handed to the provider, oldest first. *)
Record State : Type :=
  { subscriptions : gmap string (list string);
    listeners : gset string;
    sent : list RelayJsonRpc.Request }.

Definition init_state : State :=
  {| subscriptions := ∅; listeners := ∅; sent := [] |}.

Definition request {Payload : Type} {RE : RelayerEnv Payload} (req : RelayJsonRpc.Request) (s : State)
  : Result JsValue * State :=
  (provider_request req,
   {| subscriptions := subscriptions s; listeners := listeners s;
      sent := sent s ++ [req] |}).

Definition publish {Payload : Type} {RE : RelayerEnv Payload}
    (topic : string) (payload : Payload) (opts : option PublishOptions) (s : State)
  : Result unit * State :=
  let protocol :=
    or_string (protocol <$> (publish_relay <$> opts)) RELAYER_DEFAULT_PROTOCOL in
  let msg := safeJsonStringify payload in
  match (if hasKeys topic then encrypt topic msg else Ok (utf8ToHex msg)) with
  | Err e => (Err e, s)
  | Ok message =>
      match getRelayProtocolJsonRpc protocol with
      | Err e => (Err e, s)
      | Ok jsonRpc =>
          let req :=
            {| RelayJsonRpc.method := RelayJsonRpc.publish jsonRpc;
               RelayJsonRpc.params :=
                 RelayJsonRpc.PublishParams topic message
                   (or_number (opts ≫= ttl) RELAYER_DEFAULT_PUBLISH_TTL) |} in
          match request req s with
          | (Err e, s') => (Err e, s')
          | (Ok _, s') => (Ok tt, s')
          end
      end
  end.

(** [x => x === id] *)
Definition same_id (id x : string) : bool := String.eqb x id.

Definition unsubscribeId {Payload : Type} {RE : RelayerEnv Payload}
    (topic : string) (id : string) (opts : option UnsubscribeOptions) (s : State)
  : Result unit * State :=
  let protocol :=
    or_string (protocol <$> (unsubscribe_relay <$> opts)) RELAYER_DEFAULT_PROTOCOL in
  match getRelayProtocolJsonRpc protocol with
  | Err e => (Err e, s)
  | Ok jsonRpc =>
      let req :=
        {| RelayJsonRpc.method := RelayJsonRpc.unsubscribe jsonRpc;
           RelayJsonRpc.params := RelayJsonRpc.UnsubscribeParams id |} in
      match request req s with
      | (Err e, s') => (Err e, s')
      | (Ok _, s') =>
          let listeners' := listeners s' ∖ {[ id ]} in
          match subscriptions s' !! topic with
          | Some ids =>
              (Ok tt,
               {| subscriptions :=
                    <[ topic := List.filter (same_id id) ids ]> (subscriptions s');
                  listeners := listeners'; sent := sent s' |})
          | None =>
              (Ok tt,
               {| subscriptions := subscriptions s';
                  listeners := listeners'; sent := sent s' |})
          end
      end
  end.

(** [Promise.all(subscriptions.map(id => this.unsubscribeId(topic, id, opts)))]:
    every call runs, in the order of the array; the promise rejects with
    the first rejection. *)
Fixpoint unsubscribeAll {Payload : Type} {RE : RelayerEnv Payload}
    (topic : string) (ids : list string) (opts : option UnsubscribeOptions) (s : State)
  : Result unit * State :=
  match ids with
  | [] => (Ok tt, s)
  | id :: rest =>
      match unsubscribeId topic id opts s with
      | (Ok _, s') => unsubscribeAll topic rest opts s'
      | (Err e, s') => (Err e, snd (unsubscribeAll topic rest opts s'))
      end
  end.

Definition unsubscribe {Payload : Type} {RE : RelayerEnv Payload}
    (topic : string) (opts : option UnsubscribeOptions) (s : State)
  : Result unit * State :=
  match opts ≫= id with
  | Some i => unsubscribeId topic i opts s
  | None =>
      match subscriptions s !! topic with
      | None => (Ok tt, s)
      | Some ids => unsubscribeAll topic ids opts s
      end
  end.

(** [subscribe]: the relay answers with the id of the subscription, which
    the types make a string; [None] stands for an answer of another kind. *)
Definition subscribe {Payload : Type} {RE : RelayerEnv Payload}
    (topic : string) (opts : option SubscribeOptions) (s : State)
  : option (Result string * State) :=
  let protocol :=
    or_string (protocol <$> (subscribe_relay <$> opts)) RELAYER_DEFAULT_PROTOCOL in
  match getRelayProtocolJsonRpc protocol with
  | Err e => Some (Err e, s)
  | Ok jsonRpc =>
      let req :=
        {| RelayJsonRpc.method := RelayJsonRpc.subscribe jsonRpc;
           RelayJsonRpc.params := RelayJsonRpc.SubscribeParams topic |} in
      match request req s with
      | (Err e, s') => Some (Err e, s')
      | (Ok (JStr id), s') =>
          Some (Ok id,
                {| subscriptions :=
                     <[ topic := (default [] (subscriptions s' !! topic) ++ [id])%list ]>
                       (subscriptions s');
                   listeners := listeners s' ∪ {[ id ]};
                   sent := sent s' |})
      | (Ok _, s') => None
      end
  end.

(** The ids held for a topic. *)
Definition ids_of (s : State) (topic : string) : list string :=
  default [] (subscriptions s !! topic).

(** What one [unsubscribeId] may change. *)
Definition unsubscribe_step (topic : string) (s s' : State) : Prop :=
  (forall t, t <> topic -> subscriptions s' !! t = subscriptions s !! t) /\
  (forall x, In x (ids_of s' topic) -> In x (ids_of s topic)) /\
  (subscriptions s !! topic = None -> subscriptions s' !! topic = None) /\
  listeners s' ⊆ listeners s /\
  exists reqs,
    sent s' = (sent s ++ reqs)%list /\
    Forall (fun r => exists id, RelayJsonRpc.params r = RelayJsonRpc.UnsubscribeParams id) reqs.
End Relayer.

(** ** A JavaScript [Map] with string keys

    Entries are kept in insertion order: [set] on a key that is present
    replaces the value in place, [set] on a new key appends. *)

Module JsMap.
Section Ops.
Context {V : Type}.

Fixpoint get (k : string) (m : list (string * V)) : option V :=
  match m with
  | [] => None
  | (k', v) :: rest => if String.eqb k' k then Some v else get k rest
  end.

Definition has (k : string) (m : list (string * V)) : bool :=
  match get k m with Some _ => true | None => false end.

Fixpoint set (k : string) (v : V) (m : list (string * V)) : list (string * V) :=
  match m with
  | [] => [(k, v)]
  | (k', v') :: rest =>
      if String.eqb k' k then (k', v) :: rest else (k', v') :: set k v rest
  end.

Fixpoint delete (k : string) (m : list (string * V)) : list (string * V) :=
  match m with
  | [] => []
  | (k', v') :: rest =>
      if String.eqb k' k then rest else (k', v') :: delete k rest
  end.

Definition keys (m : list (string * V)) : list string := m.*1.

Definition values (m : list (string * V)) : list V := m.*2.

Definition size (m : list (string * V)) : nat := List.length m.
End Ops.
End JsMap.

(** ** Subscription store (class [Subscription], first part of
    controllers/subscription.ts, and the types of its parameters) *)

(** [{ ...sequence, ...update }] for the type of sequences a store holds,
    and a sequence passed where a [Partial<Sequence>] is expected. *)
Class Spread (Sequence Update : Type) : Type :=
  { spread : Sequence -> Update -> Sequence;
    as_update : Sequence -> Update }.

(** Sequences as plain objects: the fields of the update win. *)
#[export] Instance spread_object : Spread JsObject JsObject :=
  {| spread := fun sequence update => update ∪ sequence;
     as_update := fun sequence => sequence |}.

(** What a store takes from its logger and from the constants of other
    files. *)
Class StoreEnv : Type :=
  { (** [getNestedContext()]: the last two segments of the logger context *)
    nested_context : list string;
    (** constants/subscription.ts, in seconds *)
    SUBSCRIPTION_DEFAULT_TTL : Z }.

Module SubscriptionTypes.
Record SubscriptionOptions : Type :=
  { relay : RelayerTypes.ProtocolOptions; expiry : option Z }.

Record SubscriptionParams (Sequence : Type) : Type :=
  { params_topic : string;
    params_sequence : Sequence;
    params_relay : RelayerTypes.ProtocolOptions;
    params_expiry : Z }.
Arguments params_topic {Sequence} _.
Arguments params_sequence {Sequence} _.
Arguments params_relay {Sequence} _.
Arguments params_expiry {Sequence} _.

Inductive SubscriptionEvent (Sequence Update : Type) : Type :=
  | Created (tag topic : string) (sequence : Sequence)
  | Updated (tag topic : string) (sequence : Sequence) (update : Update)
  | Deleted (tag topic : string) (sequence : Sequence) (reason : Reason)
  | Enabled
  | Disabled
  | Sync.
Arguments Created {Sequence Update} tag topic sequence.
Arguments Updated {Sequence Update} tag topic sequence update.
Arguments Deleted {Sequence Update} tag topic sequence reason.
Arguments Enabled {Sequence Update}.
Arguments Disabled {Sequence Update}.
Arguments Sync {Sequence Update}.

(** What [client.storage.getItem] answers. *)
Inductive StorageRead (Sequence : Type) : Type :=
  | ReadFails (e : Error)
  | Item (persisted : option (list (SubscriptionParams Sequence))).
Arguments ReadFails {Sequence} e.
Arguments Item {Sequence} persisted.
End SubscriptionTypes.

Module Subscription.
Import SubscriptionTypes.

(** Modelled from the spec: constants/time.ts is missing; the beat is the
    5-second periodic tick. *)
Definition FIVE_SECONDS : Z := 5.

Definition CLIENT_BEAT_INTERVAL : Z := FIVE_SECONDS * 1000.

Section Store.
Context {Sequence Update : Type} {SP : Spread Sequence Update} {SE : StoreEnv}.

(** What is started and not awaited: [this.update] in [set],
    [this.delete] in [onTimeout], and the rest of [persist] once the
    storage has taken the write (the emission of [sync]). *)
Inductive Job : Type :=
  | JUpdate (topic : string) (update : Update)
  | JDelete (topic : string) (reason : Reason)
  | JSync.

(** The fields of the class, then what its methods reach outside it:
    the timers of the runtime that are still to fire (handle, topic of
    the callback, delay), the events emitted on [client.events], the
    errors given to [logger.error], the item written to storage, the
    calls started and not awaited that are ready to run, those parked
    on the next [enabled] event, and the rejections nobody awaits. *)
Record State : Type := mkState
  { subscriptions : list (string * SubscriptionParams Sequence);
    timeout : gmap string nat;
    cached : list (SubscriptionParams Sequence);
    timers : gmap nat (string * Z);
    next_timer : nat;
    emitted : list (SubscriptionEvent Sequence Update);
    errors : list Error;
    persisted : option (list (SubscriptionParams Sequence));
    jobs : list Job;
    waiting : list Job;
    unhandled : list Error }.

Definition init_state : State :=
  mkState [] ∅ [] ∅ 0%nat [] [] None [] [] [].

Definition with_subscriptions (f : list (string * SubscriptionParams Sequence) ->
                                   list (string * SubscriptionParams Sequence))
    (s : State) : State :=
  mkState (f (subscriptions s)) (timeout s) (cached s) (timers s) (next_timer s)
    (emitted s) (errors s) (persisted s) (jobs s) (waiting s) (unhandled s).

Definition with_cached (c : list (SubscriptionParams Sequence)) (s : State) : State :=
  mkState (subscriptions s) (timeout s) c (timers s) (next_timer s)
    (emitted s) (errors s) (persisted s) (jobs s) (waiting s) (unhandled s).

Definition with_timers (f : gmap nat (string * Z) -> gmap nat (string * Z))
    (s : State) : State :=
  mkState (subscriptions s) (timeout s) (cached s) (f (timers s)) (next_timer s)
    (emitted s) (errors s) (persisted s) (jobs s) (waiting s) (unhandled s).

Definition with_jobs (ready parked : list Job) (s : State) : State :=
  mkState (subscriptions s) (timeout s) (cached s) (timers s) (next_timer s)
    (emitted s) (errors s) (persisted s) ready parked (unhandled s).

Definition with_unhandled (e : Error) (s : State) : State :=
  mkState (subscriptions s) (timeout s) (cached s) (timers s) (next_timer s)
    (emitted s) (errors s) (persisted s) (jobs s) (waiting s) (unhandled s ++ [e]).

(** A promise of the store: resolved, rejected, or still pending on the
    [enabled] event. *)
Inductive Outcome (A : Type) : Type :=
  | Resolved (a : A) (s : State)
  | Rejected (e : Error) (s : State)
  | Pending (s : State).
Arguments Resolved {A} a s.
Arguments Rejected {A} e s.
Arguments Pending {A} s.

Definition M (A : Type) : Type := State -> Outcome A.

Definition ret {A : Type} (a : A) : M A := fun s => Resolved a s.

Definition bind {A B : Type} (m : M A) (k : A -> M B) : M B :=
  fun s =>
    match m s with
    | Resolved a s' => k a s'
    | Rejected e s' => Rejected e s'
    | Pending s' => Pending s'
    end.

Definition throw {A : Type} (e : Error) : M A := fun s => Rejected e s.

(** A synchronous step that cannot fail. *)
Definition step (f : State -> State) : M unit := fun s => Resolved tt (f s).

(** [try { m } catch (e) { handler(e) }] *)
Definition try_catch {A : Type} (m : M A) (handler : Error -> M A) : M A :=
  fun s =>
    match m s with
    | Rejected e s' => handler e s'
    | other => other
    end.

Definition state_of {A : Type} (o : Outcome A) : State :=
  match o with
  | Resolved _ s => s
  | Rejected _ s => s
  | Pending s => s
  end.

Notation "x <- m ;; k" := (bind m (fun x => k))
  (at level 100, m at next level, right associativity).
Notation "m ;;; k" := (bind m (fun _ => k))
  (at level 100, right associativity).

(** [list.join(sep)] *)
Fixpoint join (sep : string) (parts : list string) : string :=
  match parts with
  | [] => ""
  | [p] => p
  | p :: rest => p ++ sep ++ join sep rest
  end.

Definition getSubscriptionContext : string := join " " nested_context.

Definition getSubscriptionEventTag : string := join "/" nested_context.

Definition values (s : State) : list (SubscriptionParams Sequence) :=
  JsMap.values (subscriptions s).

Definition topics (s : State) : list string := JsMap.keys (subscriptions s).

Definition length (s : State) : nat := JsMap.size (subscriptions s).

(** [logger.error(e)] *)
Definition log_error (e : Error) (s : State) : State :=
  mkState (subscriptions s) (timeout s) (cached s) (timers s) (next_timer s)
    (emitted s) (errors s ++ [e]) (persisted s) (jobs s) (waiting s) (unhandled s).

Definition record_event (ev : SubscriptionEvent Sequence Update) (s : State) : State :=
  mkState (subscriptions s) (timeout s) (cached s) (timers s) (next_timer s)
    (emitted s ++ [ev]) (errors s) (persisted s) (jobs s) (waiting s) (unhandled s).

(** [persist], which no listener awaits: [this.values] is handed to the
    storage at once; [sync] is emitted when the write has resolved.  The
    storage is taken to accept every write. *)
Definition persist (s : State) : State :=
  mkState (subscriptions s) (timeout s) (cached s) (timers s) (next_timer s)
    (emitted s) (errors s) (Some (values s)) (jobs s ++ [JSync]) (waiting s)
    (unhandled s).

(** [client.events.emit(event, ...)] with the listeners that
    [registerEventListeners] puts on [created], [updated], [deleted];
    the waiters of [isEnabled] listen once on [enabled]. *)
Definition emit (ev : SubscriptionEvent Sequence Update) (s : State) : State :=
  let s' := record_event ev s in
  match ev with
  | Created _ _ _ | Updated _ _ _ _ | Deleted _ _ _ _ => persist s'
  | Enabled => with_jobs (jobs s' ++ waiting s') [] s'
  | Disabled | Sync => s'
  end.

(** [isEnabled]: resolves at once when nothing is cached, else on the
    next [enabled] event. *)
Definition isEnabled : M unit :=
  fun s => match cached s with [] => Resolved tt s | _ :: _ => Pending s end.

Definition enable (s : State) : State := emit Enabled (with_cached [] s).

Definition getSubscription (topic : string) : M (SubscriptionParams Sequence) :=
  isEnabled ;;;
  fun s =>
    match JsMap.get topic (subscriptions s) with
    | Some subscription => Resolved subscription s
    | None =>
        let error := NO_MATCHING_TOPIC getSubscriptionContext topic in
        Rejected error (log_error error s)
    end.

Definition get (topic : string) : M Sequence :=
  isEnabled ;;;
  subscription <- getSubscription topic ;;
  ret (params_sequence subscription).

Definition update (topic : string) (upd : Update) : M unit :=
  isEnabled ;;;
  subscription <- getSubscription topic ;;
  let sequence := spread (params_sequence subscription) upd in
  step (with_subscriptions
          (JsMap.set topic
             {| params_topic := topic;
                params_sequence := sequence;
                params_relay := params_relay subscription;
                params_expiry := params_expiry subscription |})) ;;;
  step (emit (Updated getSubscriptionEventTag topic sequence upd)).

Definition delete (topic : string) (reason : Reason) : M unit :=
  isEnabled ;;;
  subscription <- getSubscription topic ;;
  step (with_subscriptions (JsMap.delete topic)) ;;;
  step (emit (Deleted getSubscriptionEventTag topic
                (params_sequence subscription) reason)).

(** Start a call without awaiting it: it runs up to its first
    [await this.isEnabled()]. *)
Definition start (j : Job) (s : State) : State :=
  match cached s with
  | [] => with_jobs (jobs s ++ [j]) (waiting s) s
  | _ :: _ => with_jobs (jobs s) (waiting s ++ [j]) s
  end.

Definition run_job (j : Job) : M unit :=
  match j with
  | JUpdate topic upd => update topic upd
  | JDelete topic reason => delete topic reason
  | JSync => step (record_event Sync)
  end.

(** [clearTimeout(handle)] *)
Definition clearTimeout (handle : nat) (s : State) : State :=
  with_timers (base.delete handle) s.

Definition deleteTimeout (topic : string) (s : State) : State :=
  match timeout s !! topic with
  | None => s
  | Some handle => clearTimeout handle s
  end.

Definition onTimeout (topic : string) (s : State) : State :=
  start (JDelete topic (EXPIRED getSubscriptionContext)) (deleteTimeout topic s).

(** [setTimeout(topic, expiry)] at time [now]. *)
Definition setTimeout (now : Z) (topic : string) (expiry : Z) (s : State) : State :=
  match timeout s !! topic with
  | Some _ => s
  | None =>
      let ttl := expiry - now in
      if ttl <=? 0 then onTimeout topic s
      else if ttl >? CLIENT_BEAT_INTERVAL then s
      else
        let handle := next_timer s in
        mkState (subscriptions s) (<[ topic := handle ]> (timeout s)) (cached s)
          (<[ handle := (topic, ttl) ]> (timers s)) (S handle)
          (emitted s) (errors s) (persisted s) (jobs s) (waiting s) (unhandled s)
  end.

Definition subscribeAndSet (now : Z) (topic : string) (sequence : Sequence)
    (opts : SubscriptionOptions) (s : State) : State :=
  let expiry := or_number (expiry opts) (now + SUBSCRIPTION_DEFAULT_TTL * 1000) in
  setTimeout now topic expiry
    (with_subscriptions
       (JsMap.set topic
          {| params_topic := topic;
             params_sequence := sequence;
             params_relay := relay opts;
             params_expiry := expiry |}) s).

Definition set (now : Z) (topic : string) (sequence : Sequence)
    (opts : SubscriptionOptions) : M unit :=
  isEnabled ;;;
  fun s =>
    if JsMap.has topic (subscriptions s) then
      Resolved tt (start (JUpdate topic (as_update sequence)) s)
    else
      Resolved tt
        (emit (Created getSubscriptionEventTag topic sequence)
           (subscribeAndSet now topic sequence opts s)).

(** [subscription => this.setTimeout(subscription.topic, subscription.expiry)] *)
Definition tick (now : Z) (acc : State) (entry : string * SubscriptionParams Sequence)
  : State :=
  setTimeout now (params_topic (snd entry)) (params_expiry (snd entry)) acc.

(** The [beat] listener: [this.subscriptions.forEach(...)]. *)
Definition checkSubscriptions (now : Z) (s : State) : State :=
  fold_left (tick now) (subscriptions s) s.

(** The runtime fires the timer [handle]: its callback is
    [() => this.onTimeout(topic)]. *)
Definition fire (handle : nat) (s : State) : State :=
  match timers s !! handle with
  | None => s
  | Some (topic, _) => onTimeout topic (with_timers (base.delete handle) s)
  end.

(** Run the calls that were started and not awaited, oldest first. *)
Definition settle (s : State) (j : Job) : State :=
  match run_job j s with
  | Resolved _ s' => s'
  | Rejected e s' => with_unhandled e s'
  | Pending s' => with_jobs (jobs s') (waiting s' ++ [j]) s'
  end.

Definition run_jobs (s : State) : State :=
  fold_left settle (jobs s) (with_jobs [] (waiting s) s).

Definition restore_each (now : Z) (s : State)
    (subscription : SubscriptionParams Sequence) : State :=
  subscribeAndSet now (params_topic subscription) (params_sequence subscription)
    {| relay := params_relay subscription;
       expiry := Some (params_expiry subscription) |} s.

Definition restore (read : StorageRead Sequence) (now : Z) : M unit :=
  try_catch
    (match read with
     | ReadFails e => throw e
     | Item None => ret tt
     | Item (Some []) => ret tt
     | Item (Some (first :: rest)) =>
         fun s =>
           match subscriptions s with
           | _ :: _ =>
               let error := RESTORE_WILL_OVERRIDE getSubscriptionContext in
               Rejected error (log_error error s)
           | [] =>
               let s1 := with_cached (first :: rest) s in
               let s2 := fold_left (restore_each now) (cached s1) s1 in
               Resolved tt (enable s2)
           end
     end)
    (fun e => step (log_error e)).

Definition init (read : StorageRead Sequence) (now : Z) : M unit :=
  restore read now.

(** The entry held for a topic. *)
Definition entry (s : State) (topic : string) : option (SubscriptionParams Sequence) :=
  JsMap.get topic (subscriptions s).

(** The store is enabled: no call waits for [enabled]. *)
Definition enabled (s : State) : Prop := cached s = [].

(** The keys of the map are distinct, and every entry is filed under
    its own topic. *)
Definition well_formed (s : State) : Prop :=
  NoDup (topics s) /\
  forall k p, (k, p) ∈ subscriptions s -> params_topic p = k.

(** A timer of the runtime is still to fire for the topic, under the
    handle that [this.timeout] records for it. *)
Definition armed (s : State) (topic : string) : Prop :=
  exists handle delay,
    timeout s !! topic = Some handle /\
    timers s !! handle = Some (topic, delay).

(** The topic a queued call works on. *)
Definition job_topic (j : Job) : option string :=
  match j with
  | JUpdate topic _ => Some topic
  | JDelete topic _ => Some topic
  | JSync => None
  end.

(** Every live timer is the one recorded for its topic, and the handles
    in use are below the next one. *)
Definition timers_consistent (s : State) : Prop :=
  (forall handle topic delay,
      timers s !! handle = Some (topic, delay) -> timeout s !! topic = Some handle) /\
  (forall topic handle, timeout s !! topic = Some handle -> (handle < next_timer s)%nat).

(** How the timers may change from one state to a later one: a recorded
    handle stays, handles only grow, and a timer of the later state was
    there before or was armed since, under a fresh handle that is the one
    recorded for its topic. *)
Definition timer_step (s s' : State) : Prop :=
  (forall topic handle,
      timeout s !! topic = Some handle -> timeout s' !! topic = Some handle) /\
  (next_timer s <= next_timer s')%nat /\
  (forall handle topic delay,
      timers s' !! handle = Some (topic, delay) ->
      timers s !! handle = Some (topic, delay) \/
      ((next_timer s <= handle)%nat /\ timeout s' !! topic = Some handle)) /\
  (forall topic handle,
      timeout s' !! topic = Some handle ->
      timeout s !! topic = Some handle \/
      (next_timer s <= handle < next_timer s')%nat).

(** What happens to a store: a call of one of its public methods, a beat,
    a timer that fires, the queued calls that run. *)
Inductive Call : Type :=
  | CInit (read : StorageRead Sequence) (now : Z)
  | CSet (now : Z) (topic : string) (sequence : Sequence) (opts : SubscriptionOptions)
  | CGet (topic : string)
  | CUpdate (topic : string) (upd : Update)
  | CDelete (topic : string) (reason : Reason)
  | CBeat (now : Z)
  | CFire (handle : nat)
  | CRun.

Definition call (s : State) (c : Call) : State :=
  match c with
  | CInit read now => state_of (init read now s)
  | CSet now topic sequence opts => state_of (set now topic sequence opts s)
  | CGet topic => state_of (get topic s)
  | CUpdate topic upd => state_of (update topic upd s)
  | CDelete topic reason => state_of (delete topic reason s)
  | CBeat now => checkSubscriptions now s
  | CFire handle => fire handle s
  | CRun => run_jobs s
  end.

Definition calls (cs : list Call) (s : State) : State := fold_left call cs s.
End Store.

Arguments Job : clear implicits.
Arguments Call : clear implicits.
Arguments State : clear implicits.
Arguments Outcome : clear implicits.
Arguments M : clear implicits.
Arguments Resolved {Sequence Update A} a s.
Arguments Rejected {Sequence Update A} e s.
Arguments Pending {Sequence Update A} s.
End Subscription.

(** ** Pairing (class [Pairing], controllers/pairing.ts) *)

Module PairingTypes.
Record Participant : Type := { publicKey : string }.

Record JsonRpcPermissions : Type := { methods : list string }.

Record NotificationPermissions : Type := { types : list string }.

Record ProposedPermissions : Type :=
  { proposed_jsonrpc : JsonRpcPermissions;
    proposed_notifications : NotificationPermissions }.

Record SettledPermissions : Type :=
  { jsonrpc : JsonRpcPermissions;
    notifications : NotificationPermissions;
    controller : Participant }.

(** [Upgrade]: permissions of which every part is optional. *)
Record UpgradePermissions : Type :=
  { upgrade_jsonrpc : option JsonRpcPermissions;
    upgrade_notifications : option NotificationPermissions }.

Record Upgrade : Type := { upgrade_permissions : UpgradePermissions }.

Record AppMetadata : Type :=
  { name : string; description : string; url : string; icons : list string }.

Record State : Type := { metadata : option AppMetadata }.

Record Settled : Type :=
  { topic : string;
    relay : RelayerTypes.ProtocolOptions;
    self : Participant;
    peer : Participant;
    permissions : SettledPermissions;
    expiry : Z;
    state : State }.

(** [Partial<Settled>] *)
Record SettledUpdate : Type :=
  { update_topic : option string;
    update_relay : option RelayerTypes.ProtocolOptions;
    update_self : option Participant;
    update_peer : option Participant;
    update_permissions : option SettledPermissions;
    update_expiry : option Z;
    update_state : option State }.

Definition no_update : SettledUpdate :=
  {| update_topic := None; update_relay := None; update_self := None;
     update_peer := None; update_permissions := None; update_expiry := None;
     update_state := None |}.

(** [{ permissions }] *)
Definition permissions_update (p : SettledPermissions) : SettledUpdate :=
  {| update_topic := None; update_relay := None; update_self := None;
     update_peer := None; update_permissions := Some p; update_expiry := None;
     update_state := None |}.

(** [Update]: the state to merge. *)
Record Update : Type := { state_update : State }.

Record Proposer : Type :=
  { proposer_publicKey : string; proposer_controller : bool }.

Inductive Signal : Type :=
  | SignalUri (uri : string)
  | SignalPairing (topic : string).

Record Proposal : Type :=
  { proposal_topic : string;
    proposal_relay : RelayerTypes.ProtocolOptions;
    proposer : Proposer;
    signal : Signal;
    proposal_permissions : ProposedPermissions;
    ttl : Z }.
End PairingTypes.

#[export] Instance spread_settled
  : Spread PairingTypes.Settled PairingTypes.SettledUpdate :=
  {| spread := fun settled update =>
       {| PairingTypes.topic :=
            default (PairingTypes.topic settled) (PairingTypes.update_topic update);
          PairingTypes.relay :=
            default (PairingTypes.relay settled) (PairingTypes.update_relay update);
          PairingTypes.self :=
            default (PairingTypes.self settled) (PairingTypes.update_self update);
          PairingTypes.peer :=
            default (PairingTypes.peer settled) (PairingTypes.update_peer update);
          PairingTypes.permissions :=
            default (PairingTypes.permissions settled)
              (PairingTypes.update_permissions update);
          PairingTypes.expiry :=
            default (PairingTypes.expiry settled) (PairingTypes.update_expiry update);
          PairingTypes.state :=
            default (PairingTypes.state settled) (PairingTypes.update_state update) |};
     as_update := fun settled =>
       {| PairingTypes.update_topic := Some (PairingTypes.topic settled);
          PairingTypes.update_relay := Some (PairingTypes.relay settled);
          PairingTypes.update_self := Some (PairingTypes.self settled);
          PairingTypes.update_peer := Some (PairingTypes.peer settled);
          PairingTypes.update_permissions := Some (PairingTypes.permissions settled);
          PairingTypes.update_expiry := Some (PairingTypes.expiry settled);
          PairingTypes.update_state := Some (PairingTypes.state settled) |} |}.

Module Pairing.
Import PairingTypes.

(** The store [this.settled]. *)
Abbreviation SettledStore := (Subscription.State Settled SettledUpdate).

Section Merge.
Context {SE : StoreEnv}.

(** [this.settled.get(topic)] *)
Definition get (topic : string) : Subscription.M Settled SettledUpdate Settled :=
  Subscription.get topic.

(** [x?.methods || []] and [x?.types || []]: an array is never falsy. *)
Definition methods_or_empty (j : option JsonRpcPermissions) : list string :=
  match j with Some p => methods p | None => [] end.

Definition types_or_empty (n : option NotificationPermissions) : list string :=
  match n with Some p => types p | None => [] end.

(** The object that [mergeUpgrade] builds from the settled sequence. *)
Definition merged (settled : Settled) (upgrade : Upgrade) : SettledPermissions :=
  {| jsonrpc :=
       {| methods :=
            methods (jsonrpc (permissions settled)) ++
            methods_or_empty (upgrade_jsonrpc (upgrade_permissions upgrade)) |};
     notifications :=
       {| types :=
            types (notifications (permissions settled)) ++
            types_or_empty (upgrade_notifications (upgrade_permissions upgrade)) |};
     controller := controller (permissions settled) |}.

Definition mergeUpgrade (topic : string) (upgrade : Upgrade)
  : Subscription.M Settled SettledUpdate SettledPermissions :=
  Subscription.bind (get topic) (fun settled =>
    Subscription.ret (merged settled upgrade)).

Definition mergeUpdate (topic : string) (update : Update)
  : Subscription.M Settled SettledUpdate State :=
  Subscription.bind (get topic) (fun settled =>
    Subscription.ret
      {| metadata :=
           match metadata (state_update update) with
           | Some m => Some m
           | None => metadata (state settled)
           end |}).

(** Modelled from the spec: [Engine.upgrade] (controllers/engine.ts is
    missing) is controller-only, merges the permissions with
    [mergeUpgrade], broadcasts the upgrade and waits for the
    acknowledgement of the peer ([ack]); a successful upgrade stores
    the merged permissions in the settled sequence. *)
Definition upgrade (ack : Result unit) (topic : string) (upg : Upgrade)
  : Subscription.M Settled SettledUpdate Settled :=
  Subscription.bind (get topic) (fun settled =>
    if negb (String.eqb (publicKey (controller (permissions settled)))
                        (publicKey (self settled)))
    then Subscription.throw (Thrown "upgrade by a participant that is not the controller")
    else
      Subscription.bind (mergeUpgrade topic upg) (fun merged_permissions =>
        match ack with
        | Err e => Subscription.throw e
        | Ok _ =>
            Subscription.bind
              (Subscription.update topic (permissions_update merged_permissions))
              (fun _ => get topic)
        end)).

(** A sequence of upgrades on one topic, every one acknowledged. *)
Fixpoint upgrades (topic : string) (upgs : list Upgrade)
  : Subscription.M Settled SettledUpdate unit :=
  match upgs with
  | [] => Subscription.ret tt
  | upg :: rest =>
      Subscription.bind (upgrade (Ok tt) topic upg) (fun _ => upgrades topic rest)
  end.
End Merge.

(** The union of two ordered sets, as the data model of the
    specification has it: the elements of the first, then those of the
    second that the first lacks, each once. *)
Fixpoint ordered_union (a b : list string) : list string :=
  match b with
  | [] => a
  | x :: rest =>
      if existsb (String.eqb x) a then ordered_union a rest
      else ordered_union (a ++ [x]) rest
  end.
End Pairing.

(** ** Sequence engine: the part the client facade calls *)

Module SequenceTypes.
Section Types.
Context {Proposal Response : Type}.

Record RespondParams : Type :=
  { approved : bool;
    proposal : Proposal;
    response : option Response;
    reason : option Reason }.

(** The outcome of a responded proposal: [{ reason }] or the settled
    topic. *)
Inductive Outcome : Type :=
  | Failed (reason : option Reason)
  | Success (topic : string).

Record Pending : Type :=
  { pending_proposal : Proposal; outcome : option Outcome }.
End Types.
Arguments RespondParams : clear implicits.
Arguments Pending : clear implicits.
End SequenceTypes.

Module Engine.
Import SequenceTypes.

Section Respond.
Context {Proposal Response Settled Update : Type}.
Context {SP : Spread Settled Update} {SE : StoreEnv}.
(** Key agreement and settlement: the settled topic, the settled
    sequence and the subscription options that the responder derives
    from a proposal it approves. *)
Context (settle : Proposal -> option Response ->
                  string * Settled * SubscriptionTypes.SubscriptionOptions).

(** Modelled from the spec: [Engine.respond] (controllers/engine.ts is
    missing): if approved, derive the settled topic and store the
    settled sequence, the outcome carries the settled topic; if not,
    the outcome is the rejection with its reason and no settled
    sequence is stored. *)
Definition respond (now : Z) (params : RespondParams Proposal Response)
  : Subscription.M Settled Update (Pending Proposal) :=
  if approved params then
    let '(topic, settled, opts) := settle (proposal params) (response params) in
    Subscription.bind (Subscription.set now topic settled opts) (fun _ =>
      Subscription.ret
        {| pending_proposal := proposal params;
           outcome := Some (Success topic) |})
  else
    Subscription.ret
      {| pending_proposal := proposal params;
         outcome := Some (Failed (reason params)) |}.
End Respond.
End Engine.

(** ** Client facade (class [Client], third part of controllers/subscription.ts) *)

Module SessionTypes.
Record Proposal : Type :=
  { topic : string;
    relay : RelayerTypes.ProtocolOptions;
    proposer : PairingTypes.Proposer;
    signal : PairingTypes.Signal;
    permissions : JsObject;
    ttl : Z }.

Record Response : Type :=
  { state : JsObject; metadata : option PairingTypes.AppMetadata }.

(** The argument of [session.create]. *)
Record CreateParams : Type :=
  { create_signal : PairingTypes.Signal;
    create_relay : RelayerTypes.ProtocolOptions;
    create_metadata : PairingTypes.AppMetadata;
    create_permissions : JsObject }.
End SessionTypes.

Module ClientTypes.
Record PairingRef : Type := { pairing_topic : string }.

Record ConnectParams : Type :=
  { metadata : option PairingTypes.AppMetadata;
    relay : option RelayerTypes.ProtocolOptions;
    pairing : option PairingRef;
    permissions : JsObject }.

Record PairParams : Type := { uri : string }.

(** What [parseUri] yields. *)
Record UriParams : Type :=
  { uri_topic : string;
    uri_publicKey : string;
    uri_controller : bool;
    uri_relay : RelayerTypes.ProtocolOptions }.

(** The response of [ApproveParams]: every part may be missing. *)
Record ResponseInput : Type :=
  { input_state : option JsObject;
    input_metadata : option PairingTypes.AppMetadata }.

Record ApproveParams : Type :=
  { approve_proposal : SessionTypes.Proposal;
    approve_response : option ResponseInput }.

Record RejectParams : Type :=
  { reject_proposal : SessionTypes.Proposal;
    reject_reason : option Reason }.

(** A JSON-RPC request received on a pairing. *)
Record RequestEvent : Type :=
  { request_topic : string;
    request_method : string;
    request_params : SessionTypes.Proposal }.
End ClientTypes.

(** What the client reaches in other files: the utilities, the constants
    and the engines of its two controllers. *)
Class ClientEnv : Type :=
  { (** [parseUri] of package utils *)
    parseUri : string -> ClientTypes.UriParams;
    (** constants/pairing.ts *)
    PAIRING_DEFAULT_TTL : Z;
    (** the logger contexts of the two settled stores *)
    pairing_store_env : StoreEnv;
    session_store_env : StoreEnv;
    (** what the engines derive from a proposal they approve *)
    pairing_settle :
      PairingTypes.Proposal -> option unit ->
      string * PairingTypes.Settled * SubscriptionTypes.SubscriptionOptions;
    session_settle :
      SessionTypes.Proposal -> option SessionTypes.Response ->
      string * JsObject * SubscriptionTypes.SubscriptionOptions;
    (** [pairing.create()] and [session.create(params)], which propose and
        wait for the peer *)
    pairing_create : Result PairingTypes.Settled;
    session_create : SessionTypes.CreateParams -> Result JsObject }.

Module Client.
Import ClientTypes SequenceTypes.

Definition PAIRING_SIGNAL_METHOD_URI : string := "uri".
Definition SESSION_SIGNAL_METHOD_PAIRING : string := "pairing".

(** Modelled from the spec: constants/session.ts is missing; the method
    of a session proposal is [wc_sessionPropose]. *)
Definition SESSION_JSONRPC_propose : string := "wc_sessionPropose".

(** Modelled from the spec: constants/session.ts is missing; the empty
    permissions have no method, no notification type and no chain. *)
Definition SESSION_EMPTY_PERMISSIONS : JsObject :=
  <[ "jsonrpc" := JObj [("methods", JArr [])] ]>
    (<[ "notifications" := JObj [("types", JArr [])] ]>
       (<[ "blockchain" := JObj [("chains", JArr [])] ]> ∅)).

(** [object.field] *)
Definition field (o : JsObject) (name : string) : JsValue :=
  default JUndefined (o !! name).

(** Modelled from the spec: constants/session.ts is missing; the
    response of a rejection carries no state and no metadata. *)
Definition SESSION_EMPTY_RESPONSE : SessionTypes.Response :=
  {| SessionTypes.state := ∅; SessionTypes.metadata := None |}.

(** How a method of the facade completes: it returns, it throws, or it
    still awaits a store that is not enabled. *)
Inductive Completion (A : Type) : Type :=
  | Returns (a : A)
  | Throws (e : Error)
  | Awaits.
Arguments Returns {A} a.
Arguments Throws {A} e.
Arguments Awaits {A}.

Definition of_result {A : Type} (r : Result A) : Completion A :=
  match r with Ok a => Returns a | Err e => Throws e end.

(** A call the client makes on one of its controllers, or an event it
    emits on its own bus. *)
Inductive Action : Type :=
  | PairingRespond (params : RespondParams PairingTypes.Proposal unit)
  | SessionRespond (params : RespondParams SessionTypes.Proposal SessionTypes.Response)
  | SessionCreate (params : SessionTypes.CreateParams)
  | PairingCreate
  | EmitSessionProposal (proposal : SessionTypes.Proposal).

(** The client: its two read-only fields, the settled stores of its
    pairing and session controllers, and what it has done, oldest
    first. *)
Record State : Type :=
  { controller : bool;
    metadata : option PairingTypes.AppMetadata;
    pairing_settled : Subscription.State PairingTypes.Settled PairingTypes.SettledUpdate;
    session_settled : Subscription.State JsObject JsObject;
    actions : list Action }.

Definition act (a : Action) (c : State) : State :=
  {| controller := controller c; metadata := metadata c;
     pairing_settled := pairing_settled c; session_settled := session_settled c;
     actions := actions c ++ [a] |}.

Definition with_pairing_settled
    (p : Subscription.State PairingTypes.Settled PairingTypes.SettledUpdate)
    (c : State) : State :=
  {| controller := controller c; metadata := metadata c;
     pairing_settled := p; session_settled := session_settled c;
     actions := actions c |}.

Definition with_session_settled (p : Subscription.State JsObject JsObject)
    (c : State) : State :=
  {| controller := controller c; metadata := metadata c;
     pairing_settled := pairing_settled c; session_settled := p;
     actions := actions c |}.

Section Facade.
Context {CE : ClientEnv}.

Definition formatPairingProposal (uri : string) : PairingTypes.Proposal :=
  let uriParams := parseUri uri in
  {| PairingTypes.proposal_topic := uri_topic uriParams;
     PairingTypes.proposal_relay := uri_relay uriParams;
     PairingTypes.proposer :=
       {| PairingTypes.proposer_publicKey := uri_publicKey uriParams;
          PairingTypes.proposer_controller := uri_controller uriParams |};
     PairingTypes.signal := PairingTypes.SignalUri uri;
     PairingTypes.proposal_permissions :=
       {| PairingTypes.proposed_jsonrpc :=
            {| PairingTypes.methods := [SESSION_JSONRPC_propose] |};
          PairingTypes.proposed_notifications :=
            {| PairingTypes.types := [] |} |};
     PairingTypes.ttl := PAIRING_DEFAULT_TTL |}.

(** [this.pairing.respond(params)] *)
Definition pairing_respond (now : Z) (params : RespondParams PairingTypes.Proposal unit)
    (c : State) : Subscription.Outcome PairingTypes.Settled PairingTypes.SettledUpdate
                    (Pending PairingTypes.Proposal) :=
  Engine.respond (SE := pairing_store_env) pairing_settle now params
    (pairing_settled c).

(** [this.session.respond(params)] *)
Definition session_respond (now : Z)
    (params : RespondParams SessionTypes.Proposal SessionTypes.Response)
    (c : State) : Subscription.Outcome JsObject JsObject (Pending SessionTypes.Proposal) :=
  Engine.respond (SE := session_store_env) session_settle now params
    (session_settled c).

(** The parameters [pair] gives to [pairing.respond]. *)
Definition pair_response (params : PairParams) (c : State)
  : RespondParams PairingTypes.Proposal unit :=
  let proposal := formatPairingProposal (uri params) in
  let approved :=
    negb (Bool.eqb (PairingTypes.proposer_controller (PairingTypes.proposer proposal))
                   (controller c)) in
  let reason :=
    if approved then None
    else Some (UNAUTHORIZED_MATCHING_CONTROLLER (controller c)) in
  {| approved := approved; proposal := proposal; response := None; reason := reason |}.

Definition pair (now : Z) (params : PairParams) (c : State)
  : Completion string * State :=
  let respond_params := pair_response params c in
  let c1 := act (PairingRespond respond_params) c in
  match pairing_respond now respond_params c with
  | Subscription.Pending p => (Awaits, with_pairing_settled p c1)
  | Subscription.Rejected e p => (Throws e, with_pairing_settled p c1)
  | Subscription.Resolved pending p =>
      let c2 := with_pairing_settled p c1 in
      match outcome pending with
      | None => (Throws (NO_MATCHING_RESPONSE "pairing"), c2)
      | Some (Failed (Some r)) => (Throws r, c2)
      | Some (Failed None) => (Throws (Thrown "TypeError"), c2)
      | Some (Success topic) => (Returns topic, c2)
      end
  end.

(** The listener of [PAIRING_EVENTS.request]. *)
Definition onPairingRequest (now : Z) (requestEvent : RequestEvent) (c : State) : State :=
  if String.eqb (request_method requestEvent) SESSION_JSONRPC_propose then
    let proposal := request_params requestEvent in
    if Bool.eqb (PairingTypes.proposer_controller (SessionTypes.proposer proposal))
                (controller c)
    then
      let reason := UNAUTHORIZED_MATCHING_CONTROLLER (controller c) in
      let respond_params :=
        {| approved := false; proposal := proposal;
           response := Some SESSION_EMPTY_RESPONSE; reason := Some reason |} in
      with_session_settled
        (Subscription.state_of (session_respond now respond_params c))
        (act (SessionRespond respond_params) c)
    else act (EmitSessionProposal proposal) c
  else c.

(** [connect], up to what [session.create] answers. *)
Definition connect (params : ConnectParams) (c : State) : Completion JsObject * State :=
  let found :=
    match pairing params with
    | None => (of_result pairing_create, act PairingCreate c)
    | Some ref =>
        match Pairing.get (SE := pairing_store_env) (pairing_topic ref)
                (pairing_settled c) with
        | Subscription.Resolved settled p => (Returns settled, with_pairing_settled p c)
        | Subscription.Rejected e p => (Throws e, with_pairing_settled p c)
        | Subscription.Pending p => (Awaits, with_pairing_settled p c)
        end
    end in
  match found with
  | (Awaits, c1) => (Awaits, c1)
  | (Throws e, c1) => (Throws e, c1)
  | (Returns pairing, c1) =>
      match (match ClientTypes.metadata params with
             | Some m => Some m
             | None => metadata c1
             end) with
      | None => (Throws (MISSING_OR_INVALID "app metadata"), c1)
      | Some metadata =>
          let create_params :=
            {| SessionTypes.create_signal :=
                 PairingTypes.SignalPairing (PairingTypes.topic pairing);
               SessionTypes.create_relay :=
                 default
                   {| RelayerTypes.protocol := Relayer.RELAYER_DEFAULT_PROTOCOL;
                      RelayerTypes.params := None |}
                   (relay params);
               SessionTypes.create_metadata := metadata;
               SessionTypes.create_permissions :=
                 <[ "notifications" := field SESSION_EMPTY_PERMISSIONS "notifications" ]>
                   (permissions params) |} in
          (of_result (session_create create_params),
           act (SessionCreate create_params) c1)
      end
  end.

(** [SESSION_EMPTY_STATE] of constants/session.ts. *)
Context (SESSION_EMPTY_STATE : JsObject).

(** The parameters [approve] gives to [session.respond]. *)
Definition approve_respond_params (params : ApproveParams) (response : ResponseInput)
    (metadata : PairingTypes.AppMetadata) (c : State)
  : RespondParams SessionTypes.Proposal SessionTypes.Response :=
  let state := default SESSION_EMPTY_STATE (input_state response) in
  let approved :=
    negb (Bool.eqb
            (PairingTypes.proposer_controller
               (SessionTypes.proposer (approve_proposal params)))
            (controller c)) in
  let reason :=
    if approved then None
    else Some (UNAUTHORIZED_MATCHING_CONTROLLER (controller c)) in
  {| approved := approved; proposal := approve_proposal params;
     response :=
       Some {| SessionTypes.state := state; SessionTypes.metadata := Some metadata |};
     reason := reason |}.

Definition approve (now : Z) (params : ApproveParams) (c : State)
  : Completion JsObject * State :=
  match approve_response params with
  | None => (Throws (MISSING_RESPONSE "session"), c)
  | Some response =>
      match (match input_metadata response with
             | Some m => Some m
             | None => metadata c
             end) with
      | None => (Throws (MISSING_OR_INVALID "app metadata"), c)
      | Some metadata =>
          let respond_params := approve_respond_params params response metadata c in
          let c1 := act (SessionRespond respond_params) c in
          match session_respond now respond_params c with
          | Subscription.Pending p => (Awaits, with_session_settled p c1)
          | Subscription.Rejected e p => (Throws e, with_session_settled p c1)
          | Subscription.Resolved pending p =>
              let c2 := with_session_settled p c1 in
              match outcome pending with
              | None => (Throws (NO_MATCHING_RESPONSE "session"), c2)
              | Some (Failed (Some r)) => (Throws r, c2)
              | Some (Failed None) => (Throws (Thrown "TypeError"), c2)
              | Some (Success topic) =>
                  match Subscription.get (SE := session_store_env) topic
                          (session_settled c2) with
                  | Subscription.Resolved settled p' =>
                      (Returns settled, with_session_settled p' c2)
                  | Subscription.Rejected e p' => (Throws e, with_session_settled p' c2)
                  | Subscription.Pending p' => (Awaits, with_session_settled p' c2)
                  end
              end
          end
      end
  end.

Definition reject (now : Z) (params : RejectParams) (c : State)
  : Completion unit * State :=
  let respond_params :=
    {| approved := false; proposal := reject_proposal params;
       response := Some SESSION_EMPTY_RESPONSE; reason := reject_reason params |} in
  let c1 := act (SessionRespond respond_params) c in
  match session_respond now respond_params c with
  | Subscription.Pending p => (Awaits, with_session_settled p c1)
  | Subscription.Rejected e p => (Throws e, with_session_settled p c1)
  | Subscription.Resolved _ p => (Returns tt, with_session_settled p c1)
  end.
End Facade.
End Client.

(** ** The defaults of a pairing (class [Pairing], controllers/pairing.ts) *)

Module PairingDefaults.
Import PairingTypes.


End PairingDefaults.

(** ** The wallet of the example application (wallet/index.ts and wallet/types.ts) *)

Module WalletTypes.
Record ChainData : Type :=
  { name : string; id : string; rpc : list string; slip44 : Z; testnet : bool }.

Abbreviation ChainsMap := (gmap string ChainData).

(** [methods]: the method names of a scope ([chain], [accounts],
    [request], [sign], ...). *)
Record ChainJsonRpc : Type := { methods : gmap string (list string) }.

Record NamespaceConfig : Type :=
  { chains : ChainsMap; jsonrpc : ChainJsonRpc }.

Abbreviation NamespaceMap := (gmap string NamespaceConfig).

Record WalletOptions : Type :=
  { option_chains : list string; option_mnemonic : option string }.

(** The [context] of a request: [undefined], or an object whose [chainId]
    may be missing. *)
Record Context : Type := { chainId : option string }.

Record RequestArguments : Type :=
  { method : string; params : option JsValue }.
End WalletTypes.

(** What the wallet takes from the keyring, the chain registry and the
    getters of the example application. *)
Class WalletEnv (Provider KeyPair : Type) : Type :=
  { (** [Keyring.init(...)]: the mnemonic of the keyring *)
    keyring_mnemonic : option string -> string;
    (** [keyring.getKeyPair(getSlip44Path(slip44))] *)
    getKeyPair : Z -> KeyPair;
    (** [getBlockchainProvider(namespace, rpcUrl, keyPair)] *)
    getBlockchainProvider : string -> option string -> KeyPair -> Result Provider;
    (** [getNamespaces(chains)] *)
    getNamespaces : list string -> list string;
    apiGetChainNamespace : string -> Result WalletTypes.ChainsMap;
    apiGetChainJsonRpc : string -> Result WalletTypes.ChainJsonRpc;
    (** [provider.request(request, context)] *)
    wallet_provider_request :
      Provider -> WalletTypes.RequestArguments -> option WalletTypes.Context ->
      Result JsValue }.

Module Wallet.
Import WalletTypes.

(** [s.split(sep)] for a separator of one character. *)
Fixpoint split (sep : ascii) (s : string) : list string :=
  match s with
  | EmptyString => [EmptyString]
  | String c rest =>
      if Ascii.eqb c sep then EmptyString :: split sep rest
      else
        match split sep rest with
        | [] => [String c EmptyString]
        | part :: parts => String c part :: parts
        end
  end.

(** [const [namespace, reference] = chainId.split(":")] *)
Definition namespace_of (chainId : string) : string :=
  default EmptyString (head (split ":" chainId)).

Definition reference_of (chainId : string) : option string :=
  split ":" chainId !! 1%nat.

(** [Object.keys(config)] for a config built as [{ chains, jsonrpc }]. *)
Definition config_keys (config : NamespaceConfig) : list string :=
  ["chains"; "jsonrpc"].

(** [keys.includes(x)], where [x] may be [undefined]. *)
Definition includes (keys : list string) (x : option string) : bool :=
  match x with
  | Some k => existsb (String.eqb k) keys
  | None => false
  end.

Record WalletConfig {Provider : Type} : Type :=
  { mnemonic : string;
    providers : gmap string Provider;
    namespaces : NamespaceMap }.
Arguments WalletConfig : clear implicits.

Section Wallet.
Context {Provider KeyPair : Type} {WE : WalletEnv Provider KeyPair}.

(** The callback of [getNamespaces(chains).map] in [getNamespaceMap]. *)
Definition add_namespace (acc : Result NamespaceMap) (namespace : string)
  : Result NamespaceMap :=
  match apiGetChainNamespace namespace, apiGetChainJsonRpc namespace with
  | Ok chains, Ok jsonrpc =>
      match acc with
      | Ok namespaces =>
          Ok (<[ namespace := {| chains := chains; jsonrpc := jsonrpc |} ]> namespaces)
      | Err e => Err e
      end
  | Err e, _ => match acc with Err e0 => Err e0 | Ok _ => Err e end
  | Ok _, Err e => match acc with Err e0 => Err e0 | Ok _ => Err e end
  end.

Definition getNamespaceMap (chains : list string) : Result NamespaceMap :=
  fold_left add_namespace (getNamespaces chains) (Ok ∅).

(** The callback of [chains.map] in [getWalletConfig]; reading [rpc] of a
    chain that the namespace does not list is a TypeError. *)
Definition add_provider (namespaces : NamespaceMap)
    (acc : Result (gmap string Provider)) (chainId : string)
  : Result (gmap string Provider) :=
  match namespaces !! namespace_of chainId with
  | None => acc
  | Some config =>
      if includes (config_keys config) (reference_of chainId) then
        match reference_of chainId ≫= fun reference => chains config !! reference with
        | None => match acc with Err e => Err e | Ok _ => Err (Thrown "TypeError") end
        | Some chainData =>
            let rpcUrl := head (rpc chainData) in
            let keyPair := getKeyPair (slip44 chainData) in
            match getBlockchainProvider (namespace_of chainId) rpcUrl keyPair, acc with
            | Ok provider, Ok providers => Ok (<[ chainId := provider ]> providers)
            | Err e, Ok _ => Err e
            | _, Err e => Err e
            end
        end
      else acc
  end.

Definition getWalletConfig (opts : WalletOptions) : Result (WalletConfig Provider) :=
  match getNamespaceMap (option_chains opts) with
  | Err e => Err e
  | Ok namespaces =>
      match fold_left (add_provider namespaces) (option_chains opts) (Ok ∅) with
      | Err e => Err e
      | Ok providers =>
          Ok {| mnemonic := keyring_mnemonic (option_mnemonic opts);
                providers := providers;
                namespaces := namespaces |}
      end
  end.

(** [Wallet.init] and the constructor: the wallet holds its config. *)
Definition init (opts : WalletOptions) : Result (WalletConfig Provider) :=
  getWalletConfig opts.

(** [getProvider]: the provider may be [undefined]. *)
Definition getProvider (w : WalletConfig Provider) (context : option Context)
  : Result (option Provider) :=
  match context with
  | None => Err (Thrown "Missing request context")
  | Some ctx =>
      match chainId ctx with
      | None => Err (Thrown "Missing request chainId")
      | Some chain => Ok (providers w !! chain)
      end
  end.

(** [getMethods]: [None] is the [undefined] read for a scope that the
    namespace does not have. *)
Definition getMethods (w : WalletConfig Provider) (scope chainId : string)
  : option (list string) :=
  match namespaces w !! namespace_of chainId with
  | Some config => methods (jsonrpc config) !! scope
  | None => Some []
  end.

(** [provider.request(...)] on a provider that may be [undefined]. *)
Definition provider_call (provider : option Provider) (req : RequestArguments)
    (context : option Context) : Result JsValue :=
  match provider with
  | None => Err (Thrown "TypeError")
  | Some p => wallet_provider_request p req context
  end.

Definition request (w : WalletConfig Provider) (req : RequestArguments)
    (context : option Context) : Result JsValue :=
  match getProvider w context with
  | Err e => Err e
  | Ok provider => provider_call provider req context
  end.

Definition getAccounts (w : WalletConfig Provider) (chain : string) : Result JsValue :=
  match getProvider w (Some {| chainId := Some chain |}) with
  | Err e => Err e
  | Ok provider =>
      match getMethods w "accounts" chain with
      | None => Err (Thrown "TypeError")
      | Some [] => Err (Thrown ("Cannot get accounts for chainId: " ++ chain))
      | Some (method :: _) =>
          provider_call provider {| method := method; params := None |} None
      end
  end.
End Wallet.
End Wallet.

(** ** Concrete environments and states, for running the model *)

Module Samples.
(** A relayer whose payloads are already serialized, with no key in the
    keychain, a provider that answers [true], and the protocol [waku]. *)
Definition relayer_env : RelayerEnv string :=
  {| safeJsonStringify := fun payload => payload;
     hasKeys := fun _ => false;
     encrypt := fun _ msg => Ok msg;
     provider_request := fun _ => Ok (JBool true);
     relay_protocol_supported := fun protocol => String.eqb protocol "waku";
     SIX_HOURS := 21600 |}.

Definition waku : RelayerTypes.ProtocolOptions :=
  {| RelayerTypes.protocol := "waku"; RelayerTypes.params := None |}.

(** A relayer that holds the ids [a] and [b] for the topic [t]. *)
Definition relayer_two_ids : Relayer.State :=
  {| Relayer.subscriptions := {[ "t" := ["a"; "b"] ]};
     Relayer.listeners := {[ "a"; "b" ]};
     Relayer.sent := [] |}.

(** A relayer that holds the single id [a] for the topic [t]. *)
Definition relayer_one_id : Relayer.State :=
  {| Relayer.subscriptions := {[ "t" := ["a"] ]};
     Relayer.listeners := {[ "a" ]};
     Relayer.sent := [] |}.

Definition unsubscribe_a : RelayerTypes.UnsubscribeOptions :=
  {| RelayerTypes.unsubscribe_relay := waku; RelayerTypes.id := Some "a" |}.

Definition unsubscribe_topic : RelayerTypes.UnsubscribeOptions :=
  {| RelayerTypes.unsubscribe_relay := waku; RelayerTypes.id := None |}.

(** The settled store of the pairing controller, with a default
    lifetime of thirty days. *)
Definition store_env : StoreEnv :=
  {| nested_context := ["pairing"; "settled"];
     SUBSCRIPTION_DEFAULT_TTL := 2592000 |}.

Definition sequence_a : JsObject := {[ "a" := JNum 1 ]}.

Definition empty_store : Subscription.State JsObject JsObject :=
  Subscription.init_state.

(** Options with an expiry [ms] milliseconds after time 0. *)
Definition expires_at (ms : Z) : SubscriptionTypes.SubscriptionOptions :=
  {| SubscriptionTypes.relay := waku; SubscriptionTypes.expiry := Some ms |}.

Definition no_expiry : SubscriptionTypes.SubscriptionOptions :=
  {| SubscriptionTypes.relay := waku; SubscriptionTypes.expiry := None |}.

(** The store after [set("t", sequence_a, {relay, expiry: ms})] at time 0,
    once [sync] has been emitted. *)
Definition store_with_t (ms : Z) : Subscription.State JsObject JsObject :=
  Subscription.run_jobs (SE := store_env)
    (Subscription.state_of
       (Subscription.set (SE := store_env) 0 "t" sequence_a (expires_at ms) empty_store)).

(** A settled pairing on the topic [t], of which this side is the
    controller, with the default permissions of a pairing. *)
Definition settled_t : PairingTypes.Settled :=
  {| PairingTypes.topic := "t";
     PairingTypes.relay := waku;
     PairingTypes.self := {| PairingTypes.publicKey := "kB" |};
     PairingTypes.peer := {| PairingTypes.publicKey := "kA" |};
     PairingTypes.permissions :=
       {| PairingTypes.jsonrpc := {| PairingTypes.methods := ["wc_sessionPropose"] |};
          PairingTypes.notifications := {| PairingTypes.types := [] |};
          PairingTypes.controller := {| PairingTypes.publicKey := "kB" |} |};
     PairingTypes.expiry := 2592000000;
     PairingTypes.state := {| PairingTypes.metadata := None |} |}.

Definition pairing_store : Pairing.SettledStore :=
  Subscription.run_jobs (SE := store_env)
    (Subscription.state_of
       (Subscription.set (SE := store_env) 0 "t" settled_t no_expiry
          Subscription.init_state)).

(** A client that is not a controller, with the settled pairing [t];
    every URI it parses comes from a proposer that is not a controller
    either. *)
Definition client_env : ClientEnv :=
  {| parseUri := fun uri =>
       {| ClientTypes.uri_topic := "T0";
          ClientTypes.uri_publicKey := "kA";
          ClientTypes.uri_controller := false;
          ClientTypes.uri_relay := waku |};
     PAIRING_DEFAULT_TTL := 2592000;
     pairing_store_env := store_env;
     session_store_env :=
       {| nested_context := ["session"; "settled"];
          SUBSCRIPTION_DEFAULT_TTL := 604800 |};
     pairing_settle := fun _ _ => ("T1", settled_t, no_expiry);
     session_settle := fun _ _ => ("S1", sequence_a, no_expiry);
     pairing_create := Ok settled_t;
     session_create := fun _ => Ok sequence_a |}.

Definition app : PairingTypes.AppMetadata :=
  {| PairingTypes.name := "app"; PairingTypes.description := "";
     PairingTypes.url := "https://app.example"; PairingTypes.icons := [] |}.

Definition client (is_controller : bool) : Client.State :=
  {| Client.controller := is_controller;
     Client.metadata := Some app;
     Client.pairing_settled := pairing_store;
     Client.session_settled := Subscription.init_state;
     Client.actions := [] |}.

(** Parameters of [connect] over the pairing [t]; the caller asks for a
    notification type. *)
Definition connect_params : ClientTypes.ConnectParams :=
  {| ClientTypes.metadata := None;
     ClientTypes.relay := None;
     ClientTypes.pairing := Some {| ClientTypes.pairing_topic := "t" |};
     ClientTypes.permissions :=
       <[ "jsonrpc" := JObj [("methods", JArr [JStr "eth_sendTransaction"])] ]>
         (<[ "notifications" := JObj [("types", JArr [JStr "accountsChanged"])] ]> ∅) |}.

(** An upgrade that proposes the given methods and no notification type. *)
Definition upgrade_methods (ms : list string) : PairingTypes.Upgrade :=
  {| PairingTypes.upgrade_permissions :=
       {| PairingTypes.upgrade_jsonrpc := Some {| PairingTypes.methods := ms |};
          PairingTypes.upgrade_notifications := None |} |}.
(** A relayer whose relay answers [subscribe] with the id [id1]. *)
Definition relayer_env_ids : RelayerEnv string :=
  {| safeJsonStringify := fun payload => payload;
     hasKeys := fun _ => false;
     encrypt := fun _ msg => Ok msg;
     provider_request := fun req =>
       match RelayJsonRpc.params req with
       | RelayJsonRpc.SubscribeParams _ => Ok (JStr "id1")
       | _ => Ok (JBool true)
       end;
     relay_protocol_supported := fun protocol => String.eqb protocol "waku";
     SIX_HOURS := 21600 |}.

(** A relayer with a key for every topic, whose encryption throws, whose
    relay table is empty and whose provider rejects every request. *)
Definition relayer_env_failing : RelayerEnv string :=
  {| safeJsonStringify := fun payload => payload;
     hasKeys := fun _ => true;
     encrypt := fun _ _ => Err (Thrown "encryption failed");
     provider_request := fun _ => Err (Thrown "socket closed");
     relay_protocol_supported := fun _ => false;
     SIX_HOURS := 21600 |}.

(** A relayer that holds [a], [b] for the topic [t] and [c] for [u]. *)
Definition relayer_two_topics : Relayer.State :=
  {| Relayer.subscriptions := {[ "t" := ["a"; "b"]; "u" := ["c"] ]};
     Relayer.listeners := {[ "a"; "b"; "c" ]};
     Relayer.sent := [] |}.
(** The chain registry knows the namespace [eip155] with the chain [1];
    a provider is named after its namespace and answers with its name. *)
Definition mainnet : WalletTypes.ChainData :=
  {| WalletTypes.name := "Ethereum Mainnet"; WalletTypes.id := "eip155:1";
     WalletTypes.rpc := ["https://rpc.example"]; WalletTypes.slip44 := 60;
     WalletTypes.testnet := false |}.

Definition wallet_env : WalletEnv string Z :=
  {| keyring_mnemonic := fun m => default "test test test" m;
     getKeyPair := fun slip44 => slip44;
     getBlockchainProvider := fun namespace _ _ => Ok (namespace ++ "-provider");
     getNamespaces := fun chains => remove_dups (Wallet.namespace_of <$> chains);
     apiGetChainNamespace := fun namespace =>
       if String.eqb namespace "eip155" then Ok {[ "1" := mainnet ]}
       else Err (Thrown "unknown namespace");
     apiGetChainJsonRpc := fun _ =>
       Ok {| WalletTypes.methods := {[ "accounts" := ["eth_accounts"] ]} |};
     wallet_provider_request := fun provider _ _ => Ok (JStr provider) |}.

Definition wallet_options : WalletTypes.WalletOptions :=
  {| WalletTypes.option_chains := ["eip155:1"];
     WalletTypes.option_mnemonic := None |}.

(** A client without metadata and with an empty, enabled pairing store. *)
Definition bare_client : Client.State :=
  {| Client.controller := false;
     Client.metadata := None;
     Client.pairing_settled := Subscription.init_state;
     Client.session_settled := Subscription.init_state;
     Client.actions := [] |}.

(** A session proposal from a proposer that is a controller. *)
Definition session_proposal : SessionTypes.Proposal :=
  {| SessionTypes.topic := "P0";
     SessionTypes.relay := waku;
     SessionTypes.proposer :=
       {| PairingTypes.proposer_publicKey := "kA";
          PairingTypes.proposer_controller := true |};
     SessionTypes.signal := PairingTypes.SignalPairing "t";
     SessionTypes.permissions := ∅;
     SessionTypes.ttl := 604800 |}.
End Samples.

(** * Properties *)

(** ** Relayer *)

Section RelayerFacts.
Context {Payload : Type} {RE : RelayerEnv Payload}.
Import RelayerTypes.

Lemma filter_same_id_only (id : string) (ids : list string) (x : string) :
  In x (List.filter (Relayer.same_id id) ids) -> x = id.
Proof.
  intros Hin. apply filter_In in Hin as [_ Heq].
  unfold Relayer.same_id in Heq. by apply String.eqb_eq in Heq.
Qed.

Lemma filter_same_id_keeps (id : string) (ids : list string) :
  In id ids -> In id (List.filter (Relayer.same_id id) ids).
Proof.
  intros Hin. apply filter_In. split; [done|].
  unfold Relayer.same_id. apply String.eqb_refl.
Qed.

(** What [unsubscribeId] leaves in the map once the relay has answered. *)
Lemma unsubscribeId_subscriptions topic id opts s jsonRpc v :
  Relayer.getRelayProtocolJsonRpc
    (or_string (protocol <$> (unsubscribe_relay <$> opts))
       Relayer.RELAYER_DEFAULT_PROTOCOL) = Ok jsonRpc ->
  provider_request
    {| RelayJsonRpc.method := RelayJsonRpc.unsubscribe jsonRpc;
       RelayJsonRpc.params := RelayJsonRpc.UnsubscribeParams id |} = Ok v ->
  fst (Relayer.unsubscribeId topic id opts s) = Ok tt /\
  Relayer.ids_of (snd (Relayer.unsubscribeId topic id opts s)) topic =
    List.filter (Relayer.same_id id) (Relayer.ids_of s topic).
Proof.
  intros Hproto Hreq. unfold Relayer.unsubscribeId, Relayer.request, Relayer.ids_of.
  rewrite Hproto. cbn. rewrite Hreq.
  destruct (Relayer.subscriptions s !! topic) as [ids|] eqn:Hids; cbn.
  - by rewrite lookup_insert_eq.
  - by rewrite Hids.
Qed.

(** [publish] hands nothing to the provider when the protocol has no
    entry in [RELAY_JSONRPC] or when the encryption throws. *)
Lemma publish_nothing_sent topic (payload : Payload) opts s :
  relay_protocol_supported
    (or_string (protocol <$> (publish_relay <$> opts))
       Relayer.RELAYER_DEFAULT_PROTOCOL) = false ->
  exists e, Relayer.publish topic payload opts s = (Err e, s).
Proof.
  intros Hno. unfold Relayer.publish, Relayer.getRelayProtocolJsonRpc,
    Relayer.RELAY_JSONRPC. rewrite Hno.
  destruct (if hasKeys topic then _ else _); eauto.
Qed.

(** C6. [publish(topic, payload, opts)] on a protocol of the relay table
    hands exactly one request to the provider: its method is
    [<protocol>_publish], the protocol being that of [opts] or [waku];
    its params are the topic, the message and the ttl of [opts] or the
    default; the message is the encryption of the serialized payload
    under the key of the topic when the keychain has one, and the hex
    encoding of the serialized payload otherwise. *)
Theorem relayer_publish_request topic (payload : Payload) (opts : option PublishOptions) s message :
  let protocol :=
    or_string (protocol <$> (publish_relay <$> opts)) "waku" in
  relay_protocol_supported protocol = true ->
  (if hasKeys topic then encrypt topic (safeJsonStringify payload)
   else Ok (Relayer.utf8ToHex (safeJsonStringify payload))) = Ok message ->
  Relayer.sent (snd (Relayer.publish topic payload opts s)) =
    (Relayer.sent s ++
     [ {| RelayJsonRpc.method := protocol ++ "_publish";
          RelayJsonRpc.params :=
            RelayJsonRpc.PublishParams topic message
              (or_number (opts ≫= ttl) Relayer.RELAYER_DEFAULT_PUBLISH_TTL) |} ])%list /\
  (hasKeys topic = true -> encrypt topic (safeJsonStringify payload) = Ok message) /\
  (hasKeys topic = false -> message = Relayer.utf8ToHex (safeJsonStringify payload)).
Proof.
  intros protocol Hsup Hmsg. split; [|split].
  - unfold Relayer.publish, Relayer.getRelayProtocolJsonRpc, Relayer.RELAY_JSONRPC.
    rewrite Hmsg. fold protocol.
    change Relayer.RELAYER_DEFAULT_PROTOCOL with "waku". fold protocol.
    rewrite Hsup. cbn. by destruct (provider_request _).
  - intros Hkeys. by rewrite Hkeys in Hmsg.
  - intros Hkeys. rewrite Hkeys in Hmsg. by injection Hmsg.
Qed.
End RelayerFacts.

Example utf8ToHex_braces : Relayer.utf8ToHex "{}" = "7b7d".
Proof. reflexivity. Qed.

(** Publishing the serialized payload [{}] on the topic [t] without options,
    no key being held for [t]. *)
Lemma relayer_publish_request_witness :
  Relayer.sent
    (snd (Relayer.publish (RE := Samples.relayer_env) "t" "{}" None Relayer.init_state)) =
    [ {| RelayJsonRpc.method := "waku_publish";
         RelayJsonRpc.params := RelayJsonRpc.PublishParams "t" "7b7d" 21600 |} ].
Proof.
  pose proof (relayer_publish_request (RE := Samples.relayer_env)
                "t" "{}" None Relayer.init_state "7b7d") as H.
  cbn zeta in H. destruct H as [H _]; [reflexivity | reflexivity |].
  exact H.
Defined.

(** C1. On a relayer that holds the ids [a] and [b] for the topic [t],
    [unsubscribe(t, {relay, id: a})] leaves [a] in the map and drops [b];
    on a relayer that holds the single id [a], [unsubscribe(t, {relay})]
    leaves [a] in the map. *)
Theorem relayer_unsubscribe_retains_id :
  Relayer.ids_of
    (snd (Relayer.unsubscribe (RE := Samples.relayer_env) "t"
            (Some Samples.unsubscribe_a) Samples.relayer_two_ids)) "t" = ["a"] /\
  Relayer.ids_of
    (snd (Relayer.unsubscribe (RE := Samples.relayer_env) "t"
            (Some Samples.unsubscribe_topic) Samples.relayer_one_id)) "t" = ["a"].
Proof. split; vm_compute; reflexivity. Qed.


(** ** JavaScript maps *)

Section JsMapFacts.
Context {V : Type}.
Implicit Types (m : list (string * V)) (k : string) (v : V).

Lemma get_set_eq k v m : JsMap.get k (JsMap.set k v m) = Some v.
Proof.
  induction m as [|[k' v'] m IH]; cbn.
  - by rewrite String.eqb_refl.
  - destruct (String.eqb k' k) eqn:E; cbn; by rewrite E.
Qed.

Lemma get_set_ne k k' v m :
  k <> k' -> JsMap.get k' (JsMap.set k v m) = JsMap.get k' m.
Proof.
  intros Hne. induction m as [|[k0 v0] m IH]; cbn.
  - apply String.eqb_neq in Hne. by rewrite Hne.
  - destruct (String.eqb k0 k) eqn:E; cbn; [|by rewrite IH].
    apply String.eqb_eq in E as ->.
    apply String.eqb_neq in Hne. by rewrite Hne.
Qed.

Lemma get_delete_ne k k' m :
  k <> k' -> JsMap.get k' (JsMap.delete k m) = JsMap.get k' m.
Proof.
  intros Hne. induction m as [|[k0 v0] m IH]; cbn; [done|].
  destruct (String.eqb k0 k) eqn:E; cbn; [|by rewrite IH].
  apply String.eqb_eq in E as ->.
  apply String.eqb_neq in Hne. by rewrite Hne.
Qed.

Lemma get_None_keys k m : JsMap.get k m = None <-> k ∉ JsMap.keys m.
Proof.
  unfold JsMap.keys. induction m as [|[k0 v0] m IH]; cbn.
  - split; [intros _; apply not_elem_of_nil | done].
  - rewrite not_elem_of_cons. destruct (String.eqb k0 k) eqn:E.
    + apply String.eqb_eq in E as ->. split; [done | tauto].
    + apply String.eqb_neq in E. rewrite IH. split; [|tauto].
      intros H. split; [congruence | done].
Qed.

Lemma get_Some_elem k v m : JsMap.get k m = Some v -> (k, v) ∈ m.
Proof.
  induction m as [|[k0 v0] m IH]; cbn; [done|].
  rewrite elem_of_cons. destruct (String.eqb k0 k) eqn:E.
  - apply String.eqb_eq in E as ->. intros [= ->]. by left.
  - intros H. right. by apply IH.
Qed.

Lemma elem_get k v m : NoDup (JsMap.keys m) -> (k, v) ∈ m -> JsMap.get k m = Some v.
Proof.
  unfold JsMap.keys. induction m as [|[k0 v0] m IH]; cbn.
  - intros _ H. by apply elem_of_nil in H.
  - rewrite NoDup_cons, elem_of_cons. intros [Hnotin Hnd] [Heq | Hin].
    + injection Heq as -> ->. by rewrite String.eqb_refl.
    + destruct (String.eqb k0 k) eqn:E; [|by apply IH].
      apply String.eqb_eq in E as ->. exfalso. apply Hnotin.
      by apply (list_elem_of_fmap_2 fst) in Hin.
Qed.

Lemma get_delete_eq k m : NoDup (JsMap.keys m) -> JsMap.get k (JsMap.delete k m) = None.
Proof.
  unfold JsMap.keys. induction m as [|[k0 v0] m IH]; cbn; [done|].
  rewrite NoDup_cons. intros [Hnotin Hnd].
  destruct (String.eqb k0 k) eqn:E; cbn.
  - apply String.eqb_eq in E as ->. by apply get_None_keys.
  - rewrite E. by apply IH.
Qed.

Lemma has_true_get k m : JsMap.has k m = true <-> exists v, JsMap.get k m = Some v.
Proof.
  unfold JsMap.has. destruct (JsMap.get k m); split; eauto; try done.
  by intros [? ?].
Qed.

Lemma has_false_get k m : JsMap.has k m = false <-> JsMap.get k m = None.
Proof. unfold JsMap.has. by destruct (JsMap.get k m). Qed.

Lemma keys_set_present k v m :
  JsMap.has k m = true -> JsMap.keys (JsMap.set k v m) = JsMap.keys m.
Proof.
  unfold JsMap.has, JsMap.keys. induction m as [|[k0 v0] m IH]; cbn; [done|].
  destruct (String.eqb k0 k) eqn:E; cbn; [done|].
  intros H. by rewrite IH.
Qed.

Lemma keys_set_absent k v m :
  JsMap.has k m = false -> JsMap.keys (JsMap.set k v m) = (JsMap.keys m ++ [k])%list.
Proof.
  unfold JsMap.has, JsMap.keys. induction m as [|[k0 v0] m IH]; cbn; [done|].
  destruct (String.eqb k0 k) eqn:E; cbn; [done|].
  intros H. by rewrite IH.
Qed.

(** A key is never entered twice. *)
Lemma NoDup_keys_set k v m : NoDup (JsMap.keys m) -> NoDup (JsMap.keys (JsMap.set k v m)).
Proof.
  intros Hnd. destruct (JsMap.has k m) eqn:E.
  - by rewrite keys_set_present.
  - rewrite keys_set_absent by done.
    apply NoDup_app. split; [done|]. split; [|apply NoDup_singleton].
    intros x Hx Hin. apply list_elem_of_singleton in Hin as ->.
    by apply has_false_get, get_None_keys in E.
Qed.

Lemma elem_of_delete x k m : x ∈ JsMap.delete k m -> x ∈ m.
Proof.
  induction m as [|[k0 v0] m IH]; cbn; [done|].
  rewrite elem_of_cons.
  destruct (String.eqb k0 k); [tauto|]. rewrite elem_of_cons.
  intros [H|H]; [tauto|]. right. by apply IH.
Qed.

Lemma NoDup_keys_delete k m : NoDup (JsMap.keys m) -> NoDup (JsMap.keys (JsMap.delete k m)).
Proof.
  unfold JsMap.keys. induction m as [|[k0 v0] m IH]; cbn; [done|].
  rewrite NoDup_cons. intros [Hnotin Hnd].
  destruct (String.eqb k0 k); cbn; [done|].
  rewrite NoDup_cons. split; [|by apply IH].
  intros Hin. apply Hnotin.
  apply list_elem_of_fmap_1 in Hin as [y [-> Hy]].
  apply list_elem_of_fmap_2. by eapply elem_of_delete.
Qed.

Lemma elem_of_set x k v m : x ∈ JsMap.set k v m -> x = (k, v) \/ x ∈ m.
Proof.
  induction m as [|[k0 v0] m IH]; cbn.
  - rewrite list_elem_of_singleton. tauto.
  - destruct (String.eqb k0 k) eqn:E; cbn; rewrite !elem_of_cons.
    + apply String.eqb_eq in E as ->. tauto.
    + intros [H|H]; [tauto|]. apply IH in H. tauto.
Qed.
End JsMapFacts.

(** ** Subscription store *)

Section SubscriptionFacts.
Context {Sequence Update : Type} {SP : Spread Sequence Update} {SE : StoreEnv}.
Import SubscriptionTypes.
Implicit Types (s : Subscription.State Sequence Update) (topic : string).

Lemma isEnabled_enabled s :
  Subscription.enabled s -> Subscription.isEnabled s = Subscription.Resolved tt s.
Proof. unfold Subscription.enabled, Subscription.isEnabled. by intros ->. Qed.

Lemma getSubscription_present s topic p :
  Subscription.enabled s -> Subscription.entry s topic = Some p ->
  Subscription.getSubscription topic s = Subscription.Resolved p s.
Proof.
  intros Hen Hp. unfold Subscription.getSubscription, Subscription.bind.
  rewrite isEnabled_enabled by done. unfold Subscription.entry in Hp. by rewrite Hp.
Qed.

Lemma getSubscription_absent s topic :
  Subscription.enabled s -> Subscription.entry s topic = None ->
  Subscription.getSubscription topic s =
    Subscription.Rejected
      (NO_MATCHING_TOPIC Subscription.getSubscriptionContext topic)
      (Subscription.log_error
         (NO_MATCHING_TOPIC Subscription.getSubscriptionContext topic) s).
Proof.
  intros Hen Hp. unfold Subscription.getSubscription, Subscription.bind.
  rewrite isEnabled_enabled by done. unfold Subscription.entry in Hp. by rewrite Hp.
Qed.

(** What [update] does on a topic that is present. *)
Lemma update_present s topic upd p :
  Subscription.enabled s -> Subscription.entry s topic = Some p ->
  Subscription.update topic upd s =
    Subscription.Resolved tt
      (Subscription.emit
         (Updated Subscription.getSubscriptionEventTag topic
            (spread (params_sequence p) upd) upd)
         (Subscription.with_subscriptions
            (JsMap.set topic
               {| params_topic := topic;
                  params_sequence := spread (params_sequence p) upd;
                  params_relay := params_relay p;
                  params_expiry := params_expiry p |}) s)).
Proof.
  intros Hen Hp. unfold Subscription.update, Subscription.bind.
  rewrite isEnabled_enabled by done.
  by rewrite (getSubscription_present _ _ p).
Qed.

Lemma update_absent s topic upd :
  Subscription.enabled s -> Subscription.entry s topic = None ->
  Subscription.update topic upd s =
    Subscription.Rejected
      (NO_MATCHING_TOPIC Subscription.getSubscriptionContext topic)
      (Subscription.log_error
         (NO_MATCHING_TOPIC Subscription.getSubscriptionContext topic) s).
Proof.
  intros Hen Hp. unfold Subscription.update, Subscription.bind.
  rewrite isEnabled_enabled by done.
  by rewrite getSubscription_absent.
Qed.

(** What [delete] does on a topic that is present. *)
Lemma delete_present s topic reason p :
  Subscription.enabled s -> Subscription.entry s topic = Some p ->
  Subscription.delete topic reason s =
    Subscription.Resolved tt
      (Subscription.emit
         (Deleted Subscription.getSubscriptionEventTag topic (params_sequence p) reason)
         (Subscription.with_subscriptions (JsMap.delete topic) s)).
Proof.
  intros Hen Hp. unfold Subscription.delete, Subscription.bind.
  rewrite isEnabled_enabled by done.
  by rewrite (getSubscription_present _ _ p).
Qed.

Lemma delete_absent s topic reason :
  Subscription.enabled s -> Subscription.entry s topic = None ->
  Subscription.delete topic reason s =
    Subscription.Rejected
      (NO_MATCHING_TOPIC Subscription.getSubscriptionContext topic)
      (Subscription.log_error
         (NO_MATCHING_TOPIC Subscription.getSubscriptionContext topic) s).
Proof.
  intros Hen Hp. unfold Subscription.delete, Subscription.bind.
  rewrite isEnabled_enabled by done.
  by rewrite getSubscription_absent.
Qed.

(** [delete] never touches the timers: the handle recorded for the topic
    stays in [this.timeout], and its timer stays to fire. *)
Lemma delete_keeps_timers s topic reason :
  Subscription.timeout (Subscription.state_of (Subscription.delete topic reason s)) =
    Subscription.timeout s /\
  Subscription.timers (Subscription.state_of (Subscription.delete topic reason s)) =
    Subscription.timers s.
Proof.
  destruct (Subscription.cached s) eqn:Hcached.
  - destruct (Subscription.entry s topic) as [p|] eqn:Hp.
    + by rewrite (delete_present _ _ _ p).
    + by rewrite delete_absent.
  - unfold Subscription.delete, Subscription.bind, Subscription.isEnabled.
    by rewrite Hcached.
Qed.
End SubscriptionFacts.

(** C3. A store holds the topic [t] with a timer armed for it (the entry
    expires one second after it was set).  [delete(t, reason)] removes the
    entry and leaves the timer to fire, recorded under the same handle;
    when it fires, [onTimeout] calls [delete] on the topic that is gone,
    and that call rejects with NO_MATCHING_TOPIC. *)
Theorem subscription_delete_leaves_timer :
  let s1 := Samples.store_with_t 1000 in
  let s2 :=
    Subscription.state_of
      (Subscription.delete (SE := Samples.store_env) "t" (Thrown "disconnected") s1) in
  let s3 :=
    Subscription.run_jobs (SE := Samples.store_env)
      (Subscription.fire (SE := Samples.store_env) 0 s2) in
  (Subscription.timeout s1 !! "t" = Some 0%nat /\
   Subscription.timers s1 !! 0%nat = Some ("t", 1000)) /\
  (Subscription.entry s2 "t" = None /\
   Subscription.timeout s2 !! "t" = Some 0%nat /\
   Subscription.timers s2 !! 0%nat = Some ("t", 1000)) /\
  Subscription.unhandled s3 = [NO_MATCHING_TOPIC "pairing settled" "t"].
Proof. vm_compute. repeat split; reflexivity. Qed.

Section ObjectStoreFacts.
Context {SE : StoreEnv}.
Import SubscriptionTypes.
Implicit Types (s : Subscription.State JsObject JsObject) (topic : string).

(** [{ ...sequence, ...update }], field by field. *)
Lemma spread_object_lookup (sequence update : JsObject) (k : string) :
  spread sequence update !! k =
    match update !! k with
    | Some v => Some v
    | None => sequence !! k
    end.
Proof.
  cbn. rewrite lookup_union.
  by destruct (update !! k), (sequence !! k).
Qed.

(** C10. On a topic that is present, [update(topic, partial)] replaces
    the sequence of the entry by the shallow merge of the old sequence
    with [partial] (a field of [partial] wins, the other fields stay) and
    leaves the topic, the relay options and the expiry of the entry as
    they were; the other entries, the order of the keys, the handles in
    [this.timeout] and the timers still to fire are unchanged. *)
Theorem subscription_update_frame s topic (partial : JsObject) p :
  Subscription.enabled s ->
  Subscription.well_formed s ->
  Subscription.entry s topic = Some p ->
  exists s' sequence',
    Subscription.update topic partial s = Subscription.Resolved tt s' /\
    Subscription.entry s' topic =
      Some {| params_topic := params_topic p;
              params_sequence := sequence';
              params_relay := params_relay p;
              params_expiry := params_expiry p |} /\
    (forall k, sequence' !! k =
               match partial !! k with
               | Some v => Some v
               | None => params_sequence p !! k
               end) /\
    (forall t, t <> topic -> Subscription.entry s' t = Subscription.entry s t) /\
    Subscription.topics s' = Subscription.topics s /\
    Subscription.timeout s' = Subscription.timeout s /\
    Subscription.timers s' = Subscription.timers s /\
    Subscription.next_timer s' = Subscription.next_timer s.
Proof.
  intros Hen [Hnd Hkey] Hp.
  assert (params_topic p = topic) as Htopic
    by (apply Hkey; by apply get_Some_elem).
  eexists _, (spread (params_sequence p) partial).
  split; [by apply update_present|].
  split; [|split; [|split; [|split]]].
  - unfold Subscription.entry. cbn. rewrite get_set_eq. by rewrite Htopic.
  - intros k. apply spread_object_lookup.
  - intros t Hne. unfold Subscription.entry. cbn. by rewrite get_set_ne.
  - unfold Subscription.topics. cbn. apply keys_set_present.
    apply has_true_get. by exists p.
  - done.
Qed.
End ObjectStoreFacts.

(** Updating the field [a] of the sequence held for [t], which has a timer
    armed. *)
Lemma subscription_update_frame_witness :
  exists s' sequence',
    Subscription.update (SE := Samples.store_env) "t" {[ "a" := JNum 2 ]}
      (Samples.store_with_t 1000) = Subscription.Resolved tt s' /\
    Subscription.entry s' "t" =
      Some {| SubscriptionTypes.params_topic := "t";
              SubscriptionTypes.params_sequence := sequence';
              SubscriptionTypes.params_relay := Samples.waku;
              SubscriptionTypes.params_expiry := 1000 |} /\
    sequence' !! "a" = Some (JNum 2) /\
    Subscription.timers s' = Subscription.timers (Samples.store_with_t 1000).
Proof.
  destruct (subscription_update_frame (SE := Samples.store_env)
              (Samples.store_with_t 1000) "t" {[ "a" := JNum 2 ]}
              {| SubscriptionTypes.params_topic := "t";
                 SubscriptionTypes.params_sequence := Samples.sequence_a;
                 SubscriptionTypes.params_relay := Samples.waku;
                 SubscriptionTypes.params_expiry := 1000 |})
    as (s' & sequence' & Hrun & Hentry & Hmerge & _ & _ & _ & Htimers & _).
  - reflexivity.
  - split.
    + vm_compute. apply NoDup_singleton.
    + intros k p Hin. vm_compute in Hin.
      apply list_elem_of_singleton in Hin. by injection Hin as -> ->.
  - reflexivity.
  - exists s', sequence'. rewrite Hmerge. by repeat split.
Defined.

Section TimerFacts.
Context {Sequence Update : Type} {SP : Spread Sequence Update} {SE : StoreEnv}.
Import SubscriptionTypes.
Implicit Types (s : Subscription.State Sequence Update) (topic : string).

Lemma start_enabled s j :
  Subscription.enabled s ->
  Subscription.start j s =
    Subscription.with_jobs (Subscription.jobs s ++ [j]) (Subscription.waiting s) s.
Proof. unfold Subscription.enabled, Subscription.start. by intros ->. Qed.

(** The three ways of [setTimeout] on a topic without a recorded handle. *)
Lemma setTimeout_expired s now topic expiry :
  Subscription.enabled s ->
  Subscription.timeout s !! topic = None ->
  expiry - now <= 0 ->
  Subscription.setTimeout now topic expiry s =
    Subscription.with_jobs
      (Subscription.jobs s ++
       [Subscription.JDelete topic (EXPIRED Subscription.getSubscriptionContext)])
      (Subscription.waiting s) s.
Proof.
  intros Hen Hnone Hle. unfold Subscription.setTimeout. rewrite Hnone.
  destruct (Z.leb_spec (expiry - now) 0); [|lia].
  unfold Subscription.onTimeout, Subscription.deleteTimeout. rewrite Hnone.
  by apply start_enabled.
Qed.

Lemma setTimeout_armed s now topic expiry :
  Subscription.timeout s !! topic = None ->
  0 < expiry - now <= Subscription.CLIENT_BEAT_INTERVAL ->
  Subscription.setTimeout now topic expiry s =
    Subscription.mkState (Subscription.subscriptions s)
      (<[ topic := Subscription.next_timer s ]> (Subscription.timeout s))
      (Subscription.cached s)
      (<[ Subscription.next_timer s := (topic, expiry - now) ]> (Subscription.timers s))
      (S (Subscription.next_timer s))
      (Subscription.emitted s) (Subscription.errors s) (Subscription.persisted s)
      (Subscription.jobs s) (Subscription.waiting s) (Subscription.unhandled s).
Proof.
  intros Hnone [Hpos Hle]. unfold Subscription.setTimeout. rewrite Hnone.
  destruct (Z.leb_spec (expiry - now) 0); [lia|].
  destruct (Z.gtb_spec (expiry - now) Subscription.CLIENT_BEAT_INTERVAL); [lia|].
  done.
Qed.

Lemma setTimeout_later s now topic expiry :
  Subscription.CLIENT_BEAT_INTERVAL < expiry - now ->
  Subscription.setTimeout now topic expiry s = s.
Proof.
  intros Hlt. unfold Subscription.setTimeout.
  destruct (Subscription.timeout s !! topic); [done|].
  assert (0 < Subscription.CLIENT_BEAT_INTERVAL) by done.
  destruct (Z.leb_spec (expiry - now) 0); [lia|].
  destruct (Z.gtb_spec (expiry - now) Subscription.CLIENT_BEAT_INTERVAL); [done|lia].
Qed.


(** [setTimeout] changes nothing but the timers, the handles and the
    queue of calls. *)
Lemma setTimeout_frame s now topic expiry :
  let s' := Subscription.setTimeout now topic expiry s in
  Subscription.subscriptions s' = Subscription.subscriptions s /\
  Subscription.cached s' = Subscription.cached s /\
  Subscription.emitted s' = Subscription.emitted s /\
  Subscription.errors s' = Subscription.errors s /\
  Subscription.persisted s' = Subscription.persisted s /\
  Subscription.unhandled s' = Subscription.unhandled s.
Proof.
  cbn. unfold Subscription.setTimeout, Subscription.onTimeout, Subscription.start,
    Subscription.deleteTimeout.
  destruct (Subscription.timeout s !! topic) eqn:Hrec; [done|].
  destruct (expiry - now <=? 0).
  - cbn. by destruct (Subscription.cached s) eqn:Hcached; cbn; rewrite ?Hcached.
  - by destruct (expiry - now >? Subscription.CLIENT_BEAT_INTERVAL).
Qed.

(** On a topic without a recorded handle, a timer is armed exactly for a
    remaining lifetime that is positive and at most one beat. *)
Lemma setTimeout_armed_iff s now topic expiry :
  Subscription.timeout s !! topic = None ->
  Subscription.armed (Subscription.setTimeout now topic expiry s) topic <->
  0 < expiry - now <= Subscription.CLIENT_BEAT_INTERVAL.
Proof.
  intros Hnone. split.
  - intros (handle & delay & Hrec & _).
    destruct (Z.le_gt_cases (expiry - now) 0) as [Hle|Hpos].
    + exfalso. revert Hrec.
      unfold Subscription.setTimeout, Subscription.onTimeout, Subscription.start,
        Subscription.deleteTimeout.
      rewrite Hnone. destruct (Z.leb_spec (expiry - now) 0); [|lia].
      destruct (Subscription.cached s); cbn; by rewrite Hnone.
    + destruct (Z.le_gt_cases (expiry - now) Subscription.CLIENT_BEAT_INTERVAL)
        as [Hin|Hout]; [lia|].
      rewrite setTimeout_later in Hrec by lia. congruence.
  - intros Hin. rewrite setTimeout_armed by done.
    exists (Subscription.next_timer s), (expiry - now). cbn.
    by rewrite !lookup_insert_eq.
Qed.
End TimerFacts.

Section SetFacts.
Context {Sequence Update : Type} {SP : Spread Sequence Update} {SE : StoreEnv}.
Import SubscriptionTypes.
Implicit Types (s : Subscription.State Sequence Update) (topic : string).

Lemma with_jobs_nil s :
  Subscription.jobs s = [] ->
  Subscription.with_jobs [] (Subscription.waiting s) s = s.
Proof. destruct s; cbn. by intros ->. Qed.

(** A single call in the queue. *)
Lemma run_jobs_single s j :
  Subscription.jobs s = [] ->
  Subscription.run_jobs
    (Subscription.with_jobs (Subscription.jobs s ++ [j]) (Subscription.waiting s) s) =
  Subscription.settle s j.
Proof.
  intros Hjobs. unfold Subscription.run_jobs. cbn. rewrite Hjobs. cbn.
  change (Subscription.settle (Subscription.with_jobs [] (Subscription.waiting s) s) j =
          Subscription.settle s j).
  by rewrite with_jobs_nil.
Qed.

Lemma well_formed_set s topic p :
  params_topic p = topic ->
  Subscription.well_formed s ->
  Subscription.well_formed (Subscription.with_subscriptions (JsMap.set topic p) s).
Proof.
  intros Htopic [Hnd Hkey]. split.
  - unfold Subscription.topics. cbn. by apply NoDup_keys_set.
  - intros k q Hin. cbn in Hin. apply elem_of_set in Hin as [Heq | Hin].
    + by injection Heq as -> ->.
    + by apply Hkey.
Qed.

Lemma well_formed_delete s topic :
  Subscription.well_formed s ->
  Subscription.well_formed (Subscription.with_subscriptions (JsMap.delete topic) s).
Proof.
  intros [Hnd Hkey]. split.
  - unfold Subscription.topics. cbn. by apply NoDup_keys_delete.
  - intros k q Hin. cbn in Hin. apply Hkey. by eapply elem_of_delete.
Qed.

(** The store after [subscribeAndSet] on a topic without a recorded
    handle. *)
Lemma subscribeAndSet_jobs s now topic sequence opts :
  Subscription.enabled s ->
  Subscription.timeout s !! topic = None ->
  let e := or_number (expiry opts) (now + SUBSCRIPTION_DEFAULT_TTL * 1000) in
  Subscription.jobs (Subscription.subscribeAndSet now topic sequence opts s) =
    (Subscription.jobs s ++
     if e - now <=? 0
     then [Subscription.JDelete topic (EXPIRED Subscription.getSubscriptionContext)]
     else [])%list.
Proof.
  intros Hen Hnone e. unfold Subscription.subscribeAndSet. fold e.
  destruct (Z.leb_spec (e - now) 0) as [Hle|Hpos].
  - by rewrite setTimeout_expired.
  - destruct (Z.le_gt_cases (e - now) Subscription.CLIENT_BEAT_INTERVAL).
    + rewrite setTimeout_armed by done. cbn. by rewrite app_nil_r.
    + rewrite setTimeout_later by lia. cbn. by rewrite app_nil_r.
Qed.

(** C4, as amended.  On an enabled store: if the topic is present,
    [set(topic, sequence, opts)] starts [update(topic, sequence)] and
    resolves; once that call has run the store is the one [update] yields,
    with the same keys and the event [updated], not [created].  If the
    topic is absent, the entry [{topic, sequence, relay, expiry}] is
    appended, with the expiry of [opts] when it is given and not zero, and
    [now + SUBSCRIPTION_DEFAULT_TTL * 1000] when it is not given; the keys
    stay distinct; [created] is emitted; and, when no handle is recorded
    for the topic, a timer is armed exactly when the remaining lifetime is
    positive and at most one beat, an EXPIRED deletion is started when it
    is not positive, and neither happens when it is longer than one
    beat. *)
Theorem subscription_set_spec now topic sequence opts s :
  Subscription.enabled s ->
  Subscription.well_formed s ->
  (forall p,
      Subscription.entry s topic = Some p ->
      Subscription.jobs s = [] ->
      exists s1 s2,
        Subscription.set now topic sequence opts s = Subscription.Resolved tt s1 /\
        Subscription.update topic (as_update sequence) s = Subscription.Resolved tt s2 /\
        Subscription.run_jobs s1 = s2 /\
        Subscription.subscriptions s1 = Subscription.subscriptions s /\
        Subscription.emitted s1 = Subscription.emitted s /\
        Subscription.topics s2 = Subscription.topics s /\
        Subscription.emitted s2 =
          (Subscription.emitted s ++
           [Updated Subscription.getSubscriptionEventTag topic
              (spread (params_sequence p) (as_update sequence))
              (as_update sequence)])%list) /\
  (Subscription.entry s topic = None ->
   exists s' e,
     Subscription.set now topic sequence opts s = Subscription.Resolved tt s' /\
     (expiry opts = None -> e = now + SUBSCRIPTION_DEFAULT_TTL * 1000) /\
     (forall x, expiry opts = Some x -> x <> 0 -> e = x) /\
     Subscription.entry s' topic =
       Some {| params_topic := topic; params_sequence := sequence;
               params_relay := relay opts; params_expiry := e |} /\
     Subscription.topics s' = (Subscription.topics s ++ [topic])%list /\
     Subscription.well_formed s' /\
     Subscription.emitted s' =
       (Subscription.emitted s ++
        [Created Subscription.getSubscriptionEventTag topic sequence])%list /\
     (Subscription.timeout s !! topic = None ->
      (Subscription.armed s' topic <->
       0 < e - now <= Subscription.CLIENT_BEAT_INTERVAL) /\
      Subscription.jobs s' =
        (Subscription.jobs s ++
         (if e - now <=? 0
          then [Subscription.JDelete topic (EXPIRED Subscription.getSubscriptionContext)]
          else []) ++
         [Subscription.JSync])%list)).
Proof.
  intros Hen Hwf. split.
  - intros p Hp Hjobs.
    assert (JsMap.has topic (Subscription.subscriptions s) = true) as Hhas
      by (apply has_true_get; by exists p).
    eexists _, _. split; [|split; [by apply update_present|]].
    + unfold Subscription.set, Subscription.bind.
      rewrite isEnabled_enabled by done. rewrite Hhas.
      by rewrite start_enabled.
    + split; [|split; [|split; [|split]]].
      * rewrite run_jobs_single by done. unfold Subscription.settle. cbn.
        by rewrite (update_present _ _ _ p).
      * done.
      * done.
      * unfold Subscription.topics. cbn. by apply keys_set_present.
      * done.
  - intros Hp.
    assert (JsMap.has topic (Subscription.subscriptions s) = false) as Hhas
      by by apply has_false_get.
    set (e := or_number (expiry opts) (now + SUBSCRIPTION_DEFAULT_TTL * 1000)).
    set (param := {| params_topic := topic; params_sequence := sequence;
                     params_relay := relay opts; params_expiry := e |}).
    eexists _, e. split.
    { unfold Subscription.set, Subscription.bind.
      rewrite isEnabled_enabled by done. by rewrite Hhas. }
    pose proof (setTimeout_frame
                  (Subscription.with_subscriptions (JsMap.set topic param) s)
                  now topic e) as (Hsubs & Hcached & Hemitted & _).
    cbn in Hsubs, Hcached, Hemitted.
    split; [by subst e; intros ->|].
    split.
    { subst e. intros x -> Hx. cbn. destruct (Z.eqb_spec x 0); [done|done]. }
    split.
    { unfold Subscription.entry, Subscription.subscribeAndSet. cbn.
      fold e. fold param. rewrite Hsubs. apply get_set_eq. }
    split.
    { unfold Subscription.topics, Subscription.subscribeAndSet. cbn.
      fold e. fold param. rewrite Hsubs. by apply keys_set_absent. }
    split.
    { pose proof (well_formed_set s topic param eq_refl Hwf) as [Hnd Hkey].
      unfold Subscription.well_formed, Subscription.topics,
        Subscription.subscribeAndSet in *.
      cbn in *. fold e. fold param. rewrite Hsubs. by split. }
    split.
    { unfold Subscription.subscribeAndSet. cbn. fold e. fold param.
      by rewrite Hemitted. }
    intros Hnone. split.
    + change (Subscription.armed
                (Subscription.setTimeout now topic e
                   (Subscription.with_subscriptions (JsMap.set topic param) s)) topic
              <-> 0 < e - now <= Subscription.CLIENT_BEAT_INTERVAL).
      by apply setTimeout_armed_iff.
    + change (Subscription.jobs (Subscription.subscribeAndSet now topic sequence opts s)
                ++ [Subscription.JSync] =
              Subscription.jobs s ++
               (if e - now <=? 0
                then [Subscription.JDelete topic
                        (EXPIRED Subscription.getSubscriptionContext)]
                else []) ++
               [Subscription.JSync])%list.
      rewrite subscribeAndSet_jobs by done. by rewrite <- app_assoc.
Qed.
End SetFacts.

(** Setting a topic that is absent, to expire one second later. *)
Lemma subscription_set_spec_witness :
  exists s',
    Subscription.set (SE := Samples.store_env) 0 "t" Samples.sequence_a
      (Samples.expires_at 1000) Samples.empty_store = Subscription.Resolved tt s' /\
    Subscription.entry s' "t" =
      Some {| SubscriptionTypes.params_topic := "t";
              SubscriptionTypes.params_sequence := Samples.sequence_a;
              SubscriptionTypes.params_relay := Samples.waku;
              SubscriptionTypes.params_expiry := 1000 |} /\
    Subscription.armed s' "t".
Proof.
  destruct (subscription_set_spec (SE := Samples.store_env) 0 "t" Samples.sequence_a
              (Samples.expires_at 1000) Samples.empty_store) as [_ Habsent].
  - reflexivity.
  - split; [apply NoDup_nil_2|].
    intros k p Hin. by apply elem_of_nil in Hin.
  - destruct (Habsent eq_refl)
      as (s' & e & Hset & _ & He & Hentry & _ & _ & _ & Htimer).
    specialize (He 1000 eq_refl ltac:(done)). subst e.
    exists s'. split; [done|]. split; [done|].
    apply Htimer; [reflexivity|]. by compute.
Defined.

(** C4 as stated fails: on the empty store at time 0, [set] of the absent
    topic [t] with an expiry ten seconds later, or with no expiry (the
    default lifetime is thirty days), inserts the entry and arms no
    timer. *)
Lemma subscription_set_arms_no_timer :
  let later :=
    Subscription.state_of
      (Subscription.set (SE := Samples.store_env) 0 "t" Samples.sequence_a
         (Samples.expires_at 10000) Samples.empty_store) in
  let default :=
    Subscription.state_of
      (Subscription.set (SE := Samples.store_env) 0 "t" Samples.sequence_a
         Samples.no_expiry Samples.empty_store) in
  Subscription.entry Samples.empty_store "t" = None /\
  (SubscriptionTypes.params_expiry <$> Subscription.entry later "t" = Some 10000 /\
   ~ Subscription.armed later "t" /\
   Subscription.timers later = ∅) /\
  (SubscriptionTypes.params_expiry <$> Subscription.entry default "t" = Some 2592000000 /\
   ~ Subscription.armed default "t" /\
   Subscription.timers default = ∅).
Proof.
  cbn zeta. split; [reflexivity|]. split.
  - split; [reflexivity|]. split; [|reflexivity].
    intros (handle & delay & Hrec & _). vm_compute in Hrec. discriminate.
  - split; [reflexivity|]. split; [|reflexivity].
    intros (handle & delay & Hrec & _). vm_compute in Hrec. discriminate.
Qed.

(** ** The beat *)

Section BeatFacts.
Context {Sequence Update : Type} {SP : Spread Sequence Update} {SE : StoreEnv}.
Import SubscriptionTypes.
Implicit Types (s acc : Subscription.State Sequence Update) (topic t : string).
Implicit Types (entries : list (string * SubscriptionParams Sequence)).
Implicit Types (j : Subscription.Job Update) (js : list (Subscription.Job Update)).

(** The walk of [checkSubscriptions] over some entries. *)
Local Abbreviation tick := Subscription.tick.
Local Abbreviation walk now entries acc := (fold_left (Subscription.tick now) entries acc).
Local Abbreviation expired := (EXPIRED Subscription.getSubscriptionContext).

Lemma setTimeout_timeout_ne s now topic expiry t :
  t <> topic ->
  Subscription.timeout (Subscription.setTimeout now topic expiry s) !! t =
    Subscription.timeout s !! t.
Proof.
  intros Hne. unfold Subscription.setTimeout, Subscription.onTimeout,
    Subscription.start, Subscription.deleteTimeout.
  destruct (Subscription.timeout s !! topic) eqn:Hrec; [done|].
  destruct (expiry - now <=? 0).
  - by destruct (Subscription.cached s).
  - destruct (expiry - now >? Subscription.CLIENT_BEAT_INTERVAL); [done|].
    cbn. by rewrite lookup_insert_ne.
Qed.



(** The walk changes nothing but the timers, the handles and the queue
    of calls. *)
Lemma walk_frame now entries acc :
  Subscription.subscriptions (walk now entries acc) = Subscription.subscriptions acc /\
  Subscription.cached (walk now entries acc) = Subscription.cached acc /\
  Subscription.emitted (walk now entries acc) = Subscription.emitted acc.
Proof.
  unfold Subscription.tick. revert acc.
  induction entries as [|e entries IH]; intros acc; [done|].
  cbn [fold_left]. destruct (IH (tick now acc e)) as (H1 & H2 & H3).
  unfold Subscription.tick in *. rewrite H1, H2, H3.
  pose proof (setTimeout_frame acc now (params_topic e.2) (params_expiry e.2)) as H.
  cbn in H. by destruct H as (-> & -> & -> & _).
Qed.

Lemma walk_enabled now entries acc :
  Subscription.enabled acc -> Subscription.enabled (walk now entries acc).
Proof.
  unfold Subscription.enabled. by destruct (walk_frame now entries acc) as (_ & -> & _).
Qed.







(** In a well-formed store the topics of the entries are the keys. *)
Lemma entry_topics_keys s :
  Subscription.well_formed s ->
  (fun e => params_topic e.2) <$> Subscription.subscriptions s = Subscription.topics s.
Proof.
  intros [_ Hkey]. unfold Subscription.topics, JsMap.keys.
  induction (Subscription.subscriptions s) as [|[k p] m IH]; [done|].
  cbn. rewrite IH.
  - f_equal. apply Hkey. apply elem_of_cons. by left.
  - intros k' p' Hin. apply Hkey. apply elem_of_cons. by right.
Qed.

(** The ways a queued call ends. *)
Lemma settle_cases s j :
  (j = Subscription.JSync /\
   Subscription.settle s j = Subscription.record_event Sync s) \/
  (exists t, Subscription.job_topic j = Some t /\
     ((Subscription.cached s <> [] /\
       Subscription.settle s j =
         Subscription.with_jobs (Subscription.jobs s) (Subscription.waiting s ++ [j]) s) \/
      (Subscription.enabled s /\ Subscription.entry s t = None /\
       Subscription.settle s j =
         Subscription.with_unhandled
           (NO_MATCHING_TOPIC Subscription.getSubscriptionContext t)
           (Subscription.log_error
              (NO_MATCHING_TOPIC Subscription.getSubscriptionContext t) s)) \/
      (Subscription.enabled s /\
       exists p, Subscription.entry s t = Some p /\
         Subscription.settle s j =
           match j with
           | Subscription.JUpdate topic upd =>
               Subscription.emit
                 (Updated Subscription.getSubscriptionEventTag topic
                    (spread (params_sequence p) upd) upd)
                 (Subscription.with_subscriptions
                    (JsMap.set topic
                       {| params_topic := topic;
                          params_sequence := spread (params_sequence p) upd;
                          params_relay := params_relay p;
                          params_expiry := params_expiry p |}) s)
           | Subscription.JDelete topic reason =>
               Subscription.emit
                 (Deleted Subscription.getSubscriptionEventTag topic
                    (params_sequence p) reason)
                 (Subscription.with_subscriptions (JsMap.delete topic) s)
           | Subscription.JSync => s
           end))).
Proof.
  destruct j as [topic upd | topic reason | ]; [| |by left]; right; exists topic;
    (split; [done|]).
  - destruct (Subscription.cached s) eqn:Hcached.
    + right. destruct (Subscription.entry s topic) as [p|] eqn:Hp.
      * right. split; [done|]. exists p. split; [done|].
        unfold Subscription.settle. cbn. by rewrite (update_present _ _ _ p).
      * left. split; [done|]. split; [done|].
        unfold Subscription.settle. cbn. by rewrite update_absent.
    + left. split; [done|]. unfold Subscription.settle. cbn.
      unfold Subscription.update, Subscription.bind, Subscription.isEnabled.
      by rewrite Hcached.
  - destruct (Subscription.cached s) eqn:Hcached.
    + right. destruct (Subscription.entry s topic) as [p|] eqn:Hp.
      * right. split; [done|]. exists p. split; [done|].
        unfold Subscription.settle. cbn. by rewrite (delete_present _ _ _ p).
      * left. split; [done|]. split; [done|].
        unfold Subscription.settle. cbn. by rewrite delete_absent.
    + left. split; [done|]. unfold Subscription.settle. cbn.
      unfold Subscription.delete, Subscription.bind, Subscription.isEnabled.
      by rewrite Hcached.
Qed.

Ltac case_settle s j :=
  destruct (settle_cases s j)
    as [[? ->] | (? & ? & [[? ->] | [(? & ? & ->) | (? & ? & ? & ->)]])].

Lemma settle_enabled s j :
  Subscription.enabled s -> Subscription.enabled (Subscription.settle s j).
Proof.
  unfold Subscription.enabled. intros Hen.
  case_settle s j; try done. by destruct j.
Qed.

Lemma settle_well_formed s j :
  Subscription.well_formed s -> Subscription.well_formed (Subscription.settle s j).
Proof.
  intros Hwf. case_settle s j; try done.
  destruct j as [topic upd | topic reason | ].
  - by apply (well_formed_set s topic).
  - by apply (well_formed_delete s topic).
  - done.
Qed.

Lemma settle_entry_ne s j t :
  Subscription.job_topic j <> Some t ->
  Subscription.entry (Subscription.settle s j) t = Subscription.entry s t.
Proof.
  intros Hne. case_settle s j; try done.
  destruct j as [topic upd | topic reason | ]; unfold Subscription.entry; cbn in *.
  - apply get_set_ne. congruence.
  - apply get_delete_ne. congruence.
  - done.
Qed.

Lemma settle_entry_none s j t :
  Subscription.entry s t = None ->
  Subscription.entry (Subscription.settle s j) t = None.
Proof.
  intros Hnone.
  destruct (decide (Subscription.job_topic j = Some t)) as [Heq | Hne].
  - destruct (settle_cases s j)
      as [[? ->] | (t' & Ht' & [[? ->] | [(? & ? & ->) | (? & p & Hp & _)]])];
      try done.
    congruence.
  - by rewrite settle_entry_ne.
Qed.

Lemma settle_emitted s j ev :
  ev ∈ Subscription.emitted s -> ev ∈ Subscription.emitted (Subscription.settle s j).
Proof.
  intros Hin. case_settle s j; try done.
  - cbn. apply elem_of_app. by left.
  - destruct j; cbn; rewrite ?elem_of_app; tauto.
Qed.

Lemma run_entry_other js s t :
  (forall j, j ∈ js -> Subscription.job_topic j <> Some t) ->
  Subscription.entry (fold_left Subscription.settle js s) t = Subscription.entry s t.
Proof.
  revert s. induction js as [|j js IH]; intros s Hjs; [done|].
  cbn. rewrite IH.
  - apply settle_entry_ne. apply Hjs. apply elem_of_cons. by left.
  - intros j' Hj'. apply Hjs. apply elem_of_cons. by right.
Qed.

Lemma run_entry_none js s t :
  Subscription.entry s t = None ->
  Subscription.entry (fold_left Subscription.settle js s) t = None.
Proof.
  revert s. induction js as [|j js IH]; intros s Hnone; [done|].
  cbn. apply IH. by apply settle_entry_none.
Qed.

Lemma run_emitted js s ev :
  ev ∈ Subscription.emitted s ->
  ev ∈ Subscription.emitted (fold_left Subscription.settle js s).
Proof.
  revert s. induction js as [|j js IH]; intros s Hin; [done|].
  cbn. apply IH. by apply settle_emitted.
Qed.

(** A deletion in the queue, the only call on its topic, removes the
    entry and emits [deleted] with its reason. *)
Lemma run_deleted js s t reason p :
  Subscription.enabled s ->
  Subscription.well_formed s ->
  Subscription.entry s t = Some p ->
  Subscription.JDelete t reason ∈ js ->
  (forall j, j ∈ js -> Subscription.job_topic j = Some t ->
             j = Subscription.JDelete t reason) ->
  Subscription.entry (fold_left Subscription.settle js s) t = None /\
  Deleted Subscription.getSubscriptionEventTag t (params_sequence p) reason ∈
    Subscription.emitted (fold_left Subscription.settle js s).
Proof.
  revert s. induction js as [|j js IH]; intros s Hen Hwf Hp Hin Honly.
  { by apply elem_of_nil in Hin. }
  cbn. destruct (decide (Subscription.job_topic j = Some t)) as [Heq | Hne].
  - assert (j = Subscription.JDelete t reason) as Hj
      by (apply Honly; [apply elem_of_cons; by left | done]).
    rewrite Hj. clear Hj Heq.
    destruct (settle_cases s (Subscription.JDelete t reason))
      as [[? _] | (t' & Ht' & [[Hdis _] | [(_ & Hnone & _) | (_ & q & Hq & ->)]])];
      [done | | | ]; injection Ht' as <-.
    + by destruct Hdis.
    + congruence.
    + assert (q = p) as -> by congruence. split.
      * apply run_entry_none. unfold Subscription.entry. cbn.
        apply get_delete_eq. by destruct Hwf.
      * apply run_emitted. cbn. apply elem_of_app. right.
        by apply list_elem_of_singleton.
  - apply elem_of_cons in Hin as [Heq | Hin]; [subst j; by cbn in Hne|].
    apply IH.
    + by apply settle_enabled.
    + by apply settle_well_formed.
    + by rewrite settle_entry_ne.
    + done.
    + intros j' Hj'. apply Honly. apply elem_of_cons. by right.
Qed.

Lemma well_formed_ext s s' :
  Subscription.subscriptions s' = Subscription.subscriptions s ->
  Subscription.well_formed s -> Subscription.well_formed s'.
Proof.
  unfold Subscription.well_formed, Subscription.topics. by intros ->.
Qed.




End BeatFacts.


(** ** The shape of the map is kept by every operation *)

Section InvariantFacts.
Context {Sequence Update : Type} {SP : Spread Sequence Update} {SE : StoreEnv}.
Import SubscriptionTypes.
Implicit Types (s : Subscription.State Sequence Update) (topic : string).

Lemma init_state_well_formed :
  Subscription.well_formed (Subscription.init_state (Sequence := Sequence) (Update := Update)).
Proof.
  split; [apply NoDup_nil_2|]. intros k p Hin. by apply elem_of_nil in Hin.
Qed.

Lemma emit_subscriptions ev s :
  Subscription.subscriptions (Subscription.emit ev s) = Subscription.subscriptions s.
Proof. by destruct ev. Qed.

Lemma subscribeAndSet_well_formed now topic sequence opts s :
  Subscription.well_formed s ->
  Subscription.well_formed (Subscription.subscribeAndSet now topic sequence opts s).
Proof.
  intros Hwf. unfold Subscription.subscribeAndSet.
  set (e := or_number (expiry opts) (now + SUBSCRIPTION_DEFAULT_TTL * 1000)).
  set (param := {| params_topic := topic; params_sequence := sequence;
                   params_relay := relay opts; params_expiry := e |}).
  apply (well_formed_ext (Subscription.with_subscriptions (JsMap.set topic param) s)).
  - by destruct (setTimeout_frame
                   (Subscription.with_subscriptions (JsMap.set topic param) s)
                   now topic e) as [-> _].
  - by apply well_formed_set.
Qed.

Lemma set_well_formed now topic sequence opts s :
  Subscription.well_formed s ->
  Subscription.well_formed
    (Subscription.state_of (Subscription.set now topic sequence opts s)).
Proof.
  intros Hwf. unfold Subscription.set, Subscription.bind, Subscription.isEnabled.
  destruct (Subscription.cached s) eqn:Hcached; [|done].
  destruct (JsMap.has topic (Subscription.subscriptions s)); cbn.
  - unfold Subscription.start. by rewrite Hcached.
  - apply (well_formed_ext (Subscription.subscribeAndSet now topic sequence opts s));
      [done | by apply subscribeAndSet_well_formed].
Qed.

Lemma run_jobs_well_formed s :
  Subscription.well_formed s -> Subscription.well_formed (Subscription.run_jobs s).
Proof.
  intros Hwf. unfold Subscription.run_jobs.
  assert (Subscription.well_formed
            (Subscription.with_jobs [] (Subscription.waiting s) s)) as Hbase by done.
  revert Hbase. generalize (Subscription.with_jobs [] (Subscription.waiting s) s).
  induction (Subscription.jobs s) as [|j js IH]; intros base Hbase; [done|].
  cbn. apply IH. by apply settle_well_formed.
Qed.

Lemma checkSubscriptions_well_formed now s :
  Subscription.well_formed s ->
  Subscription.well_formed (Subscription.checkSubscriptions now s).
Proof.
  intros Hwf. eapply well_formed_ext; [|done].
  unfold Subscription.checkSubscriptions.
  by destruct (walk_frame now (Subscription.subscriptions s) s) as [-> _].
Qed.

Lemma fire_well_formed handle s :
  Subscription.well_formed s -> Subscription.well_formed (Subscription.fire handle s).
Proof.
  intros Hwf. unfold Subscription.fire.
  destruct (Subscription.timers s !! handle) as [[topic delay]|]; [|done].
  eapply well_formed_ext; [|done].
  unfold Subscription.onTimeout, Subscription.start, Subscription.deleteTimeout.
  cbn. destruct (Subscription.timeout s !! topic); cbn;
    by destruct (Subscription.cached s).
Qed.

Lemma restore_each_well_formed now subs (acc : Subscription.State Sequence Update) :
  Subscription.well_formed acc ->
  Subscription.well_formed (fold_left (Subscription.restore_each now) subs acc).
Proof.
  revert acc. induction subs as [|sub subs IH]; intros acc Hacc; [done|].
  cbn. apply IH. by apply subscribeAndSet_well_formed.
Qed.

Lemma init_well_formed read now s :
  Subscription.well_formed s ->
  Subscription.well_formed (Subscription.state_of (Subscription.init read now s)).
Proof.
  intros Hwf. unfold Subscription.init, Subscription.restore, Subscription.try_catch.
  destruct read as [e | [[|first rest] | ]]; try done.
  destruct (Subscription.subscriptions s) eqn:Hsubs; cbn.
  - apply (well_formed_ext
             (fold_left (Subscription.restore_each now) (first :: rest)
                (Subscription.with_cached (first :: rest) s))); [done|].
    by apply restore_each_well_formed.
  - apply (well_formed_ext s); [done | exact Hwf].
Qed.
End InvariantFacts.

(** ** Restoring the store *)

Section RestoreFacts.
Context {Sequence Update : Type} {SP : Spread Sequence Update} {SE : StoreEnv}.
Import SubscriptionTypes.
Implicit Types (s : Subscription.State Sequence Update).

(** C9, as amended.  [init] always resolves.  A storage read that fails
    is caught and logged; a missing or empty item makes [restore] return
    without logging anything; a non-empty item on a store that already
    has entries raises RESTORE_WILL_OVERRIDE, which is logged and caught.
    In all these cases the entries of the store are those it had and no
    event is emitted, [enabled] included. *)
Theorem subscription_init_resolves (read : StorageRead Sequence) now s :
  exists s',
    Subscription.init read now s = Subscription.Resolved tt s' /\
    (forall e, read = ReadFails e ->
       Subscription.subscriptions s' = Subscription.subscriptions s /\
       Subscription.emitted s' = Subscription.emitted s /\
       Subscription.errors s' = (Subscription.errors s ++ [e])%list) /\
    (read = Item None \/ read = Item (Some []) -> s' = s) /\
    (forall first rest,
       read = Item (Some (first :: rest)) ->
       Subscription.subscriptions s <> [] ->
       Subscription.subscriptions s' = Subscription.subscriptions s /\
       Subscription.emitted s' = Subscription.emitted s /\
       Subscription.errors s' =
         (Subscription.errors s ++
          [RESTORE_WILL_OVERRIDE Subscription.getSubscriptionContext;
           RESTORE_WILL_OVERRIDE Subscription.getSubscriptionContext])%list).
Proof.
  unfold Subscription.init, Subscription.restore, Subscription.try_catch.
  destruct read as [e | [[|first rest] | ]].
  - eexists. split; [reflexivity|]. split; [|split].
    + by intros e' [= <-].
    + by intros [? | ?].
    + done.
  - eexists. split; [reflexivity|]. split; [|split].
    + done.
    + done.
    + done.
  - destruct (Subscription.subscriptions s) as [|entry entries] eqn:Hsubs.
    + eexists. split; [reflexivity|]. split; [|split].
      * done.
      * by intros [? | ?].
      * by intros ? ? _ ?.
    + eexists. split; [reflexivity|]. split; [|split].
      * done.
      * by intros [? | ?].
      * intros ? ? _ _. cbn. rewrite Hsubs. by rewrite <- app_assoc.
  - eexists. split; [reflexivity|]. split; [|split].
    + done.
    + done.
    + done.
Qed.
End RestoreFacts.

(** Restoring a persisted entry into a store that already holds [t]. *)
Lemma subscription_init_resolves_witness :
  exists s',
    Subscription.init (SE := Samples.store_env)
      (SubscriptionTypes.Item
         (Some [ {| SubscriptionTypes.params_topic := "u";
                    SubscriptionTypes.params_sequence := Samples.sequence_a;
                    SubscriptionTypes.params_relay := Samples.waku;
                    SubscriptionTypes.params_expiry := 9000 |} ]))
      0 (Samples.store_with_t 8000) = Subscription.Resolved tt s' /\
    Subscription.subscriptions s' = Subscription.subscriptions (Samples.store_with_t 8000) /\
    Subscription.emitted s' = Subscription.emitted (Samples.store_with_t 8000).
Proof.
  destruct (subscription_init_resolves (SE := Samples.store_env)
              (SubscriptionTypes.Item
                 (Some [ {| SubscriptionTypes.params_topic := "u";
                            SubscriptionTypes.params_sequence := Samples.sequence_a;
                            SubscriptionTypes.params_relay := Samples.waku;
                            SubscriptionTypes.params_expiry := 9000 |} ]))
              0 (Samples.store_with_t 8000))
    as (s' & Hinit & _ & _ & Hoverride).
  destruct (Hoverride _ _ eq_refl) as (Hsubs & Hemitted & _).
  - by vm_compute.
  - by exists s'.
Defined.

(** C9 as stated fails: when the persisted item is missing, or is the
    empty array, [restore] returns early; nothing is thrown and nothing is
    given to [logger.error]. *)
Lemma subscription_restore_missing_not_logged :
  Subscription.init (SE := Samples.store_env) (SubscriptionTypes.Item None) 0
    Samples.empty_store = Subscription.Resolved tt Samples.empty_store /\
  Subscription.init (SE := Samples.store_env) (SubscriptionTypes.Item (Some [])) 0
    Samples.empty_store = Subscription.Resolved tt Samples.empty_store /\
  Subscription.errors Samples.empty_store = [].
Proof. repeat split; reflexivity. Qed.

(** ** Pairing *)

Section PairingFacts.
Context {SE : StoreEnv}.
Import SubscriptionTypes PairingTypes.
Implicit Types (s : Pairing.SettledStore) (topic : string).

Lemma get_present s topic sub :
  Subscription.enabled s -> Subscription.entry s topic = Some sub ->
  Pairing.get topic s = Subscription.Resolved (params_sequence sub) s.
Proof.
  intros Hen Hsub. unfold Pairing.get, Subscription.get, Subscription.bind.
  rewrite isEnabled_enabled by done.
  by rewrite (getSubscription_present _ _ sub).
Qed.

(** [get] resolves only on an enabled store that holds the topic. *)
Lemma get_resolved s topic settled s' :
  Pairing.get topic s = Subscription.Resolved settled s' ->
  Subscription.enabled s /\ s' = s /\
  exists sub, Subscription.entry s topic = Some sub /\ settled = params_sequence sub.
Proof.
  intros Hget. destruct (Subscription.cached s) eqn:Hcached.
  - destruct (Subscription.entry s topic) as [sub|] eqn:Hsub.
    + rewrite (get_present _ _ sub) in Hget by done.
      injection Hget as <- <-. split; [done|]. split; [done|]. by exists sub.
    + exfalso. revert Hget.
      unfold Pairing.get, Subscription.get, Subscription.bind.
      rewrite isEnabled_enabled by done. by rewrite getSubscription_absent.
  - exfalso. revert Hget.
    unfold Pairing.get, Subscription.get, Subscription.bind, Subscription.isEnabled.
    by rewrite Hcached.
Qed.

Lemma mergeUpgrade_present s topic upg sub :
  Subscription.enabled s -> Subscription.entry s topic = Some sub ->
  Pairing.mergeUpgrade topic upg s =
    Subscription.Resolved (Pairing.merged (params_sequence sub) upg) s.
Proof.
  intros Hen Hsub. unfold Pairing.mergeUpgrade, Subscription.bind.
  by rewrite (get_present _ _ sub).
Qed.

(** The union of ordered sets is the concatenation when the second set
    brings only new elements. *)
Lemma ordered_union_new (a b : list string) :
  NoDup b -> (forall x, x ∈ b -> x ∉ a) ->
  Pairing.ordered_union a b = (a ++ b)%list.
Proof.
  revert a. induction b as [|x b IH]; intros a Hnd Hnew; cbn.
  - by rewrite app_nil_r.
  - apply NoDup_cons in Hnd as [Hx Hnd].
    assert (existsb (String.eqb x) a = false) as ->.
    { apply not_true_is_false. intros Hex.
      apply existsb_exists in Hex as (y & Hy & Heq).
      apply String.eqb_eq in Heq as <-.
      apply (Hnew x); [apply elem_of_cons; by left | by apply list_elem_of_In]. }
    rewrite IH; [by rewrite <- app_assoc | done |].
    intros y Hy. apply not_elem_of_app. split.
    + apply Hnew. apply elem_of_cons. by right.
    + rewrite list_elem_of_singleton. intros ->. done.
Qed.

(** What a successful upgrade leaves under the topic. *)
Lemma upgrade_resolved s topic upg settled' s' :
  Pairing.upgrade (Ok tt) topic upg s = Subscription.Resolved settled' s' ->
  exists sub sub',
    Subscription.enabled s /\ Subscription.enabled s' /\
    Subscription.entry s topic = Some sub /\
    Subscription.entry s' topic = Some sub' /\
    permissions (params_sequence sub') = Pairing.merged (params_sequence sub) upg.
Proof.
  unfold Pairing.upgrade, Subscription.bind.
  destruct (Pairing.get topic s) as [settled s0 | e s0 | s0] eqn:Hget; [|done|done].
  apply get_resolved in Hget as (Hen & -> & sub & Hsub & ->).
  destruct (negb _); [done|].
  rewrite (mergeUpgrade_present _ _ _ sub) by done.
  rewrite (update_present _ _ _ sub) by done.
  set (s1 := Subscription.emit _ _).
  assert (Subscription.enabled s1) as Hen1 by done.
  assert (Subscription.entry s1 topic =
            Some {| params_topic := topic;
                    params_sequence :=
                      spread (params_sequence sub)
                        (permissions_update (Pairing.merged (params_sequence sub) upg));
                    params_relay := params_relay sub;
                    params_expiry := params_expiry sub |}) as Hentry1.
  { unfold Subscription.entry. subst s1. cbn. apply get_set_eq. }
  rewrite (get_present _ _ _ Hen1 Hentry1).
  intros [= <- <-]. eexists sub, _. by repeat split.
Qed.
(** After a sequence of successful upgrades the settled permissions
    contain those held at the start. *)
Lemma upgrades_monotone topic upgs s s' sub :
  Subscription.entry s topic = Some sub ->
  Pairing.upgrades topic upgs s = Subscription.Resolved tt s' ->
  exists sub',
    Subscription.entry s' topic = Some sub' /\
    methods (jsonrpc (permissions (params_sequence sub))) ⊆
      methods (jsonrpc (permissions (params_sequence sub'))) /\
    types (notifications (permissions (params_sequence sub))) ⊆
      types (notifications (permissions (params_sequence sub'))) /\
    controller (permissions (params_sequence sub')) =
      controller (permissions (params_sequence sub)).
Proof.
  revert s sub. induction upgs as [|upg upgs IH]; intros s sub Hsub Hrun.
  - injection Hrun as <-. by exists sub.
  - cbn in Hrun. unfold Subscription.bind in Hrun.
    destruct (Pairing.upgrade (Ok tt) topic upg s) as [settled1 s1 | e s1 | s1] eqn:Hup;
      [|done|done].
    apply upgrade_resolved in Hup as (sub0 & sub1 & _ & _ & Hsub0 & Hsub1 & Hperm).
    assert (sub0 = sub) as -> by congruence.
    destruct (IH s1 sub1 Hsub1 Hrun) as (sub' & Hsub' & Hmethods & Htypes & Hctrl).
    exists sub'. rewrite Hperm in Hmethods, Htypes, Hctrl. cbn in *.
    split; [done|]. split; [|split; [|done]].
    + intros m Hm. apply Hmethods. apply elem_of_app. by left.
    + intros t Ht. apply Htypes. apply elem_of_app. by left.
Qed.

(** C2, as amended.  For a settled pairing topic, [mergeUpgrade] returns
    permissions whose methods are the settled methods followed by the
    proposed ones, whose notification types are the settled types
    followed by the proposed ones, and whose controller is the settled
    controller.  An element is in the result exactly when it is settled
    or proposed; the result is the union as an ordered set when the
    proposed elements are distinct and new.  After any sequence of
    successful upgrades the methods and the types contain the initial
    ones and the controller is the initial one. *)
Theorem pairing_mergeUpgrade_concat s topic upg sub :
  Subscription.enabled s ->
  Subscription.entry s topic = Some sub ->
  let settled := permissions (params_sequence sub) in
  let proposed_methods :=
    Pairing.methods_or_empty (upgrade_jsonrpc (upgrade_permissions upg)) in
  let proposed_types :=
    Pairing.types_or_empty (upgrade_notifications (upgrade_permissions upg)) in
  exists merged,
    Pairing.mergeUpgrade topic upg s = Subscription.Resolved merged s /\
    methods (jsonrpc merged) = (methods (jsonrpc settled) ++ proposed_methods)%list /\
    types (notifications merged) =
      (types (notifications settled) ++ proposed_types)%list /\
    controller merged = controller settled /\
    (forall m, m ∈ methods (jsonrpc merged) <->
               m ∈ methods (jsonrpc settled) \/ m ∈ proposed_methods) /\
    (forall t, t ∈ types (notifications merged) <->
               t ∈ types (notifications settled) \/ t ∈ proposed_types) /\
    (NoDup proposed_methods ->
     (forall m, m ∈ proposed_methods -> m ∉ methods (jsonrpc settled)) ->
     methods (jsonrpc merged) =
       Pairing.ordered_union (methods (jsonrpc settled)) proposed_methods) /\
    (NoDup proposed_types ->
     (forall t, t ∈ proposed_types -> t ∉ types (notifications settled)) ->
     types (notifications merged) =
       Pairing.ordered_union (types (notifications settled)) proposed_types) /\
    (forall upgs s',
        Pairing.upgrades topic upgs s = Subscription.Resolved tt s' ->
        exists sub',
          Subscription.entry s' topic = Some sub' /\
          methods (jsonrpc settled) ⊆
            methods (jsonrpc (permissions (params_sequence sub'))) /\
          types (notifications settled) ⊆
            types (notifications (permissions (params_sequence sub'))) /\
          controller (permissions (params_sequence sub')) = controller settled).
Proof.
  intros Hen Hsub settled proposed_methods proposed_types.
  exists (Pairing.merged (params_sequence sub) upg).
  split; [by apply mergeUpgrade_present|].
  split; [done|]. split; [done|]. split; [done|].
  split; [intros m; cbn; apply elem_of_app|].
  split; [intros t; cbn; apply elem_of_app|].
  split; [intros Hnd Hnew; cbn; symmetry; by apply ordered_union_new|].
  split; [intros Hnd Hnew; cbn; symmetry; by apply ordered_union_new|].
  intros upgs s' Hrun. by apply (upgrades_monotone topic upgs s).
Qed.
End PairingFacts.

(** Upgrading the settled pairing [t] with the method [personal_sign]. *)
Lemma pairing_mergeUpgrade_concat_witness :
  exists merged,
    Pairing.mergeUpgrade (SE := Samples.store_env) "t"
      (Samples.upgrade_methods ["personal_sign"]) Samples.pairing_store =
      Subscription.Resolved merged Samples.pairing_store /\
    PairingTypes.methods (PairingTypes.jsonrpc merged) =
      ["wc_sessionPropose"; "personal_sign"] /\
    PairingTypes.controller merged = {| PairingTypes.publicKey := "kB" |}.
Proof.
  destruct (pairing_mergeUpgrade_concat (SE := Samples.store_env)
              Samples.pairing_store "t" (Samples.upgrade_methods ["personal_sign"])
              {| SubscriptionTypes.params_topic := "t";
                 SubscriptionTypes.params_sequence := Samples.settled_t;
                 SubscriptionTypes.params_relay := Samples.waku;
                 SubscriptionTypes.params_expiry := 2592000000 |})
    as (merged & Hrun & Hmethods & _ & Hctrl & _).
  - reflexivity.
  - reflexivity.
  - by exists merged.
Defined.

(** C2 as stated fails: upgrading the settled pairing [t], which allows
    [wc_sessionPropose], with the same method returns the method twice,
    which is not the union of the two sets. *)
Lemma pairing_mergeUpgrade_repeats_method :
  exists merged,
    Pairing.mergeUpgrade (SE := Samples.store_env) "t"
      (Samples.upgrade_methods ["wc_sessionPropose"]) Samples.pairing_store =
      Subscription.Resolved merged Samples.pairing_store /\
    PairingTypes.methods (PairingTypes.jsonrpc merged) =
      ["wc_sessionPropose"; "wc_sessionPropose"] /\
    Pairing.ordered_union ["wc_sessionPropose"] ["wc_sessionPropose"] =
      ["wc_sessionPropose"] /\
    ~ NoDup (PairingTypes.methods (PairingTypes.jsonrpc merged)).
Proof.
  eexists. split; [reflexivity|]. split; [reflexivity|]. split; [reflexivity|].
  cbn. intros Hnd. apply NoDup_cons in Hnd as [Hnotin _].
  apply Hnotin. apply elem_of_cons. by left.
Qed.

(** ** Client facade *)

Section ClientFacts.
Context {CE : ClientEnv}.
Import ClientTypes SequenceTypes.

(** C5. [pair(uri)] answers the proposal of the URI through
    [pairing.respond]: when the controller flag of the proposer equals
    that of the client, with [approved = false] and the reason
    UNAUTHORIZED_MATCHING_CONTROLLER, the settled store of the pairing
    controller is unchanged and [pair] throws that reason; when the flags
    differ, with [approved = true] and no reason.  An inbound
    [wc_sessionPropose] whose proposer has the controller flag of the
    client is answered through [session.respond] with
    [approved = false] and the same reason, the settled store of the
    session controller is unchanged and no proposal event is emitted. *)
Theorem client_matching_controller_rejected (now : Z) (c : Client.State) :
  (forall params : PairParams,
      let proposal := Client.formatPairingProposal (uri params) in
      let flag := PairingTypes.proposer_controller (PairingTypes.proposer proposal) in
      (flag = Client.controller c ->
       Client.pair now params c =
         (Client.Throws (UNAUTHORIZED_MATCHING_CONTROLLER (Client.controller c)),
          Client.act
            (Client.PairingRespond
               {| approved := false; proposal := proposal; response := None;
                  reason := Some (UNAUTHORIZED_MATCHING_CONTROLLER (Client.controller c)) |})
            c) /\
       Client.pairing_settled (snd (Client.pair now params c)) =
         Client.pairing_settled c) /\
      (flag <> Client.controller c ->
       Client.actions (snd (Client.pair now params c)) =
         (Client.actions c ++
          [Client.PairingRespond
             {| approved := true; proposal := proposal; response := None;
                reason := None |}])%list)) /\
  (forall requestEvent : RequestEvent,
      request_method requestEvent = "wc_sessionPropose" ->
      PairingTypes.proposer_controller
        (SessionTypes.proposer (request_params requestEvent)) = Client.controller c ->
      Client.onPairingRequest now requestEvent c =
        Client.act
          (Client.SessionRespond
             {| approved := false; proposal := request_params requestEvent;
                response := Some Client.SESSION_EMPTY_RESPONSE;
                reason := Some (UNAUTHORIZED_MATCHING_CONTROLLER (Client.controller c)) |})
          c).
Proof.
  split.
  - intros params proposal flag. split.
    + intros Hflag. unfold Client.pair, Client.pair_response, Client.pairing_respond.
      fold proposal. fold flag. rewrite Hflag, eqb_reflx. cbn.
      split; [|done]. by destruct c.
    + intros Hflag. unfold Client.pair, Client.pair_response, Client.pairing_respond.
      fold proposal. fold flag.
      assert (Bool.eqb flag (Client.controller c) = false) as ->
        by (by apply eqb_false_iff).
      cbn. destruct (pairing_settle proposal None) as [[topic settled] opts].
      unfold Subscription.bind.
      by destruct (Subscription.set _ _ _ _ _) as [[] p | e p | p].
  - intros requestEvent Hmethod Hflag. unfold Client.onPairingRequest.
    rewrite Hmethod. cbn. rewrite Hflag, eqb_reflx.
    unfold Client.session_respond. cbn. by destruct c.
Qed.

(** C8. Whatever [connect(params)] does, every parameter it gives to
    [session.create] has as notifications the empty default
    [{ types: [] }], and has every other permission field as the caller
    gave it. *)
Theorem client_connect_notifications (params : ConnectParams) (c : Client.State) :
  Client.field Client.SESSION_EMPTY_PERMISSIONS "notifications" =
    JObj [("types", JArr [])] /\
  exists done,
    Client.actions (snd (Client.connect params c)) = (Client.actions c ++ done)%list /\
    forall create_params,
      Client.SessionCreate create_params ∈ done ->
      SessionTypes.create_permissions create_params !! "notifications" =
        Some (JObj [("types", JArr [])]) /\
      forall k, k <> "notifications" ->
                SessionTypes.create_permissions create_params !! k =
                  permissions params !! k.
Proof.
  split; [reflexivity|].
  unfold Client.connect.
  destruct (pairing params) as [ref|].
  - destruct (Pairing.get _ _) as [settled p | e p | p].
    + cbn. destruct (match ClientTypes.metadata params with
                     | Some m => Some m
                     | None => Client.metadata c
                     end) as [meta|].
      * eexists [_]. split; [reflexivity|].
        intros cp Hin. apply list_elem_of_singleton in Hin. injection Hin as ->.
        cbn. split; [apply lookup_insert_eq|].
        intros k Hk. by rewrite lookup_insert_ne.
      * exists []. cbn. rewrite app_nil_r. split; [done|]. intros cp Hin.
        by apply elem_of_nil in Hin.
    + exists []. cbn. rewrite app_nil_r. split; [done|]. intros cp Hin.
      by apply elem_of_nil in Hin.
    + exists []. cbn. rewrite app_nil_r. split; [done|]. intros cp Hin.
      by apply elem_of_nil in Hin.
  - destruct pairing_create as [settled | e]; cbn.
    + destruct (match ClientTypes.metadata params with
                | Some m => Some m
                | None => Client.metadata c
                end) as [meta|].
      * eexists [_; _]. split; [cbn; by rewrite <- app_assoc|].
        intros cp Hin. apply elem_of_cons in Hin as [Hin | Hin]; [done|].
        apply list_elem_of_singleton in Hin. injection Hin as ->.
        cbn. split; [apply lookup_insert_eq|].
        intros k Hk. by rewrite lookup_insert_ne.
      * exists [Client.PairingCreate]. split; [done|]. intros cp Hin.
        by apply list_elem_of_singleton in Hin.
    + exists [Client.PairingCreate]. split; [done|]. intros cp Hin.
      by apply list_elem_of_singleton in Hin.
Qed.
End ClientFacts.

(** A client that is not a controller pairs with a URI whose proposer is
    not a controller either. *)
Lemma client_matching_controller_rejected_witness :
  fst (Client.pair (CE := Samples.client_env) 0 {| ClientTypes.uri := "wc:T0@2" |}
         (Samples.client false)) =
    Client.Throws (UNAUTHORIZED_MATCHING_CONTROLLER false) /\
  Client.pairing_settled
    (snd (Client.pair (CE := Samples.client_env) 0 {| ClientTypes.uri := "wc:T0@2" |}
            (Samples.client false))) = Samples.pairing_store.
Proof.
  destruct (client_matching_controller_rejected (CE := Samples.client_env) 0
              (Samples.client false)) as [Hpair _].
  destruct (Hpair {| ClientTypes.uri := "wc:T0@2" |}) as [Hmatch _].
  destruct (Hmatch eq_refl) as [Heq Hstore].
  split; [by rewrite Heq | exact Hstore].
Defined.

(** [connect] over the settled pairing [t], the caller asking for the
    notification type [accountsChanged]. *)
Lemma client_connect_notifications_witness :
  exists create_params,
    Client.actions
      (snd (Client.connect (CE := Samples.client_env) Samples.connect_params
              (Samples.client true))) = [Client.SessionCreate create_params] /\
    SessionTypes.create_permissions create_params !! "notifications" =
      Some (JObj [("types", JArr [])]) /\
    SessionTypes.create_permissions create_params !! "jsonrpc" =
      Some (JObj [("methods", JArr [JStr "eth_sendTransaction"])]).
Proof.
  destruct (client_connect_notifications (CE := Samples.client_env)
              Samples.connect_params (Samples.client true)) as [_ (did & Hact & Hall)].
  vm_compute in Hact. subst did.
  eexists. split; [vm_compute; reflexivity|].
  edestruct Hall as [Hnotifications Hother];
    [apply list_elem_of_singleton; reflexivity|].
  split; [exact Hnotifications|].
  rewrite Hother; [reflexivity | done].
Defined.

(** * Further properties of the controllers *)

(** ** Subscription store: reading, writing, removing *)

Section StoreCallFacts.
Context {Sequence Update : Type} {SP : Spread Sequence Update} {SE : StoreEnv}.
Import SubscriptionTypes.
Implicit Types (s : Subscription.State Sequence Update) (topic : string).

Lemma store_get_present s topic p :
  Subscription.enabled s -> Subscription.entry s topic = Some p ->
  Subscription.get topic s = Subscription.Resolved (params_sequence p) s.
Proof.
  intros Hen Hp. unfold Subscription.get, Subscription.bind.
  rewrite isEnabled_enabled by done.
  by rewrite (getSubscription_present _ _ p).
Qed.

Lemma store_get_absent s topic :
  Subscription.enabled s -> Subscription.entry s topic = None ->
  Subscription.get topic s =
    Subscription.Rejected
      (NO_MATCHING_TOPIC Subscription.getSubscriptionContext topic)
      (Subscription.log_error
         (NO_MATCHING_TOPIC Subscription.getSubscriptionContext topic) s).
Proof.
  intros Hen Hp. unfold Subscription.get, Subscription.bind.
  rewrite isEnabled_enabled by done.
  by rewrite getSubscription_absent.
Qed.





(** X2. On an enabled store that does not hold the topic, [get], [update]
    and [delete] reject with NO_MATCHING_TOPIC for the context of the store
    and the topic; the error is logged once and nothing else changes: no
    entry, no event, no timer, no write to storage. *)
Theorem subscription_absent_topic_rejects topic upd reason s :
  Subscription.enabled s ->
  Subscription.entry s topic = None ->
  let error := NO_MATCHING_TOPIC Subscription.getSubscriptionContext topic in
  Subscription.get topic s = Subscription.Rejected error (Subscription.log_error error s) /\
  Subscription.update topic upd s =
    Subscription.Rejected error (Subscription.log_error error s) /\
  Subscription.delete topic reason s =
    Subscription.Rejected error (Subscription.log_error error s).
Proof.
  intros Hen Hp. cbn zeta.
  split; [by apply store_get_absent|]. split; [by apply update_absent|].
  by apply delete_absent.
Qed.

(** X3. While the store restores (entries are cached), every public call
    stays pending on the [enabled] event and changes nothing. *)
Theorem subscription_disabled_pending now topic sequence opts upd reason s :
  Subscription.cached s <> [] ->
  Subscription.set now topic sequence opts s = Subscription.Pending s /\
  Subscription.get topic s = Subscription.Pending s /\
  Subscription.update topic upd s = Subscription.Pending s /\
  Subscription.delete topic reason s = Subscription.Pending s.
Proof.
  intros Hdis.
  unfold Subscription.set, Subscription.get, Subscription.update, Subscription.delete,
    Subscription.bind, Subscription.isEnabled.
  by destruct (Subscription.cached s).
Qed.

Lemma size_delete_present {V : Type} (k : string) (m : list (string * V)) :
  JsMap.has k m = true -> S (JsMap.size (JsMap.delete k m)) = JsMap.size m.
Proof.
  unfold JsMap.has, JsMap.size. induction m as [|[k0 v0] m IH]; cbn; [done|].
  destruct (String.eqb k0 k); cbn; [done|]. intros H. by rewrite IH.
Qed.

(** X4. On an enabled, well-formed store that holds the topic, [delete]
    resolves, emits [deleted] with the sequence that was held and the
    reason, and hands the remaining values to the storage; the store has
    one entry less, the other topics keep their entries, and [get] of the
    topic now rejects with NO_MATCHING_TOPIC. *)
Theorem subscription_delete_then_get topic reason s p :
  Subscription.enabled s ->
  Subscription.well_formed s ->
  Subscription.entry s topic = Some p ->
  exists s',
    Subscription.delete topic reason s = Subscription.Resolved tt s' /\
    Subscription.emitted s' =
      (Subscription.emitted s ++
       [Deleted Subscription.getSubscriptionEventTag topic (params_sequence p) reason])%list /\
    Subscription.persisted s' = Some (Subscription.values s') /\
    S (Subscription.length s') = Subscription.length s /\
    (forall t, t <> topic -> Subscription.entry s' t = Subscription.entry s t) /\
    Subscription.get topic s' =
      Subscription.Rejected
        (NO_MATCHING_TOPIC Subscription.getSubscriptionContext topic)
        (Subscription.log_error
           (NO_MATCHING_TOPIC Subscription.getSubscriptionContext topic) s').
Proof.
  intros Hen [Hnd Hkey] Hp. eexists. split; [by apply (delete_present _ _ _ p)|].
  split; [done|]. split; [done|]. split.
  { unfold Subscription.length. cbn. apply size_delete_present.
    apply has_true_get. by exists p. }
  split.
  { intros t Hne. unfold Subscription.entry. cbn. by apply get_delete_ne. }
  apply store_get_absent; [done|].
  unfold Subscription.entry. cbn. by apply get_delete_eq.
Qed.
End StoreCallFacts.


(** Reading, updating and deleting the topic [t] on the empty store. *)
Lemma subscription_absent_topic_rejects_witness :
  Subscription.get (SE := Samples.store_env) "t" Samples.empty_store =
    Subscription.Rejected (NO_MATCHING_TOPIC "pairing settled" "t")
      (Subscription.log_error (NO_MATCHING_TOPIC "pairing settled" "t")
         Samples.empty_store).
Proof.
  destruct (subscription_absent_topic_rejects (SE := Samples.store_env)
              "t" Samples.sequence_a (Thrown "bye") Samples.empty_store) as [Hget _];
    [reflexivity | reflexivity | exact Hget].
Defined.

(** A store that is restoring one entry. *)
Lemma subscription_disabled_pending_witness :
  let restoring :=
    Subscription.with_cached
      [ {| SubscriptionTypes.params_topic := "u";
           SubscriptionTypes.params_sequence := Samples.sequence_a;
           SubscriptionTypes.params_relay := Samples.waku;
           SubscriptionTypes.params_expiry := 9000 |} ]
      Samples.empty_store in
  Subscription.get (SE := Samples.store_env) "u" restoring = Subscription.Pending restoring.
Proof.
  cbn zeta.
  destruct (subscription_disabled_pending (SE := Samples.store_env) 0 "u"
              Samples.sequence_a Samples.no_expiry Samples.sequence_a (Thrown "bye")
              (Subscription.with_cached
                 [ {| SubscriptionTypes.params_topic := "u";
                      SubscriptionTypes.params_sequence := Samples.sequence_a;
                      SubscriptionTypes.params_relay := Samples.waku;
                      SubscriptionTypes.params_expiry := 9000 |} ]
                 Samples.empty_store)) as (_ & Hget & _); [done | exact Hget].
Defined.

(** Deleting the only topic of a store. *)
Lemma subscription_delete_then_get_witness :
  exists s',
    Subscription.delete (SE := Samples.store_env) "t" (Thrown "bye")
      (Samples.store_with_t 8000) = Subscription.Resolved tt s' /\
    Subscription.length s' = 0%nat /\
    Subscription.get (SE := Samples.store_env) "t" s' =
      Subscription.Rejected (NO_MATCHING_TOPIC "pairing settled" "t")
        (Subscription.log_error (NO_MATCHING_TOPIC "pairing settled" "t") s').
Proof.
  destruct (subscription_delete_then_get (SE := Samples.store_env) "t" (Thrown "bye")
              (Samples.store_with_t 8000)
              {| SubscriptionTypes.params_topic := "t";
                 SubscriptionTypes.params_sequence := Samples.sequence_a;
                 SubscriptionTypes.params_relay := Samples.waku;
                 SubscriptionTypes.params_expiry := 8000 |})
    as (s' & Hdel & _ & _ & Hlen & _ & Hget).
  - reflexivity.
  - split.
    + vm_compute. apply NoDup_singleton.
    + intros k p Hin. vm_compute in Hin.
      apply list_elem_of_singleton in Hin. by injection Hin as -> ->.
  - reflexivity.
  - exists s'. split; [done|]. split; [|exact Hget].
    change (Subscription.length (Samples.store_with_t 8000)) with 1%nat in Hlen.
    by injection Hlen.
Defined.

Section ObjectStoreCallFacts.
Context {SE : StoreEnv}.
Import SubscriptionTypes.
Implicit Types (s : Subscription.State JsObject JsObject) (topic : string).

(** X5. On an enabled store that holds the topic and has no call queued,
    [set(topic, sequence, opts)] changes nothing at once; when the update
    it starts has run, the entry keeps its relay and its expiry (those of
    [opts] are ignored) and its sequence is the old one overwritten field
    by field with the new one: a field that the new sequence lacks
    survives.  The values are handed to the storage. *)
Theorem subscription_set_present_merges now topic (sequence : JsObject) opts s p :
  Subscription.enabled s ->
  Subscription.entry s topic = Some p ->
  Subscription.jobs s = [] ->
  exists s1 merged,
    Subscription.set now topic sequence opts s = Subscription.Resolved tt s1 /\
    Subscription.subscriptions s1 = Subscription.subscriptions s /\
    Subscription.entry (Subscription.run_jobs s1) topic =
      Some {| params_topic := topic; params_sequence := merged;
              params_relay := params_relay p; params_expiry := params_expiry p |} /\
    (forall k, merged !! k =
               match sequence !! k with
               | Some v => Some v
               | None => params_sequence p !! k
               end) /\
    Subscription.persisted (Subscription.run_jobs s1) =
      Some (Subscription.values (Subscription.run_jobs s1)).
Proof.
  intros Hen Hp Hjobs.
  assert (JsMap.has topic (Subscription.subscriptions s) = true) as Hhas
    by (apply has_true_get; by exists p).
  eexists _, (spread (params_sequence p) sequence). split.
  { unfold Subscription.set, Subscription.bind.
    rewrite isEnabled_enabled by done. rewrite Hhas. by rewrite start_enabled. }
  split; [done|].
  rewrite run_jobs_single by done. unfold Subscription.settle. cbn [Subscription.run_job].
  change (as_update sequence) with sequence.
  rewrite (update_present _ _ _ p) by done.
  split; [|split; [|done]].
  - unfold Subscription.entry. cbn. apply get_set_eq.
  - intros k. apply spread_object_lookup.
Qed.

(** X6. Two updates of a topic in a row: a field of the second update
    wins, then a field of the first, then the field the sequence had; the
    relay and the expiry stay; repeating an update leaves the entry as the
    first one made it. *)
Theorem subscription_update_last_wins topic (u1 u2 : JsObject) s p :
  Subscription.enabled s ->
  Subscription.entry s topic = Some p ->
  exists s1 s2 sequence2,
    Subscription.update topic u1 s = Subscription.Resolved tt s1 /\
    Subscription.update topic u2 s1 = Subscription.Resolved tt s2 /\
    Subscription.entry s2 topic =
      Some {| params_topic := topic; params_sequence := sequence2;
              params_relay := params_relay p; params_expiry := params_expiry p |} /\
    (forall k, sequence2 !! k =
               match u2 !! k with
               | Some v => Some v
               | None =>
                   match u1 !! k with
                   | Some v => Some v
                   | None => params_sequence p !! k
                   end
               end) /\
    (u1 = u2 -> Subscription.entry s2 topic = Subscription.entry s1 topic).
Proof.
  intros Hen Hp.
  set (p1 := {| params_topic := topic;
                params_sequence := spread (params_sequence p) u1;
                params_relay := params_relay p;
                params_expiry := params_expiry p |}).
  set (s1 := Subscription.emit
               (Updated Subscription.getSubscriptionEventTag topic
                  (spread (params_sequence p) u1) u1)
               (Subscription.with_subscriptions (JsMap.set topic p1) s)).
  assert (Subscription.enabled s1) as Hen1 by done.
  assert (Subscription.entry s1 topic = Some p1) as Hp1
    by (unfold Subscription.entry; cbn; apply get_set_eq).
  exists s1. eexists _, (spread (spread (params_sequence p) u1) u2).
  split; [by apply update_present|].
  split; [by apply (update_present _ _ _ p1)|].
  split; [|split].
  - unfold Subscription.entry. cbn. apply get_set_eq.
  - intros k. by rewrite !spread_object_lookup.
  - intros ->. rewrite Hp1. unfold Subscription.entry. cbn. rewrite get_set_eq.
    subst p1. f_equal. f_equal. apply map_eq. intros k.
    rewrite spread_object_lookup, !lookup_union.
    by destruct (u2 !! k), (params_sequence p !! k).
Qed.
End ObjectStoreCallFacts.

(** Setting again the topic [t], with another field and another expiry. *)
Lemma subscription_set_present_merges_witness :
  exists s1 merged,
    Subscription.set (SE := Samples.store_env) 0 "t" {[ "b" := JNum 2 ]}
      (Samples.expires_at 9999) (Samples.store_with_t 8000) =
      Subscription.Resolved tt s1 /\
    Subscription.entry (Subscription.run_jobs (SE := Samples.store_env) s1) "t" =
      Some {| SubscriptionTypes.params_topic := "t";
              SubscriptionTypes.params_sequence := merged;
              SubscriptionTypes.params_relay := Samples.waku;
              SubscriptionTypes.params_expiry := 8000 |} /\
    merged !! "a" = Some (JNum 1) /\ merged !! "b" = Some (JNum 2).
Proof.
  destruct (subscription_set_present_merges (SE := Samples.store_env) 0 "t"
              {[ "b" := JNum 2 ]} (Samples.expires_at 9999) (Samples.store_with_t 8000)
              {| SubscriptionTypes.params_topic := "t";
                 SubscriptionTypes.params_sequence := Samples.sequence_a;
                 SubscriptionTypes.params_relay := Samples.waku;
                 SubscriptionTypes.params_expiry := 8000 |})
    as (s1 & merged & Hset & _ & Hentry & Hmerged & _); [reflexivity..|].
  exists s1, merged. rewrite !Hmerged. by repeat split.
Defined.

(** Updating the field [a] of the topic [t] twice. *)
Lemma subscription_update_last_wins_witness :
  exists s1 s2 sequence2,
    Subscription.update (SE := Samples.store_env) "t" {[ "a" := JNum 2 ]}
      (Samples.store_with_t 8000) = Subscription.Resolved tt s1 /\
    Subscription.update (SE := Samples.store_env) "t" {[ "a" := JNum 3 ]} s1 =
      Subscription.Resolved tt s2 /\
    Subscription.entry s2 "t" =
      Some {| SubscriptionTypes.params_topic := "t";
              SubscriptionTypes.params_sequence := sequence2;
              SubscriptionTypes.params_relay := Samples.waku;
              SubscriptionTypes.params_expiry := 8000 |} /\
    sequence2 !! "a" = Some (JNum 3).
Proof.
  destruct (subscription_update_last_wins (SE := Samples.store_env) "t"
              {[ "a" := JNum 2 ]} {[ "a" := JNum 3 ]} (Samples.store_with_t 8000)
              {| SubscriptionTypes.params_topic := "t";
                 SubscriptionTypes.params_sequence := Samples.sequence_a;
                 SubscriptionTypes.params_relay := Samples.waku;
                 SubscriptionTypes.params_expiry := 8000 |})
    as (s1 & s2 & sequence2 & H1 & H2 & Hentry & Hseq & _); [reflexivity..|].
  exists s1, s2, sequence2. rewrite Hseq. by repeat split.
Defined.

(** ** Subscription store: what every sequence of calls keeps *)

Section StoreInvariantFacts.
Context {Sequence Update : Type} {SP : Spread Sequence Update} {SE : StoreEnv}.
Import SubscriptionTypes.
Implicit Types (s : Subscription.State Sequence Update) (topic : string).

Lemma timer_step_eq s s' :
  Subscription.timeout s' = Subscription.timeout s ->
  Subscription.timers s' = Subscription.timers s ->
  Subscription.next_timer s' = Subscription.next_timer s ->
  Subscription.timer_step s s'.
Proof.
  intros Ht Hm Hn. unfold Subscription.timer_step. rewrite Ht, Hm, Hn.
  split; [done|]. split; [done|]. split; [by left | by left].
Qed.

Lemma timer_step_refl s : Subscription.timer_step s s.
Proof. by apply timer_step_eq. Qed.

Lemma timer_step_trans s1 s2 s3 :
  Subscription.timer_step s1 s2 -> Subscription.timer_step s2 s3 ->
  Subscription.timer_step s1 s3.
Proof.
  intros (Hrec12 & Hle12 & Hnew12 & Hfresh12) (Hrec23 & Hle23 & Hnew23 & Hfresh23).
  split; [|split; [|split]].
  - intros t h Hh. by apply Hrec23, Hrec12.
  - lia.
  - intros h t d Hh. destruct (Hnew23 h t d Hh) as [Hold | [Hge Hrec]].
    + destruct (Hnew12 h t d Hold) as [Hold' | [Hge Hrec]]; [by left|].
      right. split; [done|]. by apply Hrec23.
    + right. split; [lia | done].
  - intros t h Hh. destruct (Hfresh23 t h Hh) as [Hold | Hnew].
    + destruct (Hfresh12 t h Hold) as [Hold' | Hnew]; [by left|]. right. lia.
    + right. lia.
Qed.

Lemma timer_step_consistent s s' :
  Subscription.timer_step s s' ->
  Subscription.timers_consistent s -> Subscription.timers_consistent s'.
Proof.
  intros (Hrec & Hle & Hnew & Hfresh) [Hlive Hbound]. split.
  - intros h t d Hh. destruct (Hnew h t d Hh) as [Hold | [_ Hr]]; [|done].
    apply Hrec. by eapply Hlive.
  - intros t h Hh. destruct (Hfresh t h Hh) as [Hold | Hnew']; [|lia].
    apply Hbound in Hold. lia.
Qed.

(** Clearing or firing timers. *)
Lemma timer_step_shrink s s' :
  Subscription.timeout s' = Subscription.timeout s ->
  Subscription.next_timer s' = Subscription.next_timer s ->
  (forall h v, Subscription.timers s' !! h = Some v -> Subscription.timers s !! h = Some v) ->
  Subscription.timer_step s s'.
Proof.
  intros Ht Hn Hsub. unfold Subscription.timer_step. rewrite Ht, Hn.
  split; [done|]. split; [done|]. split; [|by left].
  intros h t d Hh. left. by apply Hsub.
Qed.

Lemma start_timer_step s j : Subscription.timer_step s (Subscription.start j s).
Proof. apply timer_step_eq; unfold Subscription.start; by destruct (Subscription.cached s). Qed.

Lemma deleteTimeout_timer_step s topic :
  Subscription.timer_step s (Subscription.deleteTimeout topic s).
Proof.
  unfold Subscription.deleteTimeout.
  destruct (Subscription.timeout s !! topic) as [h|]; [|apply timer_step_refl].
  apply timer_step_shrink; [done | done |].
  intros h' v Hh. cbn in Hh. by apply lookup_delete_Some in Hh as [_ Hh].
Qed.

Lemma onTimeout_timer_step s topic :
  Subscription.timer_step s (Subscription.onTimeout topic s).
Proof.
  unfold Subscription.onTimeout.
  eapply timer_step_trans; [apply deleteTimeout_timer_step | apply start_timer_step].
Qed.

Lemma setTimeout_timer_step s now topic expiry :
  Subscription.timer_step s (Subscription.setTimeout now topic expiry s).
Proof.
  unfold Subscription.setTimeout.
  destruct (Subscription.timeout s !! topic) as [h|] eqn:Hrec; [apply timer_step_refl|].
  destruct (expiry - now <=? 0).
  - apply onTimeout_timer_step.
  - destruct (expiry - now >? Subscription.CLIENT_BEAT_INTERVAL); [apply timer_step_refl|].
    split; [|split; [|split]]; cbn.
    + intros t h Hh. rewrite lookup_insert_ne; [done | congruence].
    + lia.
    + intros h t d Hh. destruct (decide (h = Subscription.next_timer s)) as [-> | Hne].
      * rewrite lookup_insert_eq in Hh. injection Hh as <- <-.
        right. split; [lia|]. by rewrite lookup_insert_eq.
      * rewrite lookup_insert_ne in Hh by done. by left.
    + intros t h Hh. destruct (decide (t = topic)) as [-> | Hne].
      * rewrite lookup_insert_eq in Hh. injection Hh as <-. right. lia.
      * rewrite lookup_insert_ne in Hh by done. by left.
Qed.

Lemma fire_timer_step s handle :
  Subscription.timer_step s (Subscription.fire handle s).
Proof.
  unfold Subscription.fire.
  destruct (Subscription.timers s !! handle) as [[topic delay]|]; [|apply timer_step_refl].
  eapply timer_step_trans; [|apply onTimeout_timer_step].
  apply timer_step_shrink; [done | done |].
  intros h v Hh. cbn in Hh. by apply lookup_delete_Some in Hh as [_ Hh].
Qed.

Lemma emit_timer_step ev s : Subscription.timer_step s (Subscription.emit ev s).
Proof. apply timer_step_eq; by destruct ev. Qed.

Lemma subscribeAndSet_timer_step s now topic sequence opts :
  Subscription.timer_step s (Subscription.subscribeAndSet now topic sequence opts s).
Proof.
  unfold Subscription.subscribeAndSet.
  eapply timer_step_trans; [|apply setTimeout_timer_step]. by apply timer_step_eq.
Qed.

Lemma set_timer_step s now topic sequence opts :
  Subscription.timer_step s
    (Subscription.state_of (Subscription.set now topic sequence opts s)).
Proof.
  unfold Subscription.set, Subscription.bind, Subscription.isEnabled.
  destruct (Subscription.cached s) eqn:Hcached; [|apply timer_step_refl].
  destruct (JsMap.has topic (Subscription.subscriptions s)); cbn.
  - apply timer_step_eq; unfold Subscription.start; by rewrite Hcached.
  - eapply timer_step_trans; [apply subscribeAndSet_timer_step|].
    apply (emit_timer_step (Created Subscription.getSubscriptionEventTag topic sequence)).
Qed.

Lemma get_same s topic :
  Subscription.timer_step s (Subscription.state_of (Subscription.get topic s)) /\
  Subscription.subscriptions (Subscription.state_of (Subscription.get topic s)) =
    Subscription.subscriptions s.
Proof.
  destruct (Subscription.cached s) eqn:Hcached.
  - destruct (Subscription.entry s topic) as [p|] eqn:Hp.
    + rewrite (store_get_present _ _ p) by done. split; [apply timer_step_refl | done].
    + rewrite store_get_absent by done. split; [by apply timer_step_eq | done].
  - unfold Subscription.get, Subscription.bind, Subscription.isEnabled.
    rewrite Hcached. split; [apply timer_step_refl | done].
Qed.

Lemma update_timer_step s topic upd :
  Subscription.timer_step s (Subscription.state_of (Subscription.update topic upd s)).
Proof.
  destruct (Subscription.cached s) eqn:Hcached.
  - destruct (Subscription.entry s topic) as [p|] eqn:Hp.
    + rewrite (update_present _ _ _ p) by done. by apply timer_step_eq.
    + rewrite update_absent by done. by apply timer_step_eq.
  - unfold Subscription.update, Subscription.bind, Subscription.isEnabled.
    rewrite Hcached. apply timer_step_refl.
Qed.

Lemma delete_timer_step s topic reason :
  Subscription.timer_step s (Subscription.state_of (Subscription.delete topic reason s)).
Proof.
  destruct (Subscription.cached s) eqn:Hcached.
  - destruct (Subscription.entry s topic) as [p|] eqn:Hp.
    + rewrite (delete_present _ _ _ p) by done. by apply timer_step_eq.
    + rewrite delete_absent by done. by apply timer_step_eq.
  - unfold Subscription.delete, Subscription.bind, Subscription.isEnabled.
    rewrite Hcached. apply timer_step_refl.
Qed.

Lemma update_well_formed s topic upd :
  Subscription.well_formed s ->
  Subscription.well_formed (Subscription.state_of (Subscription.update topic upd s)).
Proof.
  intros Hwf. destruct (Subscription.cached s) eqn:Hcached.
  - destruct (Subscription.entry s topic) as [p|] eqn:Hp.
    + rewrite (update_present _ _ _ p) by done. by apply (well_formed_set s topic).
    + by rewrite update_absent.
  - unfold Subscription.update, Subscription.bind, Subscription.isEnabled.
    by rewrite Hcached.
Qed.

Lemma delete_well_formed s topic reason :
  Subscription.well_formed s ->
  Subscription.well_formed (Subscription.state_of (Subscription.delete topic reason s)).
Proof.
  intros Hwf. destruct (Subscription.cached s) eqn:Hcached.
  - destruct (Subscription.entry s topic) as [p|] eqn:Hp.
    + rewrite (delete_present _ _ _ p) by done. by apply (well_formed_delete s topic).
    + by rewrite delete_absent.
  - unfold Subscription.delete, Subscription.bind, Subscription.isEnabled.
    by rewrite Hcached.
Qed.

Lemma settle_timer_step s j : Subscription.timer_step s (Subscription.settle s j).
Proof.
  unfold Subscription.settle. destruct j as [topic upd | topic reason | ]; cbn.
  - pose proof (update_timer_step s topic upd) as H.
    by destruct (Subscription.update topic upd s) as [[] s' | e s' | s'].
  - pose proof (delete_timer_step s topic reason) as H.
    by destruct (Subscription.delete topic reason s) as [[] s' | e s' | s'].
  - by apply timer_step_eq.
Qed.

Lemma fold_timer_step {A : Type} (f : Subscription.State Sequence Update -> A ->
                                      Subscription.State Sequence Update)
    (l : list A) s :
  (forall acc a, Subscription.timer_step acc (f acc a)) ->
  Subscription.timer_step s (fold_left f l s).
Proof.
  intros Hf. revert s. induction l as [|a l IH]; intros s; [apply timer_step_refl|].
  cbn. eapply timer_step_trans; [apply Hf | apply IH].
Qed.

Lemma run_jobs_timer_step s : Subscription.timer_step s (Subscription.run_jobs s).
Proof.
  unfold Subscription.run_jobs.
  eapply timer_step_trans; [|apply fold_timer_step; apply settle_timer_step].
  by apply timer_step_eq.
Qed.

Lemma checkSubscriptions_timer_step s now :
  Subscription.timer_step s (Subscription.checkSubscriptions now s).
Proof.
  unfold Subscription.checkSubscriptions. apply fold_timer_step.
  intros acc e. apply setTimeout_timer_step.
Qed.

Lemma init_timer_step s read now :
  Subscription.timer_step s (Subscription.state_of (Subscription.init read now s)).
Proof.
  unfold Subscription.init, Subscription.restore, Subscription.try_catch.
  destruct read as [e | [[|first rest] | ]]; try apply timer_step_refl.
  - by apply timer_step_eq.
  - destruct (Subscription.subscriptions s) eqn:Hsubs; cbn.
    + eapply timer_step_trans; [|apply (emit_timer_step Enabled)].
      eapply timer_step_trans;
        [|eapply timer_step_trans;
           [apply (fold_timer_step (Subscription.restore_each now) (first :: rest))|]].
      * by apply (timer_step_eq s (Subscription.with_cached (first :: rest) s)).
      * intros acc sub. apply subscribeAndSet_timer_step.
      * by apply timer_step_eq.
    + by apply timer_step_eq.
Qed.

Lemma call_timer_step s c : Subscription.timer_step s (Subscription.call s c).
Proof.
  destruct c; cbn.
  - apply init_timer_step.
  - apply set_timer_step.
  - apply get_same.
  - apply update_timer_step.
  - apply delete_timer_step.
  - apply checkSubscriptions_timer_step.
  - apply fire_timer_step.
  - apply run_jobs_timer_step.
Qed.

Lemma call_well_formed s c :
  Subscription.well_formed s -> Subscription.well_formed (Subscription.call s c).
Proof.
  intros Hwf. destruct c; cbn.
  - by apply init_well_formed.
  - by apply set_well_formed.
  - eapply well_formed_ext; [apply get_same | done].
  - by apply update_well_formed.
  - by apply delete_well_formed.
  - by apply checkSubscriptions_well_formed.
  - by apply fire_well_formed.
  - by apply run_jobs_well_formed.
Qed.

Lemma calls_timer_step cs s : Subscription.timer_step s (Subscription.calls cs s).
Proof. apply fold_timer_step. apply call_timer_step. Qed.

Lemma calls_well_formed cs s :
  Subscription.well_formed s -> Subscription.well_formed (Subscription.calls cs s).
Proof.
  unfold Subscription.calls. revert s.
  induction cs as [|c cs IH]; intros s Hwf; [done|].
  cbn [fold_left]. by apply IH, call_well_formed.
Qed.

(** X7. Whatever is called on a store, in whatever order (init, set, get,
    update, delete, beats, timers firing, queued calls running): the map
    keeps at most one entry per topic, each filed under its own topic;
    every timer still to fire is the one whose handle is recorded for its
    topic, so a topic never has two live timers. *)
Theorem subscription_calls_keep_invariants cs s :
  Subscription.well_formed s ->
  Subscription.timers_consistent s ->
  let s' := Subscription.calls cs s in
  Subscription.well_formed s' /\
  Subscription.timers_consistent s' /\
  (forall h1 h2 topic d1 d2,
      Subscription.timers s' !! h1 = Some (topic, d1) ->
      Subscription.timers s' !! h2 = Some (topic, d2) ->
      h1 = h2).
Proof.
  intros Hwf Htc. cbn zeta.
  assert (Subscription.timers_consistent (Subscription.calls cs s)) as Htc'
    by (eapply timer_step_consistent; [apply calls_timer_step | done]).
  split; [|split; [done|]].
  - by apply calls_well_formed.
  - destruct Htc' as [Hlive _]. intros h1 h2 topic d1 d2 H1 H2.
    apply Hlive in H1, H2. congruence.
Qed.
End StoreInvariantFacts.

Lemma init_state_timers_consistent
    {Sequence Update : Type} :
  Subscription.timers_consistent (Subscription.init_state (Sequence := Sequence) (Update := Update)).
Proof. split; intros *; cbn; by rewrite lookup_empty. Qed.

Lemma subscription_calls_keep_invariants_witness :
  let s' := Subscription.calls (SE := Samples.store_env)
              [Subscription.CSet 0 "t" Samples.sequence_a (Samples.expires_at 1000);
               Subscription.CFire 0%nat;
               Subscription.CRun]
              Samples.empty_store in
  Subscription.well_formed s' /\
  Subscription.timers_consistent s' /\
  (forall h1 h2 topic d1 d2,
      Subscription.timers s' !! h1 = Some (topic, d1) ->
      Subscription.timers s' !! h2 = Some (topic, d2) ->
      h1 = h2).
Proof.
  apply (subscription_calls_keep_invariants (SE := Samples.store_env)).
  - apply init_state_well_formed.
  - apply init_state_timers_consistent.
Defined.

Section StoreTimerFacts.
Context {Sequence Update : Type} {SP : Spread Sequence Update} {SE : StoreEnv}.
Implicit Types (s : Subscription.State Sequence Update) (topic : string).

(** X8. Once a handle is recorded for a topic and its timer is gone (it
    fired, or it was cleared), no later call arms a timer for that topic
    again: [setTimeout] returns early on the recorded handle, which nothing
    removes from [this.timeout]. *)
Theorem subscription_topic_never_rearmed cs s topic handle :
  Subscription.timers_consistent s ->
  Subscription.timeout s !! topic = Some handle ->
  Subscription.timers s !! handle = None ->
  let s' := Subscription.calls cs s in
  Subscription.timeout s' !! topic = Some handle /\
  (forall h delay, Subscription.timers s' !! h <> Some (topic, delay)).
Proof.
  intros [Hlive Hbound] Hrec Hgone. cbn zeta.
  destruct (calls_timer_step cs s) as (Hkeep & _ & Hnew & _).
  split; [by apply Hkeep|].
  intros h d Hh. destruct (Hnew h topic d Hh) as [Hold | [Hge Hrec']].
  - pose proof (Hlive _ _ _ Hold) as Hh'. congruence.
  - pose proof (Hkeep _ _ Hrec) as Hrec''.
    assert (h = handle) as -> by (rewrite Hrec' in Hrec''; by injection Hrec'').
    apply Hbound in Hrec. lia.
Qed.
End StoreTimerFacts.

Lemma subscription_topic_never_rearmed_witness :
  let s := Subscription.fire (SE := Samples.store_env) 0%nat (Samples.store_with_t 1000) in
  let s' := Subscription.calls (SE := Samples.store_env)
              [Subscription.CRun;
               Subscription.CSet 2000 "t" Samples.sequence_a (Samples.expires_at 3000);
               Subscription.CBeat 2500]
              s in
  Subscription.timers_consistent s /\
  Subscription.timeout s !! "t" = Some 0%nat /\
  Subscription.timers s !! 0%nat = None /\
  Subscription.entry s' "t" <> None /\
  Subscription.timeout s' !! "t" = Some 0%nat /\
  (forall h delay, Subscription.timers s' !! h <> Some ("t", delay)).
Proof.
  cbn zeta.
  assert (Subscription.timers_consistent
            (Subscription.fire (SE := Samples.store_env) 0%nat (Samples.store_with_t 1000)))
    as Htc.
  { eapply timer_step_consistent; [apply fire_timer_step|].
    eapply timer_step_consistent; [apply run_jobs_timer_step|].
    eapply timer_step_consistent; [apply set_timer_step|].
    apply init_state_timers_consistent. }
  split; [exact Htc|]. split; [by vm_compute|]. split; [by vm_compute|].
  split; [by vm_compute|].
  apply (subscription_topic_never_rearmed (SE := Samples.store_env)); [exact Htc | |];
    by vm_compute.
Defined.

(** ** Subscription store: restoring what was persisted *)

Section RestoreRoundTrip.
Context {Sequence Update : Type} {SP : Spread Sequence Update} {SE : StoreEnv}.
Import SubscriptionTypes.
Implicit Types (s : Subscription.State Sequence Update) (topic : string).

Lemma set_absent_app {V : Type} k (v : V) m :
  k ∉ JsMap.keys m -> JsMap.set k v m = (m ++ [(k, v)])%list.
Proof.
  unfold JsMap.keys. induction m as [|[k0 v0] m IH]; cbn; [done|].
  rewrite not_elem_of_cons. intros [Hne Hnot].
  destruct (String.eqb k0 k) eqn:E.
  - apply String.eqb_eq in E. congruence.
  - by rewrite IH.
Qed.

Lemma restore_each_frame now s p :
  let s' := Subscription.restore_each now s p in
  Subscription.subscriptions s' =
    JsMap.set (params_topic p)
      {| params_topic := params_topic p; params_sequence := params_sequence p;
         params_relay := params_relay p;
         params_expiry :=
           or_number (Some (params_expiry p)) (now + SUBSCRIPTION_DEFAULT_TTL * 1000) |}
      (Subscription.subscriptions s) /\
  Subscription.emitted s' = Subscription.emitted s /\
  Subscription.errors s' = Subscription.errors s /\
  Subscription.persisted s' = Subscription.persisted s.
Proof.
  cbn zeta. unfold Subscription.restore_each, Subscription.subscribeAndSet. cbn [expiry relay].
  set (e := or_number _ _). set (param := Build_SubscriptionParams _ _ _ _ _).
  by destruct (setTimeout_frame
                 (Subscription.with_subscriptions (JsMap.set (params_topic p) param) s)
                 now (params_topic p) e) as (-> & _ & -> & -> & -> & _).
Qed.

Lemma restore_fold now l s :
  NoDup (Subscription.topics s ++ (params_topic <$> l)) ->
  (forall p, p ∈ l -> params_expiry p <> 0) ->
  let s' := fold_left (Subscription.restore_each now) l s in
  Subscription.subscriptions s' =
    (Subscription.subscriptions s ++ ((fun p => (params_topic p, p)) <$> l))%list /\
  Subscription.emitted s' = Subscription.emitted s /\
  Subscription.errors s' = Subscription.errors s /\
  Subscription.persisted s' = Subscription.persisted s.
Proof.
  cbn zeta. revert s. induction l as [|p l IH]; intros s Hnd Hexp.
  - cbn. by rewrite app_nil_r.
  - cbn [fold_left].
    destruct (restore_each_frame now s p) as (Hsubs & Hem & Herr & Hper). cbn zeta in Hsubs.
    assert (params_topic p ∉ Subscription.topics s) as Hfresh.
    { cbn in Hnd. apply NoDup_app in Hnd as (_ & Hdisj & _).
      intros Hin. apply (Hdisj _ Hin). apply elem_of_cons. by left. }
    assert (or_number (Some (params_expiry p)) (now + SUBSCRIPTION_DEFAULT_TTL * 1000) =
            params_expiry p) as Hor.
    { unfold or_number. destruct (Z.eqb_spec (params_expiry p) 0) as [E|]; [|done].
      exfalso. apply (Hexp p); [apply elem_of_cons; by left | done]. }
    rewrite Hor, set_absent_app in Hsubs by done.
    assert ({| params_topic := params_topic p; params_sequence := params_sequence p;
               params_relay := params_relay p; params_expiry := params_expiry p |} = p)
      as Heta by (by destruct p).
    rewrite Heta in Hsubs.
    destruct (IH (Subscription.restore_each now s p)) as (-> & -> & -> & ->).
    + unfold Subscription.topics, JsMap.keys in *. rewrite Hsubs, fmap_app. cbn.
      by rewrite <- app_assoc.
    + intros q Hq. apply Hexp, elem_of_cons. by right.
    + rewrite Hsubs, Hem, Herr, Hper, <- app_assoc. done.
Qed.

(** X9. Restoring what a store persisted: when the storage holds the
    values of a well-formed store (at least one, none with expiry 0), [init]
    on a store with an empty map resolves with the same map, entry by
    entry and in the same order; the store is enabled, and [enabled] is the
    only event emitted; nothing is logged and nothing is written back. *)
Theorem subscription_restore_round_trip now s0 s :
  Subscription.well_formed s0 ->
  Subscription.values s0 <> [] ->
  (forall p, p ∈ Subscription.values s0 -> params_expiry p <> 0) ->
  Subscription.subscriptions s = [] ->
  exists s',
    Subscription.init (Item (Some (Subscription.values s0))) now s =
      Subscription.Resolved tt s' /\
    Subscription.subscriptions s' = Subscription.subscriptions s0 /\
    Subscription.enabled s' /\
    Subscription.emitted s' = (Subscription.emitted s ++ [Enabled])%list /\
    Subscription.errors s' = Subscription.errors s /\
    Subscription.persisted s' = Subscription.persisted s.
Proof.
  intros Hwf Hne Hexp Hempty.
  assert (NoDup (params_topic <$> Subscription.values s0)) as Hnd.
  { unfold Subscription.values, JsMap.values. rewrite <- list_fmap_compose.
    pose proof (entry_topics_keys s0 Hwf) as Hkeys. cbn in Hkeys.
    change (params_topic ∘ snd <$> Subscription.subscriptions s0)
      with ((fun e => params_topic e.2) <$> Subscription.subscriptions s0).
    rewrite Hkeys. by destruct Hwf as [Hnd _]. }
  assert ((fun p => (params_topic p, p)) <$> Subscription.values s0 =
          Subscription.subscriptions s0) as Hzip.
  { unfold Subscription.values, JsMap.values. rewrite <- list_fmap_compose.
    destruct Hwf as [_ Hkey].
    induction (Subscription.subscriptions s0) as [|[k p] m IH]; [done|].
    cbn. rewrite IH.
    - f_equal. f_equal. apply Hkey, elem_of_cons. by left.
    - intros k' p' Hin. apply Hkey, elem_of_cons. by right. }
  unfold Subscription.init, Subscription.restore, Subscription.try_catch.
  destruct (Subscription.values s0) as [|first rest] eqn:Hvals; [done|].
  rewrite Hempty. eexists. split; [reflexivity|].
  cbn [Subscription.cached Subscription.with_cached].
  destruct (restore_fold now (first :: rest)
              (Subscription.with_cached (first :: rest) s))
    as (Hsubs & Hem & Herr & Hper).
  - unfold Subscription.topics. cbn [Subscription.subscriptions Subscription.with_cached].
    rewrite Hempty. exact Hnd.
  - done.
  - cbn zeta in Hsubs. cbn [Subscription.subscriptions Subscription.with_cached] in Hsubs.
    rewrite Hempty, Hzip in Hsubs. cbn [app] in Hsubs.
    cbn zeta in Hem, Herr, Hper.
    unfold Subscription.enable, Subscription.enabled.
    remember (fold_left (Subscription.restore_each now) (first :: rest)
                (Subscription.with_cached (first :: rest) s)) as s2.
    split; [|split; [done|split; [|split]]].
    + exact Hsubs.
    + cbn. by rewrite Hem.
    + cbn. by rewrite Herr.
    + cbn. by rewrite Hper.
Qed.
End RestoreRoundTrip.

(** A fresh store restores what the store holding [t] persisted. *)
Lemma subscription_restore_round_trip_witness :
  Subscription.persisted (Samples.store_with_t 8000) =
    Some (Subscription.values (Samples.store_with_t 8000)) /\
  exists s',
    Subscription.init (SE := Samples.store_env)
      (SubscriptionTypes.Item (Some (Subscription.values (Samples.store_with_t 8000))))
      5000 Samples.empty_store = Subscription.Resolved tt s' /\
    Subscription.subscriptions s' = Subscription.subscriptions (Samples.store_with_t 8000) /\
    Subscription.enabled s' /\
    Subscription.emitted s' =
      (Subscription.emitted Samples.empty_store ++ [SubscriptionTypes.Enabled])%list /\
    Subscription.errors s' = Subscription.errors Samples.empty_store /\
    Subscription.persisted s' = Subscription.persisted Samples.empty_store.
Proof.
  split; [by vm_compute|].
  apply (subscription_restore_round_trip (SE := Samples.store_env)).
  - apply run_jobs_well_formed, set_well_formed, init_state_well_formed.
  - by vm_compute.
  - intros p Hp. vm_compute in Hp. apply list_elem_of_singleton in Hp as ->. by vm_compute.
  - reflexivity.
Defined.

(** ** Relayer: subscribing and unsubscribing *)

Section RelayerCallFacts.
Context {Payload : Type} {RE : RelayerEnv Payload}.
Import RelayerTypes.
Implicit Types (s : Relayer.State) (topic : string).

Lemma unsubscribe_step_refl topic s : Relayer.unsubscribe_step topic s s.
Proof.
  repeat split; try done. exists []. by rewrite app_nil_r.
Qed.

Lemma unsubscribe_step_trans topic s1 s2 s3 :
  Relayer.unsubscribe_step topic s1 s2 -> Relayer.unsubscribe_step topic s2 s3 ->
  Relayer.unsubscribe_step topic s1 s3.
Proof.
  intros (Ho1 & Hin1 & Hn1 & Hl1 & r1 & Hs1 & Hf1) (Ho2 & Hin2 & Hn2 & Hl2 & r2 & Hs2 & Hf2).
  split; [|split; [|split; [|split]]].
  - intros t Hne. by rewrite Ho2, Ho1.
  - auto.
  - auto.
  - set_solver.
  - exists (r1 ++ r2)%list. split.
    + by rewrite Hs2, Hs1, <- app_assoc.
    + by apply Forall_app.
Qed.

Lemma unsubscribeId_step topic id opts s :
  Relayer.unsubscribe_step topic s (snd (Relayer.unsubscribeId topic id opts s)).
Proof.
  unfold Relayer.unsubscribeId, Relayer.request.
  destruct (Relayer.getRelayProtocolJsonRpc _) as [jsonRpc|e]; [|apply unsubscribe_step_refl].
  cbn. set (req := RelayJsonRpc.Build_Request _ _).
  assert (exists reqs,
             (Relayer.sent s ++ [req])%list = (Relayer.sent s ++ reqs)%list /\
             Forall (fun r => exists id, RelayJsonRpc.params r =
                                         RelayJsonRpc.UnsubscribeParams id) reqs) as Hsent.
  { exists [req]. split; [done|]. apply Forall_singleton. by exists id. }
  destruct (provider_request req) as [v|e]; cbn.
  - destruct (Relayer.subscriptions s !! topic) as [ids|] eqn:Hids; cbn.
    + split; [|split; [|split; [|split]]]; cbn.
      * intros t Hne. by rewrite lookup_insert_ne.
      * unfold Relayer.ids_of. cbn. rewrite lookup_insert_eq, Hids. cbn.
        intros x Hx. by apply filter_In in Hx as [Hx _].
      * by rewrite Hids.
      * by apply subseteq_difference_l.
      * exact Hsent.
    + split; [|split; [|split; [|split]]]; cbn.
      * done.
      * done.
      * done.
      * by apply subseteq_difference_l.
      * exact Hsent.
  - split; [|split; [|split; [|split]]]; cbn; [done | done | done | done | exact Hsent].
Qed.

Lemma unsubscribeAll_step topic ids opts s :
  Relayer.unsubscribe_step topic s (snd (Relayer.unsubscribeAll topic ids opts s)).
Proof.
  revert s. induction ids as [|id ids IH]; intros s; [apply unsubscribe_step_refl|].
  cbn. pose proof (unsubscribeId_step topic id opts s) as Hid.
  destruct (Relayer.unsubscribeId topic id opts s) as [[[]|e] s1]; cbn in *;
    (eapply unsubscribe_step_trans; [exact Hid | apply IH]).
Qed.

(** X10. [unsubscribe] never adds: whatever the options and the answers
    of the relay, the other topics keep their ids, the topic gets no id it
    did not have and no entry if it had none, no listener is added, and
    the requests handed to the provider are unsubscribe requests put after
    those already sent. *)
Theorem relayer_unsubscribe_never_adds topic opts s :
  let s' := snd (Relayer.unsubscribe topic opts s) in
  (forall t, t <> topic -> Relayer.subscriptions s' !! t = Relayer.subscriptions s !! t) /\
  (forall x, In x (Relayer.ids_of s' topic) -> In x (Relayer.ids_of s topic)) /\
  (Relayer.subscriptions s !! topic = None -> Relayer.subscriptions s' !! topic = None) /\
  Relayer.listeners s' ⊆ Relayer.listeners s /\
  exists reqs,
    Relayer.sent s' = (Relayer.sent s ++ reqs)%list /\
    Forall (fun r => exists id, RelayJsonRpc.params r = RelayJsonRpc.UnsubscribeParams id) reqs.
Proof.
  cbn zeta. change (Relayer.unsubscribe_step topic s (snd (Relayer.unsubscribe topic opts s))).
  unfold Relayer.unsubscribe. destruct (opts ≫= id) as [i|].
  - apply unsubscribeId_step.
  - destruct (Relayer.subscriptions s !! topic) as [ids|].
    + apply unsubscribeAll_step.
    + apply unsubscribe_step_refl.
Qed.
End RelayerCallFacts.

Lemma relayer_unsubscribe_never_adds_witness :
  let s := Samples.relayer_two_topics in
  let s' := snd (Relayer.unsubscribe (RE := Samples.relayer_env) "t"
                   (Some Samples.unsubscribe_topic) s) in
  Relayer.subscriptions s' !! "u" = Some ["c"] /\
  (forall x, In x (Relayer.ids_of s' "t") -> In x ["a"; "b"]) /\
  Relayer.listeners s' ⊆ Relayer.listeners s.
Proof.
  cbn zeta.
  destruct (relayer_unsubscribe_never_adds (RE := Samples.relayer_env) "t"
              (Some Samples.unsubscribe_topic) Samples.relayer_two_topics)
    as (Hother & Hin & _ & Hl & _).
  split; [|split; [exact Hin | exact Hl]].
  rewrite Hother; [reflexivity | discriminate].
Defined.

Section RelayerTopicFacts.
Context {Payload : Type} {RE : RelayerEnv Payload}.
Import RelayerTypes.
Implicit Types (s : Relayer.State) (topic : string).

Lemma filter_filter_and {A : Type} (f g : A -> bool) (l : list A) :
  List.filter g (List.filter f l) = List.filter (fun x => f x && g x) l.
Proof.
  induction l as [|a l IH]; [done|]. cbn.
  destruct (f a); cbn; [|done]. destruct (g a); by rewrite IH.
Qed.

Lemma unsubscribeAll_ids topic ids opts s jsonRpc cur :
  Relayer.getRelayProtocolJsonRpc
    (or_string (protocol <$> (unsubscribe_relay <$> opts))
       Relayer.RELAYER_DEFAULT_PROTOCOL) = Ok jsonRpc ->
  (forall i, In i ids ->
     exists v, provider_request
       {| RelayJsonRpc.method := RelayJsonRpc.unsubscribe jsonRpc;
          RelayJsonRpc.params := RelayJsonRpc.UnsubscribeParams i |} = Ok v) ->
  Relayer.subscriptions s !! topic = Some cur ->
  let r := Relayer.unsubscribeAll topic ids opts s in
  fst r = Ok tt /\
  Relayer.subscriptions (snd r) !! topic =
    Some (List.filter (fun x => forallb (fun i => Relayer.same_id i x) ids) cur) /\
  Relayer.listeners (snd r) = Relayer.listeners s ∖ list_to_set ids /\
  Relayer.sent (snd r) =
    (Relayer.sent s ++
     List.map (fun i => {| RelayJsonRpc.method := RelayJsonRpc.unsubscribe jsonRpc;
                           RelayJsonRpc.params := RelayJsonRpc.UnsubscribeParams i |}) ids)%list.
Proof.
  intros Hproto. cbn zeta. revert s cur.
  induction ids as [|i ids IH]; intros s cur Hreq Hcur.
  - cbn. split; [done|]. split; [|split].
    + rewrite Hcur. f_equal. clear Hcur.
      induction cur as [|c cur IHc]; [done|]. cbn. by rewrite <- IHc.
    + cbn. by rewrite difference_empty_L.
    + by rewrite app_nil_r.
  - destruct (Hreq i) as [v Hv]; [by left|].
    cbn [Relayer.unsubscribeAll]. unfold Relayer.unsubscribeId, Relayer.request.
    rewrite Hproto. cbn. rewrite Hv, Hcur.
    match goal with
    | |- context [Relayer.unsubscribeAll topic ids opts ?s1] =>
        destruct (IH s1 (List.filter (Relayer.same_id i) cur))
          as (Hok & Hsubs & Hlis & Hsent)
    end.
    + intros j Hj. apply Hreq. by right.
    + cbn. by rewrite lookup_insert_eq.
    + destruct (Relayer.unsubscribeAll topic ids opts _) as [[[]|e] s2]; cbn in *; [|done].
      split; [done|]. split; [|split].
      * by rewrite Hsubs, filter_filter_and.
      * rewrite Hlis. cbn. by rewrite difference_difference_l_L.
      * by rewrite Hsent, <- app_assoc.
Qed.

(** X11. [unsubscribe(topic)] without an id, on a protocol of the relay
    table and a relay that accepts every request: one unsubscribe request
    goes out for each id held, in order, and the listener of each is
    removed; an id stays in the list of the topic exactly when it equals
    every id of the list, so a list with two different ids is emptied and
    a list with a single id is left as it was. *)
Theorem relayer_unsubscribe_topic topic opts s jsonRpc ids :
  opts ≫= id = None ->
  Relayer.getRelayProtocolJsonRpc
    (or_string (protocol <$> (unsubscribe_relay <$> opts))
       Relayer.RELAYER_DEFAULT_PROTOCOL) = Ok jsonRpc ->
  (forall i, In i ids ->
     exists v, provider_request
       {| RelayJsonRpc.method := RelayJsonRpc.unsubscribe jsonRpc;
          RelayJsonRpc.params := RelayJsonRpc.UnsubscribeParams i |} = Ok v) ->
  Relayer.subscriptions s !! topic = Some ids ->
  let r := Relayer.unsubscribe topic opts s in
  fst r = Ok tt /\
  Relayer.ids_of (snd r) topic =
    List.filter (fun x => forallb (fun i => Relayer.same_id i x) ids) ids /\
  (forall a b, In a ids -> In b ids -> a <> b -> Relayer.ids_of (snd r) topic = []) /\
  (forall a, ids = [a] -> Relayer.ids_of (snd r) topic = [a]) /\
  Relayer.listeners (snd r) = Relayer.listeners s ∖ list_to_set ids /\
  Relayer.sent (snd r) =
    (Relayer.sent s ++
     List.map (fun i => {| RelayJsonRpc.method := RelayJsonRpc.unsubscribe jsonRpc;
                           RelayJsonRpc.params := RelayJsonRpc.UnsubscribeParams i |}) ids)%list.
Proof.
  intros Hid Hproto Hreq Hids. cbn zeta. unfold Relayer.unsubscribe. rewrite Hid, Hids.
  destruct (unsubscribeAll_ids topic ids opts s jsonRpc ids Hproto Hreq Hids)
    as (Hok & Hsubs & Hlis & Hsent).
  assert (Relayer.ids_of (snd (Relayer.unsubscribeAll topic ids opts s)) topic =
          List.filter (fun x => forallb (fun i => Relayer.same_id i x) ids) ids) as Hof
    by (unfold Relayer.ids_of; by rewrite Hsubs).
  split; [done|]. split; [done|]. split; [|split; [|done]].
  - intros a b Ha Hb Hne. rewrite Hof.
    destruct (List.filter _ ids) as [|x rest] eqn:Hf; [done|]. exfalso.
    assert (In x (List.filter (fun x => forallb (fun i => Relayer.same_id i x) ids) ids))
      as Hx by (rewrite Hf; by left).
    apply filter_In in Hx as [_ Hall]. rewrite forallb_forall in Hall.
    pose proof (Hall a Ha) as Hxa. pose proof (Hall b Hb) as Hxb.
    unfold Relayer.same_id in *. apply String.eqb_eq in Hxa, Hxb. congruence.
  - intros a ->. rewrite Hof. cbn. unfold Relayer.same_id. by rewrite String.eqb_refl.
Qed.
End RelayerTopicFacts.

Lemma relayer_unsubscribe_topic_witness :
  let r := Relayer.unsubscribe (RE := Samples.relayer_env) "t"
             (Some Samples.unsubscribe_topic) Samples.relayer_two_topics in
  fst r = Ok tt /\
  Relayer.ids_of (snd r) "t" = [] /\
  Relayer.ids_of (snd r) "u" = ["c"] /\
  Relayer.listeners (snd r) = Relayer.listeners Samples.relayer_two_topics ∖ {[ "a"; "b" ]}.
Proof.
  cbn zeta.
  destruct (relayer_unsubscribe_topic (RE := Samples.relayer_env) "t"
              (Some Samples.unsubscribe_topic) Samples.relayer_two_topics
              {| RelayJsonRpc.publish := "waku_publish";
                 RelayJsonRpc.subscribe := "waku_subscribe";
                 RelayJsonRpc.subscription := "waku_subscription";
                 RelayJsonRpc.unsubscribe := "waku_unsubscribe" |}
              ["a"; "b"])
    as (Hok & _ & Htwo & _ & Hlis & _).
  - reflexivity.
  - reflexivity.
  - intros i _. by exists (JBool true).
  - reflexivity.
  - split; [exact Hok|]. split; [|split].
    + apply (Htwo "a" "b"); [by left | right; by left | discriminate].
    + reflexivity.
    + rewrite Hlis. by vm_compute.
Defined.

Section RelayerRequestFacts.
Context {Payload : Type} {RE : RelayerEnv Payload}.
Import RelayerTypes.
Implicit Types (s : Relayer.State) (topic : string).

(** X12. [subscribe] on a protocol of the relay table, the relay answering
    with an id: one subscribe request for the topic goes out, the id is
    returned, put last in the list of the topic and given a listener; the
    other topics keep their lists. *)
Theorem relayer_subscribe_appends topic opts s jsonRpc id :
  Relayer.getRelayProtocolJsonRpc
    (or_string (protocol <$> (subscribe_relay <$> opts))
       Relayer.RELAYER_DEFAULT_PROTOCOL) = Ok jsonRpc ->
  provider_request
    {| RelayJsonRpc.method := RelayJsonRpc.subscribe jsonRpc;
       RelayJsonRpc.params := RelayJsonRpc.SubscribeParams topic |} = Ok (JStr id) ->
  exists s',
    Relayer.subscribe topic opts s = Some (Ok id, s') /\
    Relayer.ids_of s' topic = (Relayer.ids_of s topic ++ [id])%list /\
    (forall t, t <> topic -> Relayer.subscriptions s' !! t = Relayer.subscriptions s !! t) /\
    Relayer.listeners s' = Relayer.listeners s ∪ {[ id ]} /\
    Relayer.sent s' =
      (Relayer.sent s ++
       [ {| RelayJsonRpc.method := RelayJsonRpc.subscribe jsonRpc;
            RelayJsonRpc.params := RelayJsonRpc.SubscribeParams topic |} ])%list.
Proof.
  intros Hproto Hreq. unfold Relayer.subscribe, Relayer.request. rewrite Hproto.
  cbn. rewrite Hreq. eexists. split; [reflexivity|].
  unfold Relayer.ids_of. cbn. split; [|split; [|done]].
  - by rewrite lookup_insert_eq.
  - intros t Hne. by rewrite lookup_insert_ne.
Qed.


(** X14. [unsubscribe(topic, {id})] on a protocol of the relay table and a
    relay that accepts the request: one unsubscribe request for the id
    goes out and the listener of the id is removed, but the list of the
    topic is filtered to the entries equal to the id: the id stays if it
    was there, and every other id of the topic is dropped. *)
Theorem relayer_unsubscribe_id topic opts s jsonRpc i v :
  opts ≫= id = Some i ->
  Relayer.getRelayProtocolJsonRpc
    (or_string (protocol <$> (unsubscribe_relay <$> opts))
       Relayer.RELAYER_DEFAULT_PROTOCOL) = Ok jsonRpc ->
  provider_request
    {| RelayJsonRpc.method := RelayJsonRpc.unsubscribe jsonRpc;
       RelayJsonRpc.params := RelayJsonRpc.UnsubscribeParams i |} = Ok v ->
  let r := Relayer.unsubscribe topic opts s in
  fst r = Ok tt /\
  (In i (Relayer.ids_of s topic) -> In i (Relayer.ids_of (snd r) topic)) /\
  (forall x, In x (Relayer.ids_of (snd r) topic) -> x = i) /\
  (i ∉ Relayer.listeners (snd r)) /\
  Relayer.listeners (snd r) = Relayer.listeners s ∖ {[ i ]} /\
  Relayer.sent (snd r) =
    (Relayer.sent s ++
     [ {| RelayJsonRpc.method := RelayJsonRpc.unsubscribe jsonRpc;
          RelayJsonRpc.params := RelayJsonRpc.UnsubscribeParams i |} ])%list.
Proof.
  intros Hid Hproto Hreq. cbn zeta. unfold Relayer.unsubscribe. rewrite Hid.
  destruct (unsubscribeId_subscriptions topic i opts s jsonRpc v Hproto Hreq) as [Hok Hids].
  split; [done|]. rewrite Hids. split; [apply filter_same_id_keeps|].
  split; [apply filter_same_id_only|].
  unfold Relayer.unsubscribeId, Relayer.request. rewrite Hproto. cbn. rewrite Hreq.
  destruct (Relayer.subscriptions s !! topic); cbn.
  - split; [|done]. apply not_elem_of_difference. right. by apply elem_of_singleton.
  - split; [|done]. apply not_elem_of_difference. right. by apply elem_of_singleton.
Qed.

(** X15. The failures of [publish], in the order the code meets them: an
    error of the encryption comes first and nothing is sent, also when the
    protocol is outside the relay table; then the protocol outside the
    table, with nothing sent; then the error of the relay, after the
    request went out.  In no case does [publish] touch the lists of ids or
    the listeners, and at most one request goes out. *)
Theorem relayer_publish_failures topic (payload : Payload) (opts : option PublishOptions) s :
  let protocol :=
    or_string (protocol <$> (publish_relay <$> opts)) Relayer.RELAYER_DEFAULT_PROTOCOL in
  let message :=
    if hasKeys topic then encrypt topic (safeJsonStringify payload)
    else Ok (Relayer.utf8ToHex (safeJsonStringify payload)) in
  let r := Relayer.publish topic payload opts s in
  Relayer.subscriptions (snd r) = Relayer.subscriptions s /\
  Relayer.listeners (snd r) = Relayer.listeners s /\
  (Relayer.sent (snd r) = Relayer.sent s \/
   exists req, Relayer.sent (snd r) = (Relayer.sent s ++ [req])%list) /\
  (forall e, message = Err e -> r = (Err e, s)) /\
  (forall m, message = Ok m -> relay_protocol_supported protocol = false ->
             r = (Err (RELAY_PROTOCOL_NOT_SUPPORTED protocol), s)) /\
  (forall m e, message = Ok m -> relay_protocol_supported protocol = true ->
     provider_request
       {| RelayJsonRpc.method := (protocol ++ "_publish")%string;
          RelayJsonRpc.params :=
            RelayJsonRpc.PublishParams topic m
              (or_number (opts ≫= ttl) Relayer.RELAYER_DEFAULT_PUBLISH_TTL) |} = Err e ->
     fst r = Err e /\ Relayer.sent (snd r) <> Relayer.sent s).
Proof.
  cbn zeta. unfold Relayer.publish, Relayer.getRelayProtocolJsonRpc, Relayer.RELAY_JSONRPC,
    Relayer.request.
  destruct (if hasKeys topic then _ else _) as [m|e]; cbn.
  - destruct (relay_protocol_supported _) eqn:Hsup; cbn.
    + destruct (provider_request _) as [v|e] eqn:Hreq; cbn.
      * split; [done|]. split; [done|]. split; [right; by eexists|].
        split; [done|]. split; [done|].
        intros m' e' [= <-] _ He. congruence.
      * split; [done|]. split; [done|]. split; [right; by eexists|].
        split; [done|]. split; [done|].
        intros m' e' [= <-] _ He. split; [congruence|].
        intros Hsent. apply (f_equal List.length) in Hsent.
        rewrite length_app in Hsent. cbn in Hsent. lia.
    + split; [done|]. split; [done|]. split; [by left|].
      split; [done|]. split; [done|]. done.
  - split; [done|]. split; [done|]. split; [by left|].
    split; [by intros e' [= <-]|]. split; [done|]. done.
Qed.
End RelayerRequestFacts.

Lemma relayer_subscribe_appends_witness :
  exists s',
    Relayer.subscribe (RE := Samples.relayer_env_ids) "t" None Samples.relayer_two_topics =
      Some (Ok "id1", s') /\
    Relayer.ids_of s' "t" = ["a"; "b"; "id1"] /\
    Relayer.ids_of s' "u" = ["c"].
Proof.
  destruct (relayer_subscribe_appends (RE := Samples.relayer_env_ids) "t" None
              Samples.relayer_two_topics
              {| RelayJsonRpc.publish := "waku_publish";
                 RelayJsonRpc.subscribe := "waku_subscribe";
                 RelayJsonRpc.subscription := "waku_subscription";
                 RelayJsonRpc.unsubscribe := "waku_unsubscribe" |} "id1")
    as (s' & Hsub & Hids & Hother & _).
  - reflexivity.
  - reflexivity.
  - exists s'. split; [exact Hsub|]. split; [exact Hids|].
    unfold Relayer.ids_of. rewrite Hother; [reflexivity | discriminate].
Defined.


Lemma relayer_unsubscribe_id_witness :
  let r := Relayer.unsubscribe (RE := Samples.relayer_env) "t"
             (Some Samples.unsubscribe_a) Samples.relayer_two_topics in
  fst r = Ok tt /\
  In "a" (Relayer.ids_of (snd r) "t") /\
  ~ In "b" (Relayer.ids_of (snd r) "t") /\
  "a" ∉ Relayer.listeners (snd r).
Proof.
  cbn zeta.
  destruct (relayer_unsubscribe_id (RE := Samples.relayer_env) "t"
              (Some Samples.unsubscribe_a) Samples.relayer_two_topics
              {| RelayJsonRpc.publish := "waku_publish";
                 RelayJsonRpc.subscribe := "waku_subscribe";
                 RelayJsonRpc.subscription := "waku_subscription";
                 RelayJsonRpc.unsubscribe := "waku_unsubscribe" |} "a" (JBool true))
    as (Hok & Hstay & Honly & Hlis & _).
  - reflexivity.
  - reflexivity.
  - reflexivity.
  - split; [exact Hok|]. split; [|split; [|exact Hlis]].
    + apply Hstay. by left.
    + intros Hb. apply Honly in Hb. discriminate.
Defined.

(** Encryption fails and the protocol is outside the table: the error is
    that of the encryption. *)
Lemma relayer_publish_failures_witness :
  Relayer.publish (RE := Samples.relayer_env_failing) "t" "{}" None Samples.relayer_two_topics =
    (Err (Thrown "encryption failed"), Samples.relayer_two_topics).
Proof.
  destruct (relayer_publish_failures (RE := Samples.relayer_env_failing) "t" "{}" None
              Samples.relayer_two_topics) as (_ & _ & _ & Henc & _).
  by apply Henc.
Defined.

(** ** Pairing: merging an update of the state *)

Section PairingUpdateFacts.
Context {SE : StoreEnv}.
Import SubscriptionTypes PairingTypes.
Implicit Types (s : Pairing.SettledStore) (topic : string).

(** X16. [mergeUpdate] on an enabled settled store.  For a topic that is
    held it resolves, without writing to the store, with the metadata of
    the update when the update has one and with the settled metadata
    otherwise, so that an update without metadata never clears it; for a
    topic that is not held it rejects with NO_MATCHING_TOPIC, as
    [mergeUpgrade] does. *)
Theorem pairing_mergeUpdate_metadata s topic (update : Update) upg :
  Subscription.enabled s ->
  (forall sub, Subscription.entry s topic = Some sub ->
     exists st,
       Pairing.mergeUpdate topic update s = Subscription.Resolved st s /\
       (forall m, metadata (state_update update) = Some m -> metadata st = Some m) /\
       (metadata (state_update update) = None ->
        metadata st = metadata (state (params_sequence sub))) /\
       (metadata st = None <->
        metadata (state_update update) = None /\
        metadata (state (params_sequence sub)) = None)) /\
  (Subscription.entry s topic = None ->
   let error := NO_MATCHING_TOPIC Subscription.getSubscriptionContext topic in
   Pairing.mergeUpdate topic update s =
     Subscription.Rejected error (Subscription.log_error error s) /\
   Pairing.mergeUpgrade topic upg s =
     Subscription.Rejected error (Subscription.log_error error s)).
Proof.
  intros Hen. split.
  - intros sub Hsub. unfold Pairing.mergeUpdate, Subscription.bind.
    rewrite (get_present _ _ sub) by done. eexists. split; [reflexivity|]. cbn.
    destruct (metadata (state_update update)) as [m|].
    + split; [done|]. split; [done|]. split; [done | by intros [? _]].
    + split; [done|]. split; [done|]. split; [done | by intros [_ ?]].
  - intros Hnone. cbn zeta.
    unfold Pairing.mergeUpdate, Pairing.mergeUpgrade, Pairing.get, Subscription.bind.
    by rewrite store_get_absent.
Qed.
End PairingUpdateFacts.

(** The settled pairing [t] has no metadata; an update brings some. *)
Lemma pairing_mergeUpdate_metadata_witness :
  Pairing.mergeUpdate (SE := Samples.store_env) "t"
    {| PairingTypes.state_update := {| PairingTypes.metadata := Some Samples.app |} |}
    Samples.pairing_store =
  Subscription.Resolved {| PairingTypes.metadata := Some Samples.app |} Samples.pairing_store.
Proof.
  destruct (pairing_mergeUpdate_metadata (SE := Samples.store_env) Samples.pairing_store "t"
              {| PairingTypes.state_update :=
                   {| PairingTypes.metadata := Some Samples.app |} |}
              (Samples.upgrade_methods []))
    as [Hheld _]; [reflexivity|].
  destruct (Hheld _ eq_refl) as (st & Hmerge & Hsome & _).
  rewrite Hmerge. destruct st as [md]. cbn in Hsome.
  by rewrite (Hsome Samples.app eq_refl).
Defined.

(** ** Client facade: what [connect] and [approve] check, and in which order *)

Section ClientCallFacts.
Context {CE : ClientEnv}.
Import SubscriptionTypes ClientTypes SequenceTypes.
Implicit Types (c : Client.State).

(** X17. [connect] over a pairing of the caller.  While the settled store
    of the pairing controller restores, [connect] waits and does nothing.
    On a topic the store does not hold it throws NO_MATCHING_TOPIC and
    [session.create] is not called.  On a topic it holds, [session.create]
    is called once, with the topic of the settled pairing as signal, the
    metadata of the parameters or else of the client, and the relay of the
    parameters or else the default protocol; without metadata it throws
    MISSING_OR_INVALID and [session.create] is not called. *)
Theorem client_connect_over_pairing (params : ConnectParams) c ref :
  pairing params = Some ref ->
  let store := Client.pairing_settled c in
  let topic := pairing_topic ref in
  let metadata :=
    match ClientTypes.metadata params with
    | Some m => Some m
    | None => Client.metadata c
    end in
  (Subscription.cached store <> [] -> Client.connect params c = (Client.Awaits, c)) /\
  (Subscription.enabled store -> Subscription.entry store topic = None ->
   fst (Client.connect params c) =
     Client.Throws
       (NO_MATCHING_TOPIC (Subscription.getSubscriptionContext (SE := pairing_store_env)) topic) /\
   Client.actions (snd (Client.connect params c)) = Client.actions c) /\
  (forall sub, Subscription.enabled store -> Subscription.entry store topic = Some sub ->
     match metadata with
     | None =>
         Client.connect params c = (Client.Throws (MISSING_OR_INVALID "app metadata"), c)
     | Some m =>
         let create_params :=
           {| SessionTypes.create_signal :=
                PairingTypes.SignalPairing (PairingTypes.topic (params_sequence sub));
              SessionTypes.create_relay :=
                default {| RelayerTypes.protocol := "waku"; RelayerTypes.params := None |}
                  (relay params);
              SessionTypes.create_metadata := m;
              SessionTypes.create_permissions :=
                <[ "notifications" :=
                     Client.field Client.SESSION_EMPTY_PERMISSIONS "notifications" ]>
                  (permissions params) |} in
         Client.connect params c =
           (Client.of_result (session_create create_params),
            Client.act (Client.SessionCreate create_params) c)
     end).
Proof.
  intros Href. cbn zeta. unfold Client.connect. rewrite Href.
  assert (forall p, Client.with_pairing_settled (Client.pairing_settled p) p = p) as Hsame
    by (by intros []).
  split; [|split].
  - intros Hcached. unfold Pairing.get, Subscription.get, Subscription.bind,
      Subscription.isEnabled.
    destruct (Subscription.cached (Client.pairing_settled c)); [done|].
    by rewrite Hsame.
  - intros Hen Hnone. unfold Pairing.get. by rewrite store_get_absent.
  - intros sub Hen Hsub. rewrite (get_present _ _ sub) by done. rewrite Hsame.
    by destruct (ClientTypes.metadata params), (Client.metadata c).
Qed.

(** X18. [connect] without a pairing creates one first and checks the
    metadata afterwards: when neither the parameters nor the client have
    metadata, the pairing has been created by the time [connect] throws
    MISSING_OR_INVALID, and [session.create] is not called; when creating
    the pairing fails, its error is thrown and nothing else is done. *)
Theorem client_connect_creates_pairing_first (params : ConnectParams) c :
  pairing params = None ->
  (forall e, pairing_create = Err e ->
     Client.connect params c = (Client.Throws e, Client.act Client.PairingCreate c)) /\
  (forall settled, pairing_create = Ok settled ->
     ClientTypes.metadata params = None -> Client.metadata c = None ->
     Client.connect params c =
       (Client.Throws (MISSING_OR_INVALID "app metadata"),
        Client.act Client.PairingCreate c)) /\
  (forall settled m, pairing_create = Ok settled ->
     ClientTypes.metadata params = Some m \/
     (ClientTypes.metadata params = None /\ Client.metadata c = Some m) ->
     exists create_params,
       Client.actions (snd (Client.connect params c)) =
         (Client.actions c ++ [Client.PairingCreate; Client.SessionCreate create_params])%list /\
       SessionTypes.create_signal create_params =
         PairingTypes.SignalPairing (PairingTypes.topic settled) /\
       SessionTypes.create_metadata create_params = m).
Proof.
  intros Hnone. unfold Client.connect. rewrite Hnone.
  split; [|split].
  - by intros e ->.
  - intros settled -> Hp Hc. cbn. by rewrite Hp, Hc.
  - intros settled m -> Hm. cbn.
    destruct Hm as [-> | [-> ->]]; eexists; cbn; by rewrite <- app_assoc.
Qed.

Context (SESSION_EMPTY_STATE : JsObject).

(** X19. What [approve] checks before it answers a proposal, in order:
    without a response it throws MISSING_RESPONSE; with a response but no
    metadata, in the response or in the client, it throws
    MISSING_OR_INVALID; in both cases nothing is handed to the session
    controller and the client is unchanged.  Otherwise [session.respond]
    is called exactly once, approving exactly when the controller flag of
    the proposer differs from that of the client, with the state of the
    response or else the empty state, and with the metadata of the response
    before that of the client. *)
Theorem client_approve_checks now (params : ApproveParams) c :
  (approve_response params = None ->
   Client.approve SESSION_EMPTY_STATE now params c =
     (Client.Throws (MISSING_RESPONSE "session"), c)) /\
  (forall response,
     approve_response params = Some response ->
     input_metadata response = None -> Client.metadata c = None ->
     Client.approve SESSION_EMPTY_STATE now params c =
       (Client.Throws (MISSING_OR_INVALID "app metadata"), c)) /\
  (forall response m,
     approve_response params = Some response ->
     input_metadata response = Some m \/
     (input_metadata response = None /\ Client.metadata c = Some m) ->
     let flag :=
       PairingTypes.proposer_controller (SessionTypes.proposer (approve_proposal params)) in
     Client.actions (snd (Client.approve SESSION_EMPTY_STATE now params c)) =
       (Client.actions c ++
        [Client.SessionRespond
           {| approved := negb (Bool.eqb flag (Client.controller c));
              proposal := approve_proposal params;
              response :=
                Some {| SessionTypes.state :=
                          default SESSION_EMPTY_STATE (input_state response);
                        SessionTypes.metadata := Some m |};
              reason :=
                if negb (Bool.eqb flag (Client.controller c)) then None
                else Some (UNAUTHORIZED_MATCHING_CONTROLLER (Client.controller c)) |}])%list).
Proof.
  unfold Client.approve. split; [|split].
  - by intros ->.
  - intros response -> Hr Hc. by rewrite Hr, Hc.
  - intros response m -> Hm. cbn zeta.
    assert (match input_metadata response with
            | Some m0 => Some m0
            | None => Client.metadata c
            end = Some m) as -> by (destruct Hm as [-> | [-> ->]]; done).
    unfold Client.approve_respond_params.
    destruct (Client.session_respond now _ c) as [pending p | e p | p]; cbn; try done.
    destruct (outcome pending) as [[[r|] | topic]|]; cbn; try done.
    by destruct (Subscription.get topic p).
Qed.

End ClientCallFacts.

(** [connect] over the pairing [zz], which the client does not hold. *)
Lemma client_connect_over_pairing_witness :
  let params :=
    {| ClientTypes.metadata := None; ClientTypes.relay := None;
       ClientTypes.pairing := Some {| ClientTypes.pairing_topic := "zz" |};
       ClientTypes.permissions := ∅ |} in
  fst (Client.connect (CE := Samples.client_env) params (Samples.client true)) =
    Client.Throws (NO_MATCHING_TOPIC "pairing settled" "zz") /\
  Client.actions (snd (Client.connect (CE := Samples.client_env) params (Samples.client true))) =
    [].
Proof.
  cbn zeta.
  destruct (client_connect_over_pairing (CE := Samples.client_env)
              {| ClientTypes.metadata := None; ClientTypes.relay := None;
                 ClientTypes.pairing := Some {| ClientTypes.pairing_topic := "zz" |};
                 ClientTypes.permissions := ∅ |}
              (Samples.client true) {| ClientTypes.pairing_topic := "zz" |} eq_refl)
    as (_ & Habsent & _).
  destruct Habsent as [Hthrows Hactions]; [reflexivity | reflexivity |].
  split; [exact Hthrows | exact Hactions].
Defined.

(** [connect] without a pairing, by a client without metadata. *)
Lemma client_connect_creates_pairing_first_witness :
  let params :=
    {| ClientTypes.metadata := None; ClientTypes.relay := None;
       ClientTypes.pairing := None; ClientTypes.permissions := ∅ |} in
  Client.connect (CE := Samples.client_env) params Samples.bare_client =
    (Client.Throws (MISSING_OR_INVALID "app metadata"),
     Client.act Client.PairingCreate Samples.bare_client).
Proof.
  cbn zeta.
  destruct (client_connect_creates_pairing_first (CE := Samples.client_env)
              {| ClientTypes.metadata := None; ClientTypes.relay := None;
                 ClientTypes.pairing := None; ClientTypes.permissions := ∅ |}
              Samples.bare_client eq_refl)
    as (_ & Hmissing & _).
  by apply (Hmissing Samples.settled_t).
Defined.

(** [approve] with a response that has no metadata, by a client without
    metadata. *)
Lemma client_approve_checks_witness :
  let params :=
    {| ClientTypes.approve_proposal := Samples.session_proposal;
       ClientTypes.approve_response :=
         Some {| ClientTypes.input_state := None; ClientTypes.input_metadata := None |} |} in
  Client.approve (CE := Samples.client_env) ∅ 0 params Samples.bare_client =
    (Client.Throws (MISSING_OR_INVALID "app metadata"), Samples.bare_client).
Proof.
  cbn zeta.
  destruct (client_approve_checks (CE := Samples.client_env) ∅ 0
              {| ClientTypes.approve_proposal := Samples.session_proposal;
                 ClientTypes.approve_response :=
                   Some {| ClientTypes.input_state := None;
                           ClientTypes.input_metadata := None |} |}
              Samples.bare_client)
    as (_ & Hmissing & _).
  by apply (Hmissing {| ClientTypes.input_state := None; ClientTypes.input_metadata := None |}).
Defined.

(** ** The wallet of the example application *)

Section WalletFacts.
Context {Provider KeyPair : Type} {WE : WalletEnv Provider KeyPair}.
Import WalletTypes.
Implicit Types (w : Wallet.WalletConfig Provider) (ns : NamespaceMap).

Lemma add_provider_skips ns acc chain :
  Wallet.reference_of chain <> Some "chains" ->
  Wallet.reference_of chain <> Some "jsonrpc" ->
  Wallet.add_provider (WE := WE) ns acc chain = acc.
Proof.
  intros Hc Hj. unfold Wallet.add_provider.
  destruct (ns !! Wallet.namespace_of chain) as [config|]; [|done].
  assert (Wallet.includes (Wallet.config_keys config) (Wallet.reference_of chain) = false)
    as ->; [|done].
  unfold Wallet.includes, Wallet.config_keys.
  destruct (Wallet.reference_of chain) as [r|]; [|done]. cbn.
  destruct (String.eqb_spec r "chains") as [->|_]; [done|].
  destruct (String.eqb_spec r "jsonrpc") as [->|_]; done.
Qed.

Lemma fold_add_provider_skips ns acc chains :
  (forall chain, In chain chains ->
     Wallet.reference_of chain <> Some "chains" /\
     Wallet.reference_of chain <> Some "jsonrpc") ->
  fold_left (Wallet.add_provider (WE := WE) ns) chains acc = acc.
Proof.
  revert acc. induction chains as [|chain chains IH]; intros acc Hall; [done|].
  cbn. destruct (Hall chain) as [Hc Hj]; [by left|].
  rewrite add_provider_skips by done. apply IH. intros c Hin. apply Hall. by right.
Qed.

(** X21. A wallet built for chain ids whose reference is neither [chains]
    nor [jsonrpc] (so for every id of the form [eip155:1]) has no
    provider at all: [getWalletConfig] looks the reference up among the
    keys of the namespace config, which are [chains] and [jsonrpc].  On
    such a wallet every [request] with a chain id fails on the undefined
    provider, and [getAccounts] fails for every chain id. *)
Theorem wallet_config_no_provider (opts : WalletOptions) w :
  (forall chain, In chain (option_chains opts) ->
     Wallet.reference_of chain <> Some "chains" /\
     Wallet.reference_of chain <> Some "jsonrpc") ->
  Wallet.init opts = Ok w ->
  Wallet.providers w = ∅ /\
  Wallet.getNamespaceMap (option_chains opts) = Ok (Wallet.namespaces w) /\
  (forall req chain,
     Wallet.request w req (Some {| chainId := Some chain |}) = Err (Thrown "TypeError")) /\
  (forall chain, exists e, Wallet.getAccounts w chain = Err e).
Proof.
  intros Hall. unfold Wallet.init, Wallet.getWalletConfig.
  destruct (Wallet.getNamespaceMap (option_chains opts)) as [ns|e]; [|done].
  rewrite fold_add_provider_skips by done. intros [= <-]. cbn.
  split; [done|]. split; [done|]. split.
  - intros req chain. unfold Wallet.request, Wallet.getProvider. cbn.
    by rewrite lookup_empty.
  - intros chain. unfold Wallet.getAccounts, Wallet.getProvider. cbn.
    rewrite lookup_empty.
    destruct (Wallet.getMethods _ _ _) as [[|m ms]|]; cbn; eauto.
Qed.

Lemma fold_add_namespace_err l e :
  fold_left (Wallet.add_namespace (WE := WE)) l (Err e) = Err e.
Proof.
  induction l as [|n l IH]; [done|]. cbn.
  assert (Wallet.add_namespace (WE := WE) (Err e) n = Err e) as ->; [|done].
  unfold Wallet.add_namespace.
  by destruct (apiGetChainNamespace n), (apiGetChainJsonRpc n).
Qed.

Lemma fold_add_namespace_ok l ns0 ns :
  fold_left (Wallet.add_namespace (WE := WE)) l (Ok ns0) = Ok ns ->
  (forall n, In n l ->
     exists c j, apiGetChainNamespace n = Ok c /\ apiGetChainJsonRpc n = Ok j /\
                 ns !! n = Some {| chains := c; jsonrpc := j |}) /\
  (forall n, ~ In n l -> ns !! n = ns0 !! n).
Proof.
  revert ns0. induction l as [|n l IH]; intros ns0 Hfold.
  - cbn in Hfold. injection Hfold as <-. split; [by intros n []|done].
  - cbn in Hfold. unfold Wallet.add_namespace at 2 in Hfold.
    destruct (apiGetChainNamespace n) as [c|e] eqn:Hc;
      [|by rewrite fold_add_namespace_err in Hfold].
    destruct (apiGetChainJsonRpc n) as [j|e] eqn:Hj;
      [|by rewrite fold_add_namespace_err in Hfold].
    destruct (IH _ Hfold) as [Hin Hout]. split.
    + intros n' [<- | Hn'].
      * destruct (in_dec string_dec n l) as [Hl | Hl]; [by apply Hin|].
        exists c, j. rewrite (Hout n Hl), lookup_insert_eq. by rewrite Hc, Hj.
      * by apply Hin.
    + intros n' Hn'. rewrite Hout by (intros ?; apply Hn'; by right).
      apply lookup_insert_ne. intros ->. apply Hn'. by left.
Qed.

(** X22. When [getNamespaceMap] succeeds, the map has exactly the
    namespaces that [getNamespaces] gives for the chains, each with the
    chains and the JSON-RPC methods the registry answers for it; it fails
    as soon as the registry fails for one of them. *)
Theorem wallet_namespace_map (chains_ : list string) :
  (forall ns, Wallet.getNamespaceMap chains_ = Ok ns ->
     forall n,
       (In n (getNamespaces chains_) ->
        exists c j, apiGetChainNamespace n = Ok c /\ apiGetChainJsonRpc n = Ok j /\
                    ns !! n = Some {| chains := c; jsonrpc := j |}) /\
       (~ In n (getNamespaces chains_) -> ns !! n = None)) /\
  (forall n e, In n (getNamespaces chains_) ->
     apiGetChainNamespace n = Err e \/ apiGetChainJsonRpc n = Err e ->
     exists e', Wallet.getNamespaceMap chains_ = Err e').
Proof.
  unfold Wallet.getNamespaceMap. split.
  - intros ns Hfold n. destruct (fold_add_namespace_ok _ _ _ Hfold) as [Hin Hout].
    split; [apply Hin|]. intros Hn. by rewrite Hout, lookup_empty.
  - intros n e Hn Hfail.
    destruct (fold_left Wallet.add_namespace (getNamespaces chains_) (Ok ∅))
      as [ns|e'] eqn:Hfold; [|by exists e'].
    destruct (fold_add_namespace_ok _ _ _ Hfold) as [Hin _].
    destruct (Hin n Hn) as (c & j & Hc & Hj & _).
    destruct Hfail as [Hfail | Hfail]; congruence.
Qed.

(** X23. How [request] and [getAccounts] fail and what they hand to the
    provider.  [request] needs a context with a chain id and throws
    [Missing request context] or [Missing request chainId] otherwise; with
    a chain id it hands the request and the context to the provider of the
    chain.  [getAccounts] throws [Cannot get accounts for chainId] when the
    namespace of the chain id is unknown or lists no accounts method, also
    when the chain has a provider; otherwise it asks the provider of the
    chain with the first accounts method and no parameters. *)
Theorem wallet_request_errors w req :
  Wallet.request w req None = Err (Thrown "Missing request context") /\
  Wallet.request w req (Some {| chainId := None |}) =
    Err (Thrown "Missing request chainId") /\
  (forall chain p, Wallet.providers w !! chain = Some p ->
     Wallet.request w req (Some {| chainId := Some chain |}) =
       wallet_provider_request p req (Some {| chainId := Some chain |})) /\
  (forall chain,
     Wallet.namespaces w !! Wallet.namespace_of chain = None ->
     Wallet.getAccounts w chain =
       Err (Thrown ("Cannot get accounts for chainId: " ++ chain))) /\
  (forall chain config,
     Wallet.namespaces w !! Wallet.namespace_of chain = Some config ->
     methods (jsonrpc config) !! "accounts" = Some [] ->
     Wallet.getAccounts w chain =
       Err (Thrown ("Cannot get accounts for chainId: " ++ chain))) /\
  (forall chain config m ms p,
     Wallet.namespaces w !! Wallet.namespace_of chain = Some config ->
     methods (jsonrpc config) !! "accounts" = Some (m :: ms) ->
     Wallet.providers w !! chain = Some p ->
     Wallet.getAccounts w chain =
       wallet_provider_request p {| method := m; params := None |} None).
Proof.
  unfold Wallet.request, Wallet.getAccounts, Wallet.getProvider, Wallet.getMethods. cbn.
  split; [done|]. split; [done|]. split; [|split; [|split]].
  - by intros chain p ->.
  - by intros chain ->.
  - by intros chain config -> ->.
  - by intros chain config m ms p -> -> ->.
Qed.
End WalletFacts.

(** The wallet for the chain [eip155:1] is built and has no provider. *)
Lemma wallet_config_no_provider_witness :
  exists w,
    Wallet.init (WE := Samples.wallet_env) Samples.wallet_options = Ok w /\
    Wallet.providers w = ∅ /\
    is_Some (Wallet.namespaces w !! "eip155") /\
    Wallet.request (WE := Samples.wallet_env) w
      {| WalletTypes.method := "eth_accounts"; WalletTypes.params := None |}
      (Some {| WalletTypes.chainId := Some "eip155:1" |}) = Err (Thrown "TypeError").
Proof.
  destruct (Wallet.init (WE := Samples.wallet_env) Samples.wallet_options) as [w|e] eqn:Hinit;
    [|by vm_compute in Hinit].
  exists w.
  destruct (wallet_config_no_provider (WE := Samples.wallet_env) Samples.wallet_options w)
    as (Hnone & Hns & Hreq & _).
  - intros chain [<- | []]. by vm_compute.
  - exact Hinit.
  - split; [done|]. split; [exact Hnone|]. split; [|apply Hreq].
    destruct (fold_add_namespace_ok (WE := Samples.wallet_env) _ _ _ Hns) as [Hin _].
    destruct (Hin "eip155") as (c & j & _ & _ & Hcfg); [by left|].
    by rewrite Hcfg.
Defined.

Lemma wallet_namespace_map_witness :
  exists ns c j,
    Wallet.getNamespaceMap (WE := Samples.wallet_env) ["eip155:1"] = Ok ns /\
    ns !! "eip155" = Some {| WalletTypes.chains := c; WalletTypes.jsonrpc := j |} /\
    ns !! "cosmos" = None.
Proof.
  destruct (Wallet.getNamespaceMap (WE := Samples.wallet_env) ["eip155:1"]) as [ns|e] eqn:Hmap;
    [|by vm_compute in Hmap].
  destruct (wallet_namespace_map (WE := Samples.wallet_env) ["eip155:1"]) as [Hok _].
  destruct (Hok ns Hmap "eip155") as [Hin _].
  destruct (Hok ns Hmap "cosmos") as [_ Hout].
  destruct Hin as (c & j & _ & _ & Hcfg); [by left|].
  exists ns, c, j. split; [done|]. split; [exact Hcfg|].
  apply Hout. by intros [|[]].
Defined.

(** ** Subscription store: restoring entries that have expired *)

Section RestoreExpired.
Context {Sequence Update : Type} {SP : Spread Sequence Update} {SE : StoreEnv}.
Import SubscriptionTypes.
Implicit Types (s : Subscription.State Sequence Update) (topic : string).

Local Abbreviation expired_job topic :=
  (Subscription.JDelete (Update := Update) topic
     (EXPIRED Subscription.getSubscriptionContext)).

(** While entries are cached, the call that [onTimeout] starts waits for
    [enabled]. *)
Lemma setTimeout_waiting s now topic expiry :
  Subscription.cached s <> [] ->
  Subscription.timeout s !! topic = None ->
  let s' := Subscription.setTimeout now topic expiry s in
  Subscription.jobs s' = Subscription.jobs s /\
  Subscription.waiting s' =
    (Subscription.waiting s ++
     if expiry - now <=? 0 then [expired_job topic] else [])%list.
Proof.
  intros Hcached Hnone. cbn zeta. unfold Subscription.setTimeout. rewrite Hnone.
  destruct (expiry - now <=? 0).
  - unfold Subscription.onTimeout, Subscription.deleteTimeout, Subscription.start.
    rewrite Hnone. by destruct (Subscription.cached s).
  - destruct (expiry - now >? Subscription.CLIENT_BEAT_INTERVAL); cbn;
      by rewrite app_nil_r.
Qed.

Lemma restore_fold_waiting now l s :
  Subscription.cached s <> [] ->
  NoDup (params_topic <$> l) ->
  (forall q, q ∈ l -> Subscription.timeout s !! params_topic q = None) ->
  (forall q, q ∈ l -> params_expiry q <> 0) ->
  let s' := fold_left (Subscription.restore_each now) l s in
  Subscription.cached s' = Subscription.cached s /\
  Subscription.jobs s' = Subscription.jobs s /\
  exists W,
    Subscription.waiting s' = (Subscription.waiting s ++ W)%list /\
    forall j, j ∈ W <->
      exists q, q ∈ l /\ params_expiry q - now <= 0 /\ j = expired_job (params_topic q).
Proof.
  cbn zeta. revert s. induction l as [|q l IH]; intros s Hcached Hnd Hnone Hexp.
  - cbn. split; [done|]. split; [done|]. exists []. rewrite app_nil_r. split; [done|].
    intros j. split; [by intros ?%elem_of_nil|].
    by intros (q & ?%elem_of_nil & _).
  - cbn [fold_left]. apply NoDup_cons in Hnd as [Hfresh Hnd].
    assert (or_number (Some (params_expiry q)) (now + SUBSCRIPTION_DEFAULT_TTL * 1000) =
            params_expiry q) as Hor.
    { unfold or_number. destruct (Z.eqb_spec (params_expiry q) 0) as [E|]; [|done].
      exfalso. apply (Hexp q); [apply elem_of_cons; by left | done]. }
    set (s1 := Subscription.restore_each now s q).
    assert (Subscription.cached s1 = Subscription.cached s /\
            Subscription.jobs s1 = Subscription.jobs s /\
            Subscription.waiting s1 =
              (Subscription.waiting s ++
               if params_expiry q - now <=? 0 then [expired_job (params_topic q)] else [])%list /\
            forall t, t <> params_topic q ->
                      Subscription.timeout s1 !! t = Subscription.timeout s !! t)
      as (Hc1 & Hj1 & Hw1 & Ht1).
    { unfold s1, Subscription.restore_each, Subscription.subscribeAndSet.
      cbn [expiry relay]. rewrite Hor.
      match goal with
      | |- context [Subscription.setTimeout now (params_topic q) (params_expiry q) ?s0] =>
          destruct (setTimeout_frame s0 now (params_topic q) (params_expiry q))
            as (_ & Hc & _);
          destruct (setTimeout_waiting s0 now (params_topic q) (params_expiry q))
            as (Hj & Hw)
      end.
      - done.
      - cbn. apply Hnone, elem_of_cons. by left.
      - split; [done|]. split; [done|]. split; [done|].
        intros t Hne. by rewrite setTimeout_timeout_ne. }
    destruct (IH s1) as (Hc & Hj & W & Hw & HW).
    + by rewrite Hc1.
    + done.
    + intros q' Hq'. rewrite Ht1.
      * apply Hnone, elem_of_cons. by right.
      * intros Heq. apply Hfresh. rewrite <- Heq. by apply list_elem_of_fmap_2.
    + intros q' Hq'. apply Hexp, elem_of_cons. by right.
    + split; [by rewrite Hc|]. split; [by rewrite Hj|].
      exists ((if params_expiry q - now <=? 0 then [expired_job (params_topic q)] else []) ++ W)%list.
      split; [by rewrite Hw, Hw1, <- app_assoc|].
      intros j. rewrite elem_of_app, HW. split.
      * intros [Hj0 | (q' & Hq' & Hle & ->)].
        -- destruct (Z.leb_spec (params_expiry q - now) 0) as [Hle|]; [|by apply elem_of_nil in Hj0].
           apply list_elem_of_singleton in Hj0 as ->. exists q.
           split; [apply elem_of_cons; by left | done].
        -- exists q'. split; [apply elem_of_cons; by right | done].
      * intros (q' & Hq' & Hle & ->). apply elem_of_cons in Hq' as [-> | Hq'].
        -- left. destruct (Z.leb_spec (params_expiry q - now) 0); [|lia].
           by apply list_elem_of_singleton.
        -- right. by exists q'.
Qed.

Lemma NoDup_fmap_eq {A B : Type} (f : A -> B) (l : list A) (x y : A) :
  NoDup (f <$> l) -> x ∈ l -> y ∈ l -> f x = f y -> x = y.
Proof.
  induction l as [|a l IH]; [by intros _ ?%elem_of_nil|].
  cbn. intros [Hfresh Hnd]%NoDup_cons Hx Hy Heq.
  apply elem_of_cons in Hx as [-> | Hx]; apply elem_of_cons in Hy as [-> | Hy].
  - done.
  - exfalso. apply Hfresh. rewrite Heq. by apply list_elem_of_fmap_2.
  - exfalso. apply Hfresh. rewrite <- Heq. by apply list_elem_of_fmap_2.
  - by apply IH.
Qed.

Lemma restore_nonempty now vals s :
  vals <> [] ->
  Subscription.subscriptions s = [] ->
  Subscription.state_of (Subscription.init (Item (Some vals)) now s) =
    Subscription.enable
      (fold_left (Subscription.restore_each now) vals (Subscription.with_cached vals s)).
Proof.
  intros Hne Hempty. destruct vals as [|first rest]; [done|].
  unfold Subscription.init, Subscription.restore, Subscription.try_catch.
  by rewrite Hempty.
Qed.

(** X24. A fresh store that restores persisted entries with distinct
    topics, none with expiry 0: once the calls it started have run, every
    entry whose expiry is not after the time of the restore is gone, and
    [deleted] was emitted for it with its sequence and the reason EXPIRED;
    every entry that expires later is held as it was persisted. *)
Theorem subscription_restore_drops_expired now vals :
  vals <> [] ->
  NoDup (params_topic <$> vals) ->
  (forall q, q ∈ vals -> params_expiry q <> 0) ->
  let s' :=
    Subscription.run_jobs
      (Subscription.state_of
         (Subscription.init (Item (Some vals)) now Subscription.init_state)) in
  Subscription.enabled s' /\
  (forall p, p ∈ vals -> params_expiry p - now <= 0 ->
     Subscription.entry s' (params_topic p) = None /\
     Deleted Subscription.getSubscriptionEventTag (params_topic p) (params_sequence p)
       (EXPIRED Subscription.getSubscriptionContext) ∈ Subscription.emitted s') /\
  (forall p, p ∈ vals -> 0 < params_expiry p - now ->
     Subscription.entry s' (params_topic p) = Some p).
Proof.
  intros Hne Hnd Hexp. cbn zeta.
  rewrite restore_nonempty by done.
  set (s1 := Subscription.with_cached vals Subscription.init_state).
  destruct (restore_fold now vals s1) as (Hsubs & _); [by rewrite app_nil_l | done |].
  cbn zeta in Hsubs. cbn [app Subscription.subscriptions] in Hsubs.
  destruct (restore_fold_waiting now vals s1) as (Hc & Hj & W & Hw & HW).
  { done. }
  { done. }
  { intros q _. apply lookup_empty. }
  { done. }
  cbn zeta in Hc, Hj, Hw, HW.
  remember (fold_left (Subscription.restore_each now) vals s1) as s2.
  cbn in Hj, Hw.
  set (s3 := Subscription.enable s2).
  assert (Subscription.jobs s3 = W /\ Subscription.waiting s3 = [] /\
          Subscription.cached s3 = [] /\
          Subscription.subscriptions s3 = (fun p => (params_topic p, p)) <$> vals)
    as (Hj3 & Hw3 & Hc3 & Hs3).
  { unfold s3, Subscription.enable. cbn. by rewrite Hj, Hw, Hsubs. }
  unfold Subscription.run_jobs. rewrite Hj3, Hw3.
  set (s4 := Subscription.with_jobs [] [] s3).
  assert (Subscription.enabled s4) as Hen4 by exact Hc3.
  assert (JsMap.keys (Subscription.subscriptions s4) = params_topic <$> vals) as Hkeys.
  { unfold s4. cbn [Subscription.subscriptions Subscription.with_jobs]. rewrite Hs3.
    unfold JsMap.keys. by rewrite <- list_fmap_compose. }
  assert (Subscription.well_formed s4) as Hwf4.
  { split; [unfold Subscription.topics; by rewrite Hkeys|].
    intros k p Hin. unfold s4 in Hin.
    cbn [Subscription.subscriptions Subscription.with_jobs] in Hin. rewrite Hs3 in Hin.
    apply list_elem_of_fmap_1 in Hin as (q & [= -> ->] & _). done. }
  assert (forall p, p ∈ vals -> Subscription.entry s4 (params_topic p) = Some p) as Hentry.
  { intros p Hp. unfold Subscription.entry. apply elem_get.
    - by rewrite Hkeys.
    - unfold s4. cbn [Subscription.subscriptions Subscription.with_jobs]. rewrite Hs3.
      by apply (list_elem_of_fmap_2 (fun p => (params_topic p, p))). }
  split; [|split].
  - clear -Hen4. revert Hen4. generalize s4. induction W as [|j W IH]; intros s Hen; [done|].
    cbn. by apply IH, settle_enabled.
  - intros p Hp Hle.
    apply (run_deleted W s4 (params_topic p) (EXPIRED Subscription.getSubscriptionContext) p);
      [done | done | by apply Hentry | |].
    + apply HW. by exists p.
    + intros j Hj' Htopic. apply HW in Hj' as (q & _ & _ & ->). cbn in Htopic.
      by injection Htopic as ->.
  - intros p Hp Hlater. rewrite run_entry_other; [by apply Hentry|].
    intros j Hj' Htopic. apply HW in Hj' as (q & Hq & Hle & ->). cbn in Htopic.
    injection Htopic as Heq.
    assert (q = p) as ->; [|lia].
    by apply (NoDup_fmap_eq params_topic vals).
Qed.
End RestoreExpired.

(** At time 5000 a fresh store restores [t], which expired at 1000, and
    [u], which expires at 9000. *)
Lemma subscription_restore_drops_expired_witness :
  let t := {| SubscriptionTypes.params_topic := "t";
              SubscriptionTypes.params_sequence := Samples.sequence_a;
              SubscriptionTypes.params_relay := Samples.waku;
              SubscriptionTypes.params_expiry := 1000 |} in
  let u := {| SubscriptionTypes.params_topic := "u";
              SubscriptionTypes.params_sequence := Samples.sequence_a;
              SubscriptionTypes.params_relay := Samples.waku;
              SubscriptionTypes.params_expiry := 9000 |} in
  let s' :=
    Subscription.run_jobs (SE := Samples.store_env)
      (Subscription.state_of
         (Subscription.init (SE := Samples.store_env)
            (SubscriptionTypes.Item (Some [t; u])) 5000 Samples.empty_store)) in
  Subscription.entry s' "t" = None /\ Subscription.entry s' "u" = Some u.
Proof.
  cbn zeta.
  destruct (subscription_restore_drops_expired (SE := Samples.store_env) (Update := JsObject)
              5000
              [ {| SubscriptionTypes.params_topic := "t";
                   SubscriptionTypes.params_sequence := Samples.sequence_a;
                   SubscriptionTypes.params_relay := Samples.waku;
                   SubscriptionTypes.params_expiry := 1000 |};
                {| SubscriptionTypes.params_topic := "u";
                   SubscriptionTypes.params_sequence := Samples.sequence_a;
                   SubscriptionTypes.params_relay := Samples.waku;
                   SubscriptionTypes.params_expiry := 9000 |} ])
    as (_ & Hgone & Hkept).
  - done.
  - cbn. apply NoDup_cons. split; [|apply NoDup_singleton].
    intros Hin. apply list_elem_of_singleton in Hin. discriminate.
  - intros q Hq. apply elem_of_cons in Hq as [-> | Hq]; [done|].
    apply list_elem_of_singleton in Hq as ->. done.
  - split.
    + apply (Hgone {| SubscriptionTypes.params_topic := "t";
                      SubscriptionTypes.params_sequence := Samples.sequence_a;
                      SubscriptionTypes.params_relay := Samples.waku;
                      SubscriptionTypes.params_expiry := 1000 |});
        [apply elem_of_cons; by left | cbn; lia].
    + apply (Hkept {| SubscriptionTypes.params_topic := "u";
                      SubscriptionTypes.params_sequence := Samples.sequence_a;
                      SubscriptionTypes.params_relay := Samples.waku;
                      SubscriptionTypes.params_expiry := 9000 |});
        [apply elem_of_cons; right; by apply list_elem_of_singleton | cbn; lia].
Defined.

(** A wallet with a provider for [eip155:1] and no namespace. *)
Lemma wallet_request_errors_witness :
  let w := {| Wallet.mnemonic := "test test test";
              Wallet.providers := {[ "eip155:1" := "eip155-provider" ]};
              Wallet.namespaces := ∅ |} in
  Wallet.getAccounts (WE := Samples.wallet_env) w "eip155:1" =
    Err (Thrown "Cannot get accounts for chainId: eip155:1") /\
  Wallet.request (WE := Samples.wallet_env) w
    {| WalletTypes.method := "eth_accounts"; WalletTypes.params := None |}
    (Some {| WalletTypes.chainId := Some "eip155:1" |}) = Ok (JStr "eip155-provider").
Proof.
  cbn zeta.
  destruct (wallet_request_errors (WE := Samples.wallet_env)
              {| Wallet.mnemonic := "test test test";
                 Wallet.providers := {[ "eip155:1" := "eip155-provider" ]};
                 Wallet.namespaces := ∅ |}
              {| WalletTypes.method := "eth_accounts"; WalletTypes.params := None |})
    as (_ & _ & Hreq & Hunknown & _).
  split.
  - by apply Hunknown.
  - by rewrite (Hreq "eip155:1" "eip155-provider").
Defined.

(** ** Subscription store: the accessors *)

Section AccessorFacts.
Context {Sequence Update : Type} {SP : Spread Sequence Update} {SE : StoreEnv}.
Import SubscriptionTypes.
Implicit Types (s : Subscription.State Sequence Update) (topic : string).

(** X25. On a store that started empty, after any sequence of calls
    (init, set, get, update, delete, beats, timers firing, queued calls
    running): [topics] has no topic twice and lists the topics of
    [values] in the same order, [length] counts them, and, when the store
    is enabled, [get] resolves exactly for the topics of [topics], with
    the sequence of the value that carries the topic. *)
Theorem subscription_accessors_agree cs :
  let s := Subscription.calls cs Subscription.init_state in
  NoDup (Subscription.topics s) /\
  Subscription.topics s = params_topic <$> Subscription.values s /\
  Subscription.length s = List.length (Subscription.values s) /\
  (Subscription.enabled s ->
   forall topic,
     (topic ∈ Subscription.topics s <->
      exists p, p ∈ Subscription.values s /\ params_topic p = topic /\
                Subscription.get topic s = Subscription.Resolved (params_sequence p) s) /\
     (topic ∉ Subscription.topics s <->
      exists e s', Subscription.get topic s = Subscription.Rejected e s')).
Proof.
  cbn zeta. set (s := Subscription.calls cs Subscription.init_state).
  assert (Subscription.well_formed s) as Hwf
    by apply calls_well_formed, init_state_well_formed.
  split; [by destruct Hwf|]. split; [|split].
  - rewrite <- (entry_topics_keys s Hwf). unfold Subscription.values, JsMap.values.
    by rewrite <- list_fmap_compose.
  - unfold Subscription.length, JsMap.size, Subscription.values, JsMap.values.
    by rewrite length_fmap.
  - intros Hen topic. destruct (Subscription.entry s topic) as [p|] eqn:Hp.
    + assert (topic ∈ Subscription.topics s) as Hin.
      { destruct (decide (topic ∈ Subscription.topics s)) as [|Hnot]; [done|].
        apply get_None_keys in Hnot. unfold Subscription.entry in Hp. congruence. }
      split.
      * split; [intros _|done]. exists p.
        apply get_Some_elem in Hp as Helem. split; [|split].
        -- unfold Subscription.values, JsMap.values.
           by apply (list_elem_of_fmap_2 snd _ (topic, p)).
        -- destruct Hwf as [_ Hkey]. by apply Hkey.
        -- by apply store_get_present.
      * split; [done|]. intros (e & s' & Hget).
        rewrite (store_get_present _ _ p) in Hget by done. discriminate.
    + assert (topic ∉ Subscription.topics s) as Hnot by (by apply get_None_keys).
      split.
      * split; [done|]. intros (p & Hpin & Htopic & Hget).
        rewrite store_get_absent in Hget by done. discriminate.
      * split; [intros _|done]. rewrite store_get_absent by done. by eexists _, _.
Qed.
End AccessorFacts.

Lemma subscription_accessors_agree_witness :
  let s := Subscription.calls (SE := Samples.store_env)
             [Subscription.CSet 0 "t" Samples.sequence_a (Samples.expires_at 8000);
              Subscription.CSet 0 "u" Samples.sequence_a Samples.no_expiry;
              Subscription.CRun]
             Samples.empty_store in
  Subscription.topics s = ["t"; "u"] /\
  Subscription.length s = 2%nat /\
  Subscription.get (SE := Samples.store_env) "t" s = Subscription.Resolved Samples.sequence_a s.
Proof.
  cbn zeta.
  destruct (subscription_accessors_agree (SE := Samples.store_env) (Update := JsObject)
              [Subscription.CSet 0 "t" Samples.sequence_a (Samples.expires_at 8000);
               Subscription.CSet 0 "u" Samples.sequence_a Samples.no_expiry;
               Subscription.CRun])
    as (_ & _ & Hlen & Hget).
  unfold Samples.empty_store.
  split; [by vm_compute|]. split; [rewrite Hlen; by vm_compute|].
  destruct (Hget eq_refl "t") as [[Hin _] _].
  destruct Hin as (p & Hp & Htopic & Hres).
  - by vm_compute; left.
  - rewrite Hres. f_equal. vm_compute in Hp.
    apply elem_of_cons in Hp as [-> | Hp]; [done|].
    apply list_elem_of_singleton in Hp as ->. done.
Defined.
